(** * Version algebra of spack: [lib/spack/spack/version.py]

    A shallow embedding of the [Version], [_VersionEndpoint], [VersionRange]
    and [VersionList] classes and of the parser ([_string_to_version],
    [ver]), followed by the properties of the specification that were
    checked against them. *)

From Stdlib Require Import ZArith List String Ascii Bool Lia DecimalString.
From Stdlib Require DecimalPos.
Import ListNotations.
Open Scope string_scope.
Open Scope list_scope.
Open Scope Z_scope.

(** ** Exceptions

    Python code that can raise is embedded in an error monad; the
    constructors are the exception classes the module can raise. *)

Inductive exn : Type :=
| ValueError
| TypeError
| IndexError
| AssertionError
| AttributeError.

Inductive res (A : Type) : Type :=
| Ok (a : A)
| Raise (e : exn).
Arguments Ok {A} a.
Arguments Raise {A} e.

Definition bind {A B : Type} (m : res A) (k : A -> res B) : res B :=
  match m with
  | Ok a => k a
  | Raise e => Raise e
  end.

Notation "x <- m ;; k" := (bind m (fun x => k))
  (at level 61, m at next level, right associativity).
Notation "' p <- m ;; k" := (bind m (fun x => match x with p => k end))
  (at level 61, p pattern, m at next level, right associativity).

(** The [assert] statement. *)
Definition assert (b : bool) : res unit :=
  if b then Ok tt else Raise AssertionError.

Definition raises {A : Type} (m : res A) : Prop :=
  match m with
  | Ok _ => False
  | Raise _ => True
  end.

(** ** Python strings

    A [str] is embedded as a [string]; its characters are code points below
    256.  The helpers below are the [str] and [re] operations the module
    uses. *)

Definition code (c : ascii) : nat := nat_of_ascii c.

Definition between (lo hi : nat) (c : ascii) : bool :=
  ((lo <=? code c) && (code c <=? hi))%nat.

(** [[a-zA-Z]] and [[0-9]] of [segment_regex]. *)
Definition is_alpha (c : ascii) : bool := between 65 90 c || between 97 122 c.
Definition is_digit (c : ascii) : bool := between 48 57 c.

(** [VALID_VERSION = r'[A-Za-z0-9_\.\*\-]'] *)
Definition valid_char (c : ascii) : bool :=
  is_alpha c || is_digit c
  || Ascii.eqb c "_" || Ascii.eqb c "." || Ascii.eqb c "*" || Ascii.eqb c "-".

(** [re.match(VALID_VERSION, string)]: the pattern is one character class,
    matched at the start of the string. *)
Definition re_match_VALID_VERSION (s : string) : bool :=
  match s with
  | EmptyString => false
  | String c _ => valid_char c
  end.

(** [str.isspace] on code points below 256. *)
Definition is_space (c : ascii) : bool :=
  between 9 13 c || between 28 32 c
  || (code c =? 133)%nat || (code c =? 160)%nat.

Fixpoint lstrip (s : string) : string :=
  match s with
  | EmptyString => EmptyString
  | String c s' => if is_space c then lstrip s' else s
  end.

Fixpoint string_rev_append (s acc : string) : string :=
  match s with
  | EmptyString => acc
  | String c s' => string_rev_append s' (String c acc)
  end.

Definition string_rev (s : string) : string := string_rev_append s EmptyString.

(** [string.strip()] *)
Definition strip (s : string) : string :=
  string_rev (lstrip (string_rev (lstrip s))).

Fixpoint string_map (f : ascii -> ascii) (s : string) : string :=
  match s with
  | EmptyString => EmptyString
  | String c s' => String (f c) (string_map f s')
  end.

Fixpoint string_filter (f : ascii -> bool) (s : string) : string :=
  match s with
  | EmptyString => EmptyString
  | String c s' => if f c then String c (string_filter f s')
                   else string_filter f s'
  end.

(** [c in string] for a one-character [c]. *)
Fixpoint string_mem (c : ascii) (s : string) : bool :=
  match s with
  | EmptyString => false
  | String d s' => Ascii.eqb d c || string_mem c s'
  end.

(** [string.replace(old, new)] for one-character [old] and [new]. *)
Definition replace_char (old new : ascii) (s : string) : string :=
  string_map (fun c => if Ascii.eqb c old then new else c) s.

(** [string.replace(' ', '')] *)
Definition remove_spaces (s : string) : string :=
  string_filter (fun c => negb (Ascii.eqb c " ")) s.

(** [string.replace(old, '')] for a one-character [old]. *)
Definition remove_char (old : ascii) (s : string) : string :=
  string_filter (fun c => negb (Ascii.eqb c old)) s.

(** [''.join(pieces)] *)
Fixpoint concat_strings (pieces : list string) : string :=
  match pieces with
  | [] => EmptyString
  | p :: ps => String.append p (concat_strings ps)
  end.

(** [seq[start:stop]] for a slice without a step: a negative bound counts
    from the end, and both bounds are clipped to the sequence. *)
Definition slice_bound (dflt : nat) (len : nat) (b : option Z) : nat :=
  match b with
  | None => dflt
  | Some i =>
      if i <? 0 then Z.to_nat (Z.of_nat len + i)
      else Nat.min (Z.to_nat i) len
  end.

Definition slice {A : Type} (start stop : option Z) (l : list A) : list A :=
  let len := List.length l in
  skipn (slice_bound 0%nat len start) (firstn (slice_bound len len stop) l).

(** [string.split(sep)] for a one-character [sep]. *)
Fixpoint split_on (sep : ascii) (s : string) : list string :=
  match s with
  | EmptyString => [EmptyString]
  | String c s' =>
      if Ascii.eqb c sep then EmptyString :: split_on sep s'
      else match split_on sep s' with
           | p :: ps => String c p :: ps
           | [] => [String c EmptyString]
           end
  end.

Infix "+++" := String.append (right associativity, at level 60).

(** [sep.join(pieces)] *)
Fixpoint join (sep : string) (pieces : list string) : string :=
  match pieces with
  | [] => EmptyString
  | [p] => p
  | p :: ps => p +++ sep +++ join sep ps
  end.

(** [sep.startswith('.*')] *)
Definition startswith_dot_star (s : string) : bool :=
  match s with
  | String c (String d _) => Ascii.eqb c "." && Ascii.eqb d "*"
  | _ => false
  end.

(** [re.sub(r'^.\*', '', s)]: the unescaped [.] matches any character but a
    newline. *)
Definition re_sub_star (s : string) : string :=
  match s with
  | String c (String d rest) =>
      if negb (code c =? 10)%nat && Ascii.eqb d "*" then rest else s
  | _ => s
  end.

(** [template.format(arg)] for a template without replacement fields.
    Templates that contain a brace are outside the embedding; they are given
    [ValueError], which is what unbalanced braces raise. *)
Definition format_plain (s : string) : res string :=
  if string_mem "{" s || string_mem "}" s then Raise ValueError else Ok s.

(** ** Segments

    [Version.version] is a tuple whose items are Python [int]s or [str]s
    ([int_if_int]).  Python compares an [int] and a [str] as unequal. *)

Inductive seg : Type :=
| SInt (n : Z)
| SStr (s : string).

(** [a == b] for two items. *)
Definition seg_eqb (a b : seg) : bool :=
  match a, b with
  | SInt x, SInt y => x =? y
  | SStr x, SStr y => String.eqb x y
  | _, _ => false
  end.

Definition is_int (a : seg) : bool :=
  match a with
  | SInt _ => true
  | SStr _ => false
  end.

(** [str(k)] for an item of the tuple. *)
Definition str_of_int (n : Z) : string :=
  NilZero.string_of_int (Z.to_int n).

Definition seg_str (a : seg) : string :=
  match a with
  | SInt n => str_of_int n
  | SStr s => s
  end.

(** [infinity_versions = ['develop', 'main', 'master', 'head', 'trunk']] *)
Definition infinity_versions : list string :=
  ["develop"; "main"; "master"; "head"; "trunk"].

(** [a in infinity_versions] *)
Definition in_infinity (a : seg) : bool :=
  match a with
  | SInt _ => false
  | SStr s => existsb (String.eqb s) infinity_versions
  end.

(** [infinity_versions.index(a)], used only under [a in infinity_versions]. *)
Fixpoint list_index (s : string) (l : list string) : nat :=
  match l with
  | [] => 0
  | x :: l' => if String.eqb x s then 0 else S (list_index s l')
  end.

Definition infinity_index (a : seg) : nat :=
  match a with
  | SInt _ => 0
  | SStr s => list_index s infinity_versions
  end.

(** The decision [Version.__lt__] takes at the first pair [a != b] of the
    zipped tuples. *)
Definition seg_lt_first (a b : seg) : bool :=
  if in_infinity a then
    if in_infinity b then (infinity_index b <? infinity_index a)%nat
    else false
  else if in_infinity b then true
  else if negb (Bool.eqb (is_int a) (is_int b)) then is_int b
  else match a, b with
       | SInt x, SInt y => x <? y
       | SStr x, SStr y => String.ltb x y
       | _, _ => false
       end.

(** [==] on tuples of segments. *)
Fixpoint tuple_eqb (x y : list seg) : bool :=
  match x, y with
  | [], [] => true
  | a :: x', b :: y' => seg_eqb a b && tuple_eqb x' y'
  | _, _ => false
  end.

(** *** Tokens of [segment_regex = r'[a-zA-Z]+|[0-9]+'] *)

Inductive cclass : Type := CAlpha | CDigit | COther.

Definition classify (c : ascii) : cclass :=
  if is_alpha c then CAlpha else if is_digit c then CDigit else COther.

Definition cclass_eqb (a b : cclass) : bool :=
  match a, b with
  | CAlpha, CAlpha | CDigit, CDigit | COther, COther => true
  | _, _ => false
  end.

(** The maximal runs of characters of one class, left to right. *)
Fixpoint runs (s : string) : list (cclass * string) :=
  match s with
  | EmptyString => []
  | String c s' =>
      match runs s' with
      | (k, r) :: rest =>
          if cclass_eqb (classify c) k then (k, String c r) :: rest
          else (classify c, String c EmptyString) :: (k, r) :: rest
      | [] => [(classify c, String c EmptyString)]
      end
  end.

(** [int(seg)] on a run of decimal digits. *)
Definition digit_value (c : ascii) : Z := Z.of_nat (code c - 48).

Fixpoint int_of_digits (acc : Z) (s : string) : Z :=
  match s with
  | EmptyString => acc
  | String c s' => int_of_digits (10 * acc + digit_value c) s'
  end.

(** [tuple(int_if_int(seg) for seg in re.findall(segment_regex, string))] *)
Fixpoint findall_segments (rs : list (cclass * string)) : list seg :=
  match rs with
  | [] => []
  | (CAlpha, r) :: rest => SStr r :: findall_segments rest
  | (CDigit, r) :: rest => SInt (int_of_digits 0 r) :: findall_segments rest
  | (COther, _) :: rest => findall_segments rest
  end.

(** [tuple(re.split(segment_regex, string)[1:])]: the text after each match,
    up to the next match or the end of the string. *)
Fixpoint split_separators (rs : list (cclass * string)) : list string :=
  match rs with
  | [] => []
  | (COther, _) :: rest => split_separators rest
  | _ :: (COther, t) :: rest => t :: split_separators rest
  | _ :: rest => EmptyString :: split_separators rest
  end.

(** ** Version *)

Record Version : Type := mkVersion {
  string_ : string;
  version : list seg;
  separators : list string
}.

Module Version.

Definition __init__ (string : string) : res Version :=
  if negb (re_match_VALID_VERSION string) then Raise ValueError
  else
    let string := strip string in
    Ok {| string_ := string;
          version := findall_segments (runs string);
          separators := split_separators (runs string) |}.

(** [Version(self.string.replace('-', '.').replace('_', '.'))] *)
Definition dotted (self : Version) : res Version :=
  __init__ (replace_char "_" "." (replace_char "-" "." (string_ self))).

(** [__len__]; it is also the truth value of a [Version] object, which
    defines no [__bool__]. *)
Definition __len__ (self : Version) : nat := List.length (version self).

Definition truthy (self : Version) : bool := negb (__len__ self =? 0)%nat.

Definition __str__ (self : Version) : string := string_ self.

(** [self.string.format(format_spec)], called with the empty format
    specification by [str.format]. *)
Definition __format__ (self : Version) : res string :=
  format_plain (string_ self).

(** The [for a, b in zip(self.version, other.version)] loop of [__lt__];
    [dflt] is what is returned when the loop finishes. *)
Fixpoint lt_loop (pairs : list (seg * seg)) (dflt : bool) : bool :=
  match pairs with
  | [] => dflt
  | (a, b) :: rest =>
      if seg_eqb a b then lt_loop rest dflt else seg_lt_first a b
  end.

Definition __lt__ (self other : Version) : bool :=
  if tuple_eqb (version self) (version other) then false
  else lt_loop (combine (version self) (version other))
               (__len__ self <? __len__ other)%nat.

Definition __eq__ (self other : Version) : bool :=
  tuple_eqb (version self) (version other).

Definition __ne__ (self other : Version) : bool := negb (__eq__ self other).

Definition __le__ (self other : Version) : bool :=
  __eq__ self other || __lt__ self other.

Definition __ge__ (self other : Version) : bool := negb (__lt__ self other).

Definition __gt__ (self other : Version) : bool :=
  negb (__eq__ self other) && negb (__lt__ self other).

(** [nother <= nself and self.version[:nother] == other.version] *)
Definition satisfies (self other : Version) : bool :=
  (__len__ other <=? __len__ self)%nat
  && tuple_eqb (firstn (__len__ other) (version self)) (version other).

(** [other.version[:len(self.version)] == self.version] *)
Definition __contains__ (self other : Version) : bool :=
  tuple_eqb (firstn (__len__ self) (version other)) (version self).

(** [x[-1]] raises [IndexError] on an empty sequence. *)
Definition last_item (x : list seg) : res seg :=
  match rev x with
  | [] => Raise IndexError
  | a :: _ => Ok a
  end.

Definition is_predecessor (self other : Version) : res bool :=
  if negb (__len__ self =? __len__ other)%nat then Ok false
  else
    sl <- last_item (version self) ;;
    ol <- last_item (version other) ;;
    match sl, ol with
    | SInt s, SInt o => Ok (o - s =? 1)
    | _, _ => Ok false
    end.

Definition overlaps (self other : Version) : bool :=
  __contains__ other self || __contains__ self other.

(** [Version(self.string.replace('.', '_').replace('-', '_'))] *)
Definition underscored (self : Version) : res Version :=
  __init__ (replace_char "-" "_" (replace_char "." "_" (string_ self))).

(** [Version(self.string.replace('.', '-').replace('_', '-'))] *)
Definition dashed (self : Version) : res Version :=
  __init__ (replace_char "_" "-" (replace_char "." "-" (string_ self))).

(** [Version(self.string.replace('.', '').replace('-', '').replace('_', ''))] *)
Definition joined (self : Version) : res Version :=
  __init__ (remove_char "_" (remove_char "-" (remove_char "." (string_ self)))).

(** [__getitem__] with a slice [start:stop]: the loop appends [str(token)]
    and [str(sep)] for each pair of the zipped slices, [string_arg.pop()]
    drops the last separator and raises [IndexError] on an empty list. *)
Fixpoint string_arg_of (pairs : list (seg * string)) : list string :=
  match pairs with
  | [] => []
  | (token, sep) :: pairs' => seg_str token :: sep :: string_arg_of pairs'
  end.

Definition getitem_slice (self : Version) (start stop : option Z)
    : res Version :=
  let pairs := combine (slice start stop (version self))
                       (slice start stop (separators self)) in
  match rev (string_arg_of pairs) with
  | [] => Raise IndexError
  | _ :: front => __init__ (concat_strings (rev front))
  end.

(** [self[:index]] *)
Definition up_to (self : Version) (index : Z) : res Version :=
  getitem_slice self None (Some index).

(** The nested loops of [isdevelop]; an [int] item is [!=] to a [str]. *)
Definition isdevelop (self : Version) : bool :=
  existsb (fun inf => existsb (fun v => seg_eqb v (SStr inf)) (version self))
          infinity_versions.

Definition is_successor (self other : Version) : res bool :=
  is_predecessor other self.

End Version.

(** Comparisons of two optional versions, as Python evaluates them when one
    side may be [None]: [None == None], and [None] differs from every
    [Version]. *)
Definition opt_eq (a b : option Version) : bool :=
  match a, b with
  | None, None => true
  | Some x, Some y => Version.__eq__ x y
  | _, _ => false
  end.

(** [x in y] for two versions, which calls [y.__contains__(x)]. *)
Definition v_in (x y : Version) : bool := Version.__contains__ y x.

(** ** _VersionEndpoint *)

Inductive side : Type := Left | Right.

Definition side_eqb (a b : side) : bool :=
  match a, b with
  | Left, Left | Right, Right => true
  | _, _ => false
  end.

Record VersionEndpoint : Type := mkEndpoint {
  value : option Version;
  location : side;
  includes_endpoint : bool
}.

Module VersionEndpoint.

Definition __init__ (value : option Version) (location : side)
    (includes_endpoint : bool) : res VersionEndpoint :=
  _ <- assert (match value with
               | None => includes_endpoint
               | Some _ => true
               end) ;;
  Ok (mkEndpoint value location includes_endpoint).

(** The decorator [_endpoint_only]. *)
Definition _endpoint_only {A : Type}
    (fn : VersionEndpoint -> VersionEndpoint -> A)
    (self other : VersionEndpoint) : res A :=
  _ <- assert (side_eqb (location self) (location other)) ;;
  Ok (fn self other).

(** The bodies of [__eq__] and [__lt__], which the decorator wraps. *)
Definition eq_body (self other : VersionEndpoint) : bool :=
  opt_eq (value self) (value other)
  && side_eqb (location self) (location other)
  && Bool.eqb (includes_endpoint self) (includes_endpoint other).

Definition lt_body (s o : VersionEndpoint) : bool :=
  if opt_eq (value s) (value o) then
    if negb (Bool.eqb (includes_endpoint s) (includes_endpoint o))
    then includes_endpoint s
    else false
  else
    let infinite_left_wins :=
      match location s with Left => true | Right => false end in
    match value s, value o with
    | None, _ => infinite_left_wins
    | Some _, None => negb infinite_left_wins
    | Some sv, Some ov => Version.__lt__ sv ov
    end.

Definition __eq__ := _endpoint_only eq_body.
Definition __lt__ := _endpoint_only lt_body.
Definition __ne__ := _endpoint_only (fun s o => negb (eq_body s o)).
Definition __le__ := _endpoint_only (fun s o => eq_body s o || lt_body s o).
Definition __ge__ := _endpoint_only (fun s o => negb (lt_body s o)).
Definition __gt__ :=
  _endpoint_only (fun s o => negb (eq_body s o) && negb (lt_body s o)).

End VersionEndpoint.

(** ** VersionRange *)

Record VersionRange : Type := mkRange {
  start : option Version;
  end_ : option Version;
  includes_left_endpoint : bool;
  includes_right_endpoint : bool
}.

(** An element of [VersionList.versions]. *)
Inductive elem : Type :=
| EV (v : Version)
| ER (r : VersionRange).

(** What [union] returns: one [Version] or [VersionRange], or
    [VersionList([self, other])], which [VersionList.of_union] below
    builds. *)
Inductive union_result : Type :=
| USingle (e : elem)
| UPair (self other : elem).

(** What [intersection] returns: one [Version] or [VersionRange], or the
    empty [VersionList()]. *)
Inductive intersection_result : Type :=
| ISingle (e : elem)
| IEmpty.

Module VersionRange.

(** [start and end and end < start]: the operands are tested for their
    truth value, which for a [Version] is [len(version) != 0].

    The [raise] statement formats its message with [% self], which calls
    [__str__] before [includes_left_endpoint] is assigned, so what
    propagates is an [AttributeError]. *)
Definition __init__ (start end_ : option Version)
    (includes_left_endpoint includes_right_endpoint : bool)
    : res VersionRange :=
  let invalid :=
    match start, end_ with
    | Some s, Some e =>
        Version.truthy s && Version.truthy e && Version.__lt__ e s
    | _, _ => false
    end in
  if invalid then Raise AttributeError
  else
    _ <- assert (match start with
                 | None => includes_left_endpoint | Some _ => true end) ;;
    _ <- assert (match end_ with
                 | None => includes_right_endpoint | Some _ => true end) ;;
    Ok (mkRange start end_ includes_left_endpoint includes_right_endpoint).

(** [VersionRange(start, end)] with the default flags. *)
Definition make (start end_ : option Version) : res VersionRange :=
  __init__ start end_ true true.

(** [VersionRange(b, b)] of [coerce_versions]: no check of [__init__] can
    fail on it. *)
Definition of_version (b : Version) : VersionRange :=
  mkRange (Some b) (Some b) true true.

Definition lowest (self : VersionRange) : option Version := start self.
Definition highest (self : VersionRange) : option Version := end_ self.

(** The assertion of [_VersionEndpoint.__init__] holds for every range
    [__init__] returns. *)
Definition _low_endpoint (self : VersionRange) : VersionEndpoint :=
  mkEndpoint (lowest self) Left (includes_left_endpoint self).

Definition _high_endpoint (self : VersionRange) : VersionEndpoint :=
  mkEndpoint (highest self) Right (includes_right_endpoint self).

(** Both comparisons are between endpoints of one side, so the assertion
    of [_endpoint_only] holds and the bodies are called. *)
Definition __lt__ (s o : VersionRange) : bool :=
  if VersionEndpoint.lt_body (_low_endpoint s) (_low_endpoint o) then true
  else VersionEndpoint.lt_body (_high_endpoint s) (_high_endpoint o).

Definition __eq__ (self other : VersionRange) : bool :=
  opt_eq (start self) (start other) && opt_eq (end_ self) (end_ other)
  && Bool.eqb (includes_left_endpoint self) (includes_left_endpoint other)
  && Bool.eqb (includes_right_endpoint self) (includes_right_endpoint other).

Definition concrete (self : VersionRange) : res (option Version) :=
  if negb (opt_eq (start self) (end_ self)) then Ok None
  else
    match start self with
    | None => Ok None
    | Some v =>
        if includes_left_endpoint self || includes_right_endpoint self then
          _ <- assert (Bool.eqb (includes_left_endpoint self)
                                (includes_right_endpoint self)) ;;
          Ok (Some v)
        else Ok None
    end.

(** Python parses [A and not B or C] as [(A and (not B)) or C]. *)
Definition __contains__ (self other : VersionRange) : bool :=
  let in_lower :=
    ((opt_eq (start self) (start other)
      && negb (includes_left_endpoint self))
     || includes_left_endpoint other)
    || match start self with
       | None => true
       | Some ss =>
           match start other with
           | None => false
           | Some os => Version.__lt__ ss os || v_in os ss
           end
       end in
  if negb in_lower then false
  else
    ((opt_eq (end_ self) (end_ other)
      && negb (includes_right_endpoint self))
     || includes_right_endpoint other)
    || match end_ self with
       | None => true
       | Some se =>
           match end_ other with
           | None => false
           | Some oe => Version.__gt__ se oe || v_in oe se
           end
       end.

Definition overlaps (self other : VersionRange) : bool :=
  match start self, end_ other with
  | Some ss, Some oe =>
      Version.__le__ ss oe || v_in oe ss || v_in ss oe
  | _, _ => true
  end
  &&
  match start other, end_ self with
  | Some os, Some se =>
      Version.__le__ os se || v_in os se || v_in se os
  | _, _ => true
  end.

(** [self.overlaps(other) or self.start and other.end and
    self.start.satisfies(other.end)]; the result is used as a truth value. *)
Definition satisfies (self other : VersionRange) : bool :=
  overlaps self other
  || match start self, end_ other with
     | Some ss, Some oe =>
         Version.truthy ss && Version.truthy oe && Version.satisfies ss oe
     | _, _ => false
     end.

(** [x is not None and y is not None and x.is_predecessor(y)] *)
Definition opt_is_predecessor (x y : option Version) : res bool :=
  match x, y with
  | Some a, Some b => Version.is_predecessor a b
  | _, _ => Ok false
  end.

Definition union (self other : VersionRange) : res union_result :=
  if negb (overlaps self other) then
    p1 <- opt_is_predecessor (end_ self) (start other) ;;
    if p1 then
      r <- make (start self) (end_ other) ;; Ok (USingle (ER r))
    else
      p2 <- opt_is_predecessor (end_ other) (start self) ;;
      if p2 then
        r <- make (start other) (end_ self) ;; Ok (USingle (ER r))
      else Ok (UPair (ER self) (ER other))
  else
    let start' :=
      match start self, start other with
      | Some ss, Some os =>
          if v_in ss os || Version.__lt__ os ss then Some os else Some ss
      | _, _ => None
      end in
    let end' :=
      match end_ self, end_ other with
      | Some se, Some oe =>
          if negb (v_in oe se) then
            if v_in se oe || Version.__gt__ oe se then Some oe else Some se
          else Some se
      | _, _ => None
      end in
    r <- make start' end' ;; Ok (USingle (ER r)).

(** [intersection]: [other.start in start] calls
    [start.__contains__(other.start)], and [end not in other.end] is
    [not other.end.__contains__(end)]. *)
Definition intersection (self other : VersionRange)
    : res intersection_result :=
  if overlaps self other then
    let start' :=
      match start self with
      | None => start other
      | Some ss =>
          match start other with
          | Some os =>
              if Version.__gt__ os ss || v_in os ss then Some os else Some ss
          | None => Some ss
          end
      end in
    let end' :=
      match end_ self with
      | None => end_ other
      | Some se =>
          match end_ other with
          | Some oe =>
              if negb (v_in se oe) then
                if Version.__lt__ oe se || v_in oe se then Some oe
                else Some se
              else Some se
          | None => Some se
          end
      end in
    r <- make start' end' ;; Ok (ISingle (ER r))
  else Ok IEmpty.

(** [__str__]; each [{0}] and [{1}] is filled by [Version.__format__]. *)
Definition __str__ (self : VersionRange) : res string :=
  if opt_eq (start self) (end_ self) then
    match start self with
    | None => Ok ":"
    | Some s =>
        _ <- assert (Bool.eqb (includes_left_endpoint self)
                              (includes_right_endpoint self)) ;;
        if includes_left_endpoint self then
          _ <- assert (includes_right_endpoint self) ;;
          Ok (Version.__str__ s)
        else
          t <- Version.__format__ s ;; Ok (":!" +++ t +++ "!:")
    end
  else
    match start self, end_ self with
    | None, None => Raise AssertionError
    | None, Some e =>
        _ <- assert (includes_left_endpoint self) ;;
        t <- Version.__format__ e ;;
        if includes_right_endpoint self then Ok (":" +++ t)
        else Ok (":!" +++ t)
    | Some s, None =>
        _ <- assert (includes_right_endpoint self) ;;
        t <- Version.__format__ s ;;
        if includes_left_endpoint self then Ok (t +++ ":")
        else Ok (t +++ "!:")
    | Some s, Some e =>
        if negb (includes_left_endpoint self)
           && negb (includes_right_endpoint self) then
          a <- Version.__format__ s ;; b <- Version.__format__ e ;;
          Ok (a +++ "!:!" +++ b)
        else if negb (includes_right_endpoint self) then
          a <- Version.__format__ s ;; b <- Version.__format__ e ;;
          Ok (a +++ ":!" +++ b)
        else if negb (includes_left_endpoint self) then
          a <- Version.__format__ s ;; b <- Version.__format__ e ;;
          Ok (a +++ "!:" +++ b)
        else
          a <- Version.__format__ s ;; b <- Version.__format__ e ;;
          Ok (a +++ ":" +++ b)
    end.

(** [has_star_component(obj)] for [obj] that is [None] or a [Version]. *)
Definition has_star_component (obj : option Version) : res bool :=
  match obj with
  | None => Ok false
  | Some v =>
      if negb (Version.truthy v) then Ok false
      else d <- Version.dotted v ;;
           Ok (existsb startswith_dot_star (separators d))
  end.

(** [''.join(str(k) + str(v) for k, v in zip(ends, fixed_seps))] *)
Fixpoint zip_join (ends : list seg) (seps : list string) : string :=
  match ends, seps with
  | k :: ends', v :: seps' => seg_str k +++ v +++ zip_join ends' seps'
  | _, _ => EmptyString
  end.

(** [high_end[-1] += 1] *)
Definition incr_last (high_end : list seg) : res (list seg) :=
  match rev high_end with
  | [] => Raise IndexError
  | SInt n :: front => Ok (rev (SInt (n + 1) :: front))
  | SStr _ :: _ => Raise TypeError
  end.

(** What [check_for_star_components] returns: a range, or the list of the
    two ranges around an excluded starred version. *)
Inductive star_result : Type :=
| SRange (r : VersionRange)
| SList (low_side high_side : VersionRange).

Definition check_for_star_components (start end_ : option Version)
    (includes_left_endpoint includes_right_endpoint : bool)
    : res star_result :=
  would_be_range <-
    __init__ start end_ includes_left_endpoint includes_right_endpoint ;;
  s_star <- has_star_component start ;;
  e_star <- has_star_component end_ ;;
  let any_dotted_versions :=
    (if s_star then [start] else []) ++ (if e_star then [end_] else []) in
  if negb (opt_eq start end_) then
    match any_dotted_versions with
    | _ :: _ =>
        description <- __str__ would_be_range ;;
        Raise ValueError
    | [] => Ok (SRange would_be_range)
    end
  else
    _ <- assert (Bool.eqb includes_left_endpoint includes_right_endpoint) ;;
    match any_dotted_versions with
    | [] => Ok (SRange would_be_range)
    | _ :: _ =>
        match start with
        | None => Raise AssertionError
        | Some sv =>
            let version_components := version sv in
            last <- Version.last_item version_components ;;
            let '(suffix, low_end) :=
              if negb (is_int last)
              then (seg_str last, removelast version_components)
              else (EmptyString, version_components) in
            high_end <- incr_last low_end ;;
            let fixed_seps := map re_sub_star (separators sv) in
            low_ver <- Version.__init__ (zip_join low_end fixed_seps +++ suffix) ;;
            high_ver <- Version.__init__ (zip_join high_end fixed_seps +++ suffix) ;;
            if negb includes_left_endpoint then
              _ <- assert (negb includes_right_endpoint) ;;
              low_side <- __init__ None (Some low_ver) true false ;;
              high_side <- __init__ (Some high_ver) None true true ;;
              Ok (SList low_side high_side)
            else
              r <- __init__ (Some low_ver) (Some high_ver) true false ;;
              Ok (SRange r)
        end
    end.

End VersionRange.

(** ** Coercion

    [coerce_versions] on a [Version] and a [VersionRange]: the version [b]
    becomes [VersionRange(b, b)].  The decorator [coerced] calls the method
    itself when both arguments have one type, and the method of the greater
    type on the coerced pair otherwise. *)

Definition as_range (a : elem) : VersionRange :=
  match a with
  | EV v => VersionRange.of_version v
  | ER r => r
  end.

Definition coerced {A : Type} (version_method : Version -> Version -> A)
    (range_method : VersionRange -> VersionRange -> A) (a b : elem) : A :=
  match a, b with
  | EV x, EV y => version_method x y
  | _, _ => range_method (as_range a) (as_range b)
  end.

Module Elem.

Definition __lt__ : elem -> elem -> bool :=
  coerced Version.__lt__ VersionRange.__lt__.

(** [Version.__eq__] tests [type(other) == Version], [VersionRange.__eq__]
    tests [type(other) == VersionRange]; both hold after coercion. *)
Definition __eq__ : elem -> elem -> bool :=
  coerced Version.__eq__ VersionRange.__eq__.

Definition __contains__ : elem -> elem -> bool :=
  coerced Version.__contains__ VersionRange.__contains__.

(** [Version.satisfies] returns a [bool]. *)
Definition satisfies : elem -> elem -> bool :=
  coerced Version.satisfies VersionRange.satisfies.

Definition overlaps : elem -> elem -> bool :=
  coerced Version.overlaps VersionRange.overlaps.

(** [Version.union] *)
Definition version_union (self other : Version) : res union_result :=
  if Version.__eq__ self other || v_in other self then Ok (USingle (EV self))
  else if v_in self other then Ok (USingle (EV other))
  else Ok (UPair (EV self) (EV other)).

Definition union : elem -> elem -> res union_result :=
  coerced version_union VersionRange.union.

(** [Version.intersection] *)
Definition version_intersection (self other : Version)
    : res intersection_result :=
  if Version.__eq__ self other then Ok (ISingle (EV self)) else Ok IEmpty.

Definition intersection : elem -> elem -> res intersection_result :=
  coerced version_intersection VersionRange.intersection.

(** The truth value of an element: a [Version] has [__len__], a
    [VersionRange] has neither [__len__] nor [__bool__]. *)
Definition truthy (self : elem) : bool :=
  match self with
  | EV v => Version.truthy v
  | ER _ => true
  end.

(** The property [concrete]. *)
Definition concrete (self : elem) : res (option Version) :=
  match self with
  | EV v => Ok (Some v)
  | ER r => VersionRange.concrete r
  end.

Definition lowest (self : elem) : option Version :=
  match self with
  | EV v => Some v
  | ER r => VersionRange.lowest r
  end.

Definition highest (self : elem) : option Version :=
  match self with
  | EV v => Some v
  | ER r => VersionRange.highest r
  end.

Definition __str__ (self : elem) : res string :=
  match self with
  | EV v => Ok (Version.__str__ v)
  | ER r => VersionRange.__str__ r
  end.

End Elem.

(** ** VersionList

    [self.versions] is a Python list of [Version] and [VersionRange]
    objects. *)

Inductive version_obj : Type :=
| OVersion (v : Version)
| ORange (r : VersionRange)
| OList (versions : list elem).

Definition obj_of_elem (e : elem) : version_obj :=
  match e with
  | EV v => OVersion v
  | ER r => ORange r
  end.

Module VersionList.

(** [bisect.bisect_left(a, x)]: [lt_x am] is [am < x].  The loop runs at
    most [len(a)] times, which is the fuel it is given. *)
Fixpoint bisect_loop (fuel : nat) (lt_x : elem -> bool) (a : list elem)
    (lo hi : nat) : nat :=
  match fuel with
  | O => lo
  | S fuel' =>
      if (lo <? hi)%nat then
        let mid := ((lo + hi) / 2)%nat in
        match nth_error a mid with
        | Some am =>
            if lt_x am then bisect_loop fuel' lt_x a (mid + 1)%nat hi
            else bisect_loop fuel' lt_x a lo mid
        | None => lo
        end
      else lo
  end.

Definition bisect_left (a : list elem) (x : elem) : nat :=
  bisect_loop (List.length a) (fun am => Elem.__lt__ am x) a 0%nat
    (List.length a).

(** [if version.concrete: version = version.concrete] *)
Definition normalize (version : elem) : res elem :=
  c <- Elem.concrete version ;;
  match c with
  | Some v => if Version.truthy v then Ok (EV v) else Ok version
  | None => Ok version
  end.

(** One of the two [while] loops of [add], run over the elements it visits
    in the order it visits them: [while ... version.overlaps(x): version =
    version.union(x); del x].  It returns the merged version and the
    elements left.  [union] is only called on overlapping elements, where it
    returns a single version or range (lemma [elem_union_never_pair]);
    a list there is given [TypeError]. *)
Fixpoint merge_loop (version : elem) (xs : list elem)
    : res (elem * list elem) :=
  match xs with
  | [] => Ok (version, [])
  | x :: xs' =>
      if Elem.overlaps version x then
        u <- Elem.union version x ;;
        match u with
        | USingle version' => merge_loop version' xs'
        | UPair _ _ => Raise TypeError
        end
      else Ok (version, xs)
  end.

(** [add] for a [Version] or a [VersionRange].  The first loop visits
    [self[i-1], self[i-2], ...], the second [self[i], self[i+1], ...];
    the merged version is inserted between what the two loops leave. *)
Definition add_elem (self : list elem) (version : elem) : res (list elem) :=
  version <- normalize version ;;
  let i := bisect_left self version in
  ' (version, before) <- merge_loop version (rev (firstn i self)) ;;
  ' (version, after) <- merge_loop version (skipn i self) ;;
  Ok (rev before ++ version :: after).

Fixpoint add_all (self : list elem) (vs : list elem) : res (list elem) :=
  match vs with
  | [] => Ok self
  | v :: vs' => self' <- add_elem self v ;; add_all self' vs'
  end.

Definition add (self : list elem) (version : version_obj)
    : res (list elem) :=
  match version with
  | OVersion v => add_elem self (EV v)
  | ORange r => add_elem self (ER r)
  | OList vs => add_all self vs
  end.

(** [VersionList([low_side, high_side])] of [check_for_star_components];
    [ver] returns a range as it is. *)
Definition of_star (r : VersionRange.star_result) : res version_obj :=
  match r with
  | VersionRange.SRange r => Ok (ORange r)
  | VersionRange.SList low_side high_side =>
      l <- add_elem [] (ER low_side) ;;
      l <- add_elem l (ER high_side) ;;
      Ok (OList l)
  end.

(** [ver(obj)] for [obj] a [Version], [VersionRange] or [VersionList]. *)
Definition ver_typed (obj : version_obj) : res version_obj :=
  match obj with
  | OVersion v =>
      star <- VersionRange.has_star_component (Some v) ;;
      if star then
        r <- VersionRange.check_for_star_components (Some v) (Some v)
               true true ;;
        of_star r
      else Ok obj
  | _ => Ok obj
  end.

(** [VersionList(vlist)] for a list of typed values:
    [for v in vlist: self.add(ver(v))]. *)
Fixpoint init_loop (self : list elem) (vlist : list version_obj)
    : res (list elem) :=
  match vlist with
  | [] => Ok self
  | v :: vlist' =>
      o <- ver_typed v ;;
      self' <- add self o ;;
      init_loop self' vlist'
  end.

Definition __init__ (vlist : list version_obj) : res (list elem) :=
  init_loop [] vlist.

(** The value a [union] returns, with [VersionList([self, other])] built. *)
Definition of_union (u : union_result) : res version_obj :=
  match u with
  | USingle e => Ok (obj_of_elem e)
  | UPair a b => l <- __init__ [obj_of_elem a; obj_of_elem b] ;; Ok (OList l)
  end.

Definition __len__ (self : list elem) : nat := List.length self.

(** [__bool__] *)
Definition truthy (self : list elem) : bool :=
  match self with
  | [] => false
  | _ :: _ => true
  end.

Definition lowest (self : list elem) : option Version :=
  if negb (truthy self) then None
  else match self with
       | x :: _ => Elem.lowest x
       | [] => None
       end.

Definition highest (self : list elem) : option Version :=
  if negb (truthy self) then None
  else match rev self with
       | x :: _ => Elem.highest x
       | [] => None
       end.

(** The sweep of [overlaps] and [satisfies]: [s] and [o] index the heads of
    the two lists; [test] is [overlaps] or [satisfies] on elements. *)
Fixpoint sweep (test : elem -> elem -> bool) (ss os : list elem) : bool :=
  match ss with
  | [] => false
  | s :: ss' =>
      (fix inner (os : list elem) : bool :=
         match os with
         | [] => false
         | o :: os' =>
             if test s o then true
             else if Elem.__lt__ s o then sweep test ss' os
             else inner os'
         end) os
  end.

Definition overlaps (self other : list elem) : bool :=
  if negb (truthy other) || negb (truthy self) then false
  else sweep Elem.overlaps self other.

(** [self.versions == other.versions] *)
Fixpoint __eq__ (self other : list elem) : bool :=
  match self, other with
  | [], [] => true
  | a :: self', b :: other' => Elem.__eq__ a b && __eq__ self' other'
  | _, _ => false
  end.

(** [self.versions < other.versions]: Python compares lists at the first
    index where the items are not [==]. *)
Fixpoint __lt__ (self other : list elem) : bool :=
  match self, other with
  | [], [] => false
  | [], _ :: _ => true
  | _ :: _, [] => false
  | a :: self', b :: other' =>
      if Elem.__eq__ a b then __lt__ self' other' else Elem.__lt__ a b
  end.

(** [coerce_versions] towards [VersionList]: [VersionList([b])]. *)
Definition coerce (b : version_obj) : res (list elem) :=
  match b with
  | OList l => Ok l
  | _ => __init__ [b]
  end.

(** [bisect_left(self, other)] with a list [other]: each comparison
    [self[mid] < other] coerces [self[mid]] to [VersionList([self[mid]])]. *)
Fixpoint bisect_loop_list (fuel : nat) (other : list elem) (a : list elem)
    (lo hi : nat) : res nat :=
  match fuel with
  | O => Ok lo
  | S fuel' =>
      if (lo <? hi)%nat then
        let mid := ((lo + hi) / 2)%nat in
        match nth_error a mid with
        | Some am =>
            l <- coerce (obj_of_elem am) ;;
            if __lt__ l other
            then bisect_loop_list fuel' other a (mid + 1)%nat hi
            else bisect_loop_list fuel' other a lo mid
        | None => Ok lo
        end
      else Ok lo
  end.

Definition bisect_left_list (self other : list elem) : res nat :=
  bisect_loop_list (List.length self) other self 0%nat (List.length self).

(** [version in v] for elements, which calls [v.__contains__(version)]. *)
Definition e_in (version v : elem) : bool := Elem.__contains__ v version.

(** The [for version in other] loop of [__contains__]. *)
Fixpoint contains_loop (self other : list elem) (rest : list elem)
    : res bool :=
  match rest with
  | [] => Ok true
  | version :: rest' =>
      i <- bisect_left_list self other ;;
      if (i =? 0)%nat then
        match self with
        | self0 :: _ =>
            if negb (e_in version self0) then Ok false
            else contains_loop self other rest'
        | [] => Raise IndexError
        end
      else if forallb (fun v => negb (e_in version v))
                      (skipn (i - 1) self)
      then Ok false
      else contains_loop self other rest'
  end.

Definition __contains__ (self other : list elem) : res bool :=
  if (__len__ self =? 0)%nat then Ok false
  else contains_loop self other other.

Definition satisfies (self other : list elem) (strict : bool) : res bool :=
  if negb (truthy other) || negb (truthy self) then Ok false
  else if strict then __contains__ other self
  else Ok (sweep Elem.satisfies self other).

(** The methods as [coerced] calls them with an argument of any type, or
    [None]. *)
Definition overlaps_any (self : list elem) (other : option version_obj)
    : res bool :=
  match other with
  | None => Ok false
  | Some b => l <- coerce b ;; Ok (overlaps self l)
  end.

Definition satisfies_any (self : list elem) (other : option version_obj)
    (strict : bool) : res bool :=
  match other with
  | None => Ok false
  | Some b => l <- coerce b ;; satisfies self l strict
  end.

(** With [other = None] and a non-empty [self], [for version in other]
    raises [TypeError]. *)
Definition contains_any (self : list elem) (other : option version_obj)
    : res bool :=
  match other with
  | None => if (__len__ self =? 0)%nat then Ok false else Raise TypeError
  | Some b => l <- coerce b ;; __contains__ self l
  end.

(** [",".join(str(v) for v in self.versions)] *)
Fixpoint strs (vs : list elem) : res (list string) :=
  match vs with
  | [] => Ok []
  | v :: vs' => s <- Elem.__str__ v ;; ss <- strs vs' ;; Ok (s :: ss)
  end.

Definition __str__ (self : list elem) : res string :=
  ss <- strs self ;; Ok (join "," ss).

(** The property [concrete]. *)
Definition concrete (self : list elem) : res (option Version) :=
  match self with
  | [x] => Elem.concrete x
  | _ => Ok None
  end.

(** [copy]: [VersionList(self)] iterates over the elements and adds
    [ver(v)] for each. *)
Definition copy (self : list elem) : res (list elem) :=
  __init__ (map obj_of_elem self).

(** [update], after [coerced] has made [other] a list. *)
Definition update (self other : list elem) : res (list elem) :=
  add_all self other.

Definition union (self other : list elem) : res (list elem) :=
  result <- copy self ;;
  update result other.

(** What [s.intersection(o)] returns, as [add] receives it. *)
Definition obj_of_intersection (x : intersection_result) : version_obj :=
  match x with
  | ISingle e => obj_of_elem e
  | IEmpty => OList []
  end.

(** The loop [for o in other: result.add(s.intersection(o))]. *)
Fixpoint intersection_inner (result : list elem) (s : elem)
    (other : list elem) : res (list elem) :=
  match other with
  | [] => Ok result
  | o :: other' =>
      x <- Elem.intersection s o ;;
      result' <- add result (obj_of_intersection x) ;;
      intersection_inner result' s other'
  end.

Fixpoint intersection_outer (result : list elem) (self other : list elem)
    : res (list elem) :=
  match self with
  | [] => Ok result
  | s :: self' =>
      result' <- intersection_inner result s other ;;
      intersection_outer result' self' other
  end.

Definition intersection (self other : list elem) : res (list elem) :=
  intersection_outer [] self other.

(** [intersect] returns [changed]; the list it leaves in [self] is the
    first component. *)
Definition intersect (self other : list elem) : res (list elem * bool) :=
  isection <- intersection self other ;;
  Ok (isection, negb (__eq__ isection self)).




End VersionList.

(** ** The parser *)

(** [Version(s) if s else None] *)
Definition version_if (s : string) : res (option Version) :=
  match s with
  | EmptyString => Ok None
  | _ => v <- Version.__init__ s ;; Ok (Some v)
  end.

(** The branches of [_string_to_version] for a string without [','];
    [s, e = string.split(':')] raises [ValueError] unless the split has two
    items. *)
Definition string_to_version_single (string : string) : res version_obj :=
  if string_mem ":" string then
    match split_on ":" string with
    | [s; e] =>
        start <- version_if s ;;
        end_ <- version_if e ;;
        r <- VersionRange.make start end_ ;;
        Ok (ORange r)
    | _ => Raise ValueError
    end
  else
    v <- Version.__init__ string ;; Ok (OVersion v).

(** [ver(v)] for an item [v] of [string.split(',')]: it holds no [','],
    so [_string_to_version(v)] takes one of the branches above. *)
Definition ver_piece (v : string) : res version_obj :=
  o <- string_to_version_single (remove_spaces v) ;;
  VersionList.ver_typed o.

(** [VersionList(string.split(','))] *)
Fixpoint init_strings (self : list elem) (vlist : list string)
    : res (list elem) :=
  match vlist with
  | [] => Ok self
  | v :: vlist' =>
      o <- ver_piece v ;;
      self' <- VersionList.add self o ;;
      init_strings self' vlist'
  end.

Definition _string_to_version (string : string) : res version_obj :=
  let string := remove_spaces string in
  if string_mem "," string then
    l <- init_strings [] (split_on "," string) ;; Ok (OList l)
  else string_to_version_single string.

(** [ver(obj)] for a string [obj]. *)
Definition ver (obj : string) : res version_obj :=
  o <- _string_to_version obj ;;
  VersionList.ver_typed o.

(** ** Serialization

    The values of the dictionary [to_dict] builds and [from_dict] reads are
    strings and lists of strings; a dictionary is embedded as its lookup
    function. *)

Inductive yaml_value : Type :=
| YStr (s : string)
| YList (l : list string).

Definition syaml_dict : Type := string -> option yaml_value.

(** [syaml_dict([(key, value)])] *)
Definition singleton_dict (key : string) (value : yaml_value) : syaml_dict :=
  fun k => if String.eqb k key then Some value else None.

(** [VersionList(vlist)] for a list of strings:
    [for v in vlist: self.add(ver(v))]. *)
Fixpoint init_of_strings (self : list elem) (vlist : list string)
    : res (list elem) :=
  match vlist with
  | [] => Ok self
  | v :: vlist' =>
      o <- ver v ;;
      self' <- VersionList.add self o ;;
      init_of_strings self' vlist'
  end.

(** [VersionList(vlist)] for a string: the value of [_string_to_version]
    is stored as it is. *)
Definition init_of_string (vlist : string) : res (list elem) :=
  o <- _string_to_version vlist ;;
  match o with
  | OList l => Ok l
  | OVersion v => Ok [EV v]
  | ORange r => Ok [ER r]
  end.

(** [ver(obj)] for a value of the dictionary: a list becomes
    [VersionList(obj)]. *)
Definition ver_yaml (obj : yaml_value) : res version_obj :=
  match obj with
  | YStr s => ver s
  | YList l => l' <- init_of_strings [] l ;; Ok (OList l')
  end.

(** [VersionList(x)] for a value of the dictionary. *)
Definition init_of_yaml (x : yaml_value) : res (list elem) :=
  match x with
  | YStr s => init_of_string s
  | YList l => init_of_strings [] l
  end.

Definition to_dict (self : list elem) : res syaml_dict :=
  c <- VersionList.concrete self ;;
  let c_true := match c with Some v => Version.truthy v | None => false end in
  if c_true then
    match self with
    | x :: _ => s <- Elem.__str__ x ;; Ok (singleton_dict "version" (YStr s))
    | [] => Raise IndexError
    end
  else
    ss <- VersionList.strs self ;;
    Ok (singleton_dict "versions" (YList ss)).

Definition from_dict (dictionary : syaml_dict) : res (list elem) :=
  match dictionary "versions" with
  | Some x => init_of_yaml x
  | None =>
      match dictionary "version" with
      | Some x => o <- ver_yaml x ;; VersionList.add [] o
      | None => Raise ValueError
      end
  end.

(** [str(obj)] *)
Definition obj_str (obj : version_obj) : res string :=
  match obj with
  | OVersion v => Ok (Version.__str__ v)
  | ORange r => VersionRange.__str__ r
  | OList l => VersionList.__str__ l
  end.

(** [a == b] for two values of any of the three types, through
    [coerced]. *)
Definition obj_eq (a b : version_obj) : res bool :=
  match a, b with
  | OList x, _ => y <- VersionList.coerce b ;; Ok (VersionList.__eq__ x y)
  | _, OList y => x <- VersionList.coerce a ;; Ok (VersionList.__eq__ x y)
  | OVersion x, OVersion y => Ok (Version.__eq__ x y)
  | OVersion x, ORange y => Ok (VersionRange.__eq__ (VersionRange.of_version x) y)
  | ORange x, OVersion y => Ok (VersionRange.__eq__ x (VersionRange.of_version y))
  | ORange x, ORange y => Ok (VersionRange.__eq__ x y)
  end.

(** The union of two ranges as the caller receives it. *)
Definition range_union (self other : VersionRange) : res version_obj :=
  u <- VersionRange.union self other ;; VersionList.of_union u.

(** ** Relations on segment tuples used in the statements

    [segs_lt] is the recursion that [Version.__lt__] unfolds to, and
    [is_prefix p x] is the test [x[:len(p)] == p] of [Version.__contains__]
    and [Version.satisfies]. *)

Fixpoint segs_lt (x y : list seg) : bool :=
  match x, y with
  | [], [] => false
  | [], _ :: _ => true
  | _ :: _, [] => false
  | a :: x', b :: y' => if seg_eqb a b then segs_lt x' y' else seg_lt_first a b
  end.

Fixpoint is_prefix (p x : list seg) : bool :=
  match p, x with
  | [], _ => true
  | a :: p', b :: x' => seg_eqb a b && is_prefix p' x'
  | _ :: _, [] => false
  end.

(** [x] lies strictly below [y] and [y] is not an extension of [x]. *)
Definition segs_before (x y : list seg) : bool :=
  segs_lt x y && negb (is_prefix x y).

(** Exactly one of three booleans holds. *)
Definition exactly_one (a b c : bool) : Prop :=
  (a = true /\ b = false /\ c = false)
  \/ (a = false /\ b = true /\ c = false)
  \/ (a = false /\ b = false /\ c = true).

(** Every character of [s] is in [VALID_VERSION]. *)
Fixpoint all_valid (s : string) : bool :=
  match s with
  | EmptyString => true
  | String c s' => valid_char c && all_valid s'
  end.

(** ** Values used in examples *)

(** The version [Version(s)] constructs from a string it accepts. *)
Definition parsed (s : string) : Version :=
  match Version.__init__ s with
  | Ok v => v
  | Raise _ => mkVersion EmptyString [] []
  end.

(** [VersionRange(Version(s), Version(e))] *)
Definition range_of (s e : string) : VersionRange :=
  mkRange (Some (parsed s)) (Some (parsed e)) true true.

(** A finite endpoint has at least one segment: the invariant of the data
    model under which the truth value of an endpoint tells whether it is
    [None]. *)
Definition nonempty_endpoint (o : option Version) : Prop :=
  match o with
  | Some v => version v <> []
  | None => True
  end.

(** ** Statements about lists *)

(** Every element of [B] is contained in some element of [A]. *)
Definition every_element_contained (A B : list elem) : Prop :=
  forall x, In x B -> exists y, In y A /\ VersionList.e_in x y = true.

(** C9 as it is stated: [B in A] iff every element of [B] is contained in
    some element of [A]. *)
Definition contains_iff_elementwise (A B : list elem) : Prop :=
  VersionList.__contains__ A B = Ok true <-> every_element_contained A B.

(** ** Statements about ranges and canonical lists *)

(** [hi], a high endpoint, lies strictly below the low endpoint [lo] and
    [lo] is not an extension of [hi]; an open end is never before. *)
Definition obefore (hi lo : option Version) : bool :=
  match hi, lo with
  | Some h, Some l => segs_before (version h) (version l)
  | _, _ => false
  end.

(** The element [a] lies entirely before the element [b]. *)
Definition ebefore (a b : elem) : bool :=
  obefore (Elem.highest a) (Elem.lowest b).

(** The invariant of the data model: [start <= end] when both are
    finite. *)
Definition range_valid (r : VersionRange) : Prop :=
  match start r, end_ r with
  | Some s, Some e => Version.__lt__ e s = false
  | _, _ => True
  end.

(** What [concrete] and [__str__] assert: the two flags agree when
    [start == end]. *)
Definition flags_agree (r : VersionRange) : Prop :=
  match start r with
  | Some _ =>
      opt_eq (start r) (end_ r) = true ->
      includes_left_endpoint r = includes_right_endpoint r
  | None => True
  end.

Definition wf_elem (e : elem) : Prop :=
  match e with
  | EV _ => True
  | ER r => range_valid r /\ flags_agree r
  end.

Definition wf_obj (o : version_obj) : Prop :=
  match o with
  | OVersion _ => True
  | ORange r => wf_elem (ER r)
  | OList l => Forall wf_elem l
  end.

(** [R a b] for every [a] that stands before [b] in the list. *)
Fixpoint pairwise (R : elem -> elem -> Prop) (l : list elem) : Prop :=
  match l with
  | [] => True
  | a :: l' => Forall (R a) l' /\ pairwise R l'
  end.





(** [u] reaches at least as far as [e] on both sides: what lies after [u]
    lies after [e], and what lies before [u] lies before [e]. *)
Definition covers_hi (hu he : option Version) : Prop :=
  forall c, obefore hu c = true -> obefore he c = true.

Definition covers_lo (lu le : option Version) : Prop :=
  forall c, obefore c lu = true -> obefore c le = true.

Definition covers (u e : elem) : Prop :=
  covers_hi (Elem.highest u) (Elem.highest e)
  /\ covers_lo (Elem.lowest u) (Elem.lowest e).

(** What a binary search for the comparison [lt_x] guarantees of the index
    [i] it returns. *)
Definition bisect_post (lt_x : elem -> bool) (a : list elem) (i : nat)
    : Prop :=
  (i <= List.length a)%nat
  /\ (i = 0%nat
      \/ exists x, nth_error a (i - 1) = Some x /\ lt_x x = true)
  /\ (i = List.length a
      \/ exists y, nth_error a i = Some y /\ lt_x y = false).

(** Well-formed elements, each entirely before the ones after it. *)
Definition canonical (l : list elem) : Prop :=
  Forall wf_elem l /\ pairwise (fun a b => ebefore a b = true) l.

(** ** Statements about [VersionRange.union] *)







(** ** Statements about the round trip through [__str__] and [ver] *)

(** [parse(stringify(v)) == v]: [str(v)] is returned, [ver] accepts it, and
    the value it returns is [==] to [v]. *)
Definition round_trips (v : version_obj) : Prop :=
  exists s o, obj_str v = Ok s /\ ver s = Ok o /\ obj_eq o v = Ok true.

(** [v] is a value of the constructor, and its string holds valid
    characters only. *)
Definition plain_version (v : Version) : Prop :=
  (exists s0, Version.__init__ s0 = Ok v) /\ all_valid (string_ v) = true.

Definition opt_plain (o : option Version) : Prop :=
  match o with
  | Some v => plain_version v
  | None => True
  end.

Definition no_star (v : Version) : Prop :=
  VersionRange.has_star_component (Some v) = Ok false.

(** The values the amended round trip is about: a plain version without a
    star component; a range [VersionRange(start, end)] (both ends included)
    of plain versions, without a star component when it prints as a single
    version. *)
Definition printable_elem (e : elem) : Prop :=
  match e with
  | EV v => plain_version v /\ no_star v
  | ER r =>
      VersionRange.make (start r) (end_ r) = Ok r
      /\ opt_plain (start r) /\ opt_plain (end_ r)
      /\ (forall s, start r = Some s ->
                    opt_eq (start r) (end_ r) = true -> no_star s)
  end.

(** ... and a non-empty list of such elements with [start <= end] that is
    sorted and pairwise non-overlapping. *)
Definition printable_obj (o : version_obj) : Prop :=
  match o with
  | OVersion v => printable_elem (EV v)
  | ORange r => printable_elem (ER r)
  | OList l => l <> [] /\ canonical l /\ Forall printable_elem l
  end.

(** What [ver] returns for the string of an element: a range that prints
    as a single version comes back as that version. *)
Definition reparsed (e : elem) : elem :=
  match e with
  | EV v => EV v
  | ER r =>
      if opt_eq (start r) (end_ r) then
        match start r with
        | Some s => EV s
        | None => ER r
        end
      else ER r
  end.

(** A string without [','] that [replace(' ', '')] leaves as it is. *)
Definition piece_ok (s : string) : Prop :=
  string_mem "," s = false /\ remove_spaces s = s.

(** ** Statements about what a list covers *)

(** Some element of [l] overlaps [c]. *)
Definition overlaps_some (l : list elem) (c : elem) : Prop :=
  exists e, In e l /\ Elem.overlaps e c = true.

(** The elements [add] receives with a value. *)
Definition elems_of (o : version_obj) : list elem :=
  match o with
  | OVersion v => [EV v]
  | ORange r => [ER r]
  | OList l => l
  end.

(** ** Statements about strings and their runs *)

(** A map on characters that keeps the class of every character and the
    characters of the segments themselves. *)
Definition sep_map (f : ascii -> ascii) : Prop :=
  (forall c, classify (f c) = classify c)
  /\ (forall c, is_space (f c) = is_space c)
  /\ (forall c, classify c <> COther -> f c = c)
  /\ (forall c, valid_char c = true -> valid_char (f c) = true).

Definition map_runs (f : ascii -> ascii) (rs : list (cclass * string))
    : list (cclass * string) :=
  map (fun kr => (fst kr, string_map f (snd kr))) rs.

(** Every character of [s] has the class [k]. *)
Fixpoint all_class (k : cclass) (s : string) : bool :=
  match s with
  | EmptyString => true
  | String c s' => cclass_eqb (classify c) k && all_class k s'
  end.

Definition head_not_space (s : string) : Prop :=
  match s with
  | EmptyString => True
  | String c _ => is_space c = false
  end.

(** A version of the list has no star component, so [ver] returns it as
    it is. *)
Definition star_free (e : elem) : Prop :=
  match e with
  | EV v => no_star v
  | ER _ => True
  end.

(** Every version of an element, and every finite endpoint, has at least
    one segment. *)
Definition nonempty_elem (e : elem) : Prop :=
  nonempty_endpoint (Elem.lowest e) /\ nonempty_endpoint (Elem.highest e).

(** [string.count(c)] for a one-character [c]. *)
Fixpoint count_char (c : ascii) (s : string) : nat :=
  match s with
  | EmptyString => 0%nat
  | String d s' =>
      if Ascii.eqb d c then S (count_char c s') else count_char c s'
  end.


(** ** Statements about tokens and separators *)

(** The class of the characters of [str(token)]. *)
Definition tok_class (t : seg) : cclass :=
  match t with
  | SInt _ => CDigit
  | SStr _ => CAlpha
  end.

(** An item of [version]: a non-negative [int], or a non-empty [str] of
    letters. *)
Definition wf_token (t : seg) : Prop :=
  match t with
  | SInt n => 0 <= n
  | SStr r => r <> EmptyString /\ all_class CAlpha r = true
  end.

(** The zipped [version] and [separators] of a constructed version: a
    separator holds no letter and no digit, and two tokens with nothing
    between them are of different classes. *)
Fixpoint wf_pairs (ps : list (seg * string)) : Prop :=
  match ps with
  | [] => True
  | (t, sep) :: ps' =>
      wf_token t
      /\ all_class COther sep = true
      /\ (sep = EmptyString ->
          match ps' with
          | (t', _) :: _ => tok_class t' <> tok_class t
          | [] => True
          end)
      /\ wf_pairs ps'
  end.

(** The runs of a string: none is empty, each holds characters of its
    class, and neighbours differ in class. *)
Fixpoint wf_runs (rs : list (cclass * string)) : Prop :=
  match rs with
  | [] => True
  | (k, r) :: rest =>
      r <> EmptyString
      /\ all_class k r = true
      /\ match rest with
         | (k', _) :: _ => k' <> k
         | [] => True
         end
      /\ wf_runs rest
  end.

(** The string [__getitem__] joins for a slice: the tokens with the
    separators between them. *)
Fixpoint rebuild (ps : list (seg * string)) : string :=
  match ps with
  | [] => EmptyString
  | [(t, _)] => seg_str t
  | (t, sep) :: ps' => seg_str t +++ sep +++ rebuild ps'
  end.

(** The token of a run of letters or digits. *)
Definition token_of (k : cclass) (r : string) : seg :=
  match k with
  | CDigit => SInt (int_of_digits 0 r)
  | _ => SStr r
  end.

(** A range of the list includes both of its endpoints. *)
Definition closed_elem (e : elem) : Prop :=
  match e with
  | EV _ => True
  | ER r => includes_left_endpoint r = true
            /\ includes_right_endpoint r = true
  end.

(** ** Statements about [satisfies] and adjacency *)

(** A range that [VersionRange(start, end, ...)] returns. *)
Definition constructed (r : VersionRange) : Prop :=
  exists s e il ir, VersionRange.__init__ s e il ir = Ok r.

(** C3 as it is stated: [r] overlaps [s], or [r.start] and [s.end] are
    both finite and the segments of [s.end] are a prefix of the segments of
    [r.start]. *)
Definition satisfies_as_claimed (r s : VersionRange) : Prop :=
  VersionRange.overlaps r s = true
  \/ exists a b : Version,
       start r = Some a /\ end_ s = Some b
       /\ is_prefix (version b) (version a) = true.




(** * Properties *)

Section SegmentOrder.

Lemma seg_eqb_eq (a b : seg) : seg_eqb a b = true <-> a = b.
Proof.
  destruct a as [x|x], b as [y|y]; simpl; split; intros H;
    try discriminate; try congruence.
  - apply Z.eqb_eq in H. now subst.
  - inversion H. apply Z.eqb_refl.
  - apply String.eqb_eq in H. now subst.
  - inversion H. apply String.eqb_refl.
Qed.

Lemma seg_eqb_refl (a : seg) : seg_eqb a a = true.
Proof. now apply seg_eqb_eq. Qed.

Lemma seg_eqb_neq (a b : seg) : seg_eqb a b = false <-> a <> b.
Proof.
  split; intros H.
  - intros ->. rewrite seg_eqb_refl in H. discriminate.
  - destruct (seg_eqb a b) eqn:E; [|reflexivity].
    apply seg_eqb_eq in E. contradiction.
Qed.

Lemma seg_eqb_sym (a b : seg) : seg_eqb a b = seg_eqb b a.
Proof.
  destruct (seg_eqb a b) eqn:E.
  - apply seg_eqb_eq in E. subst. now rewrite seg_eqb_refl.
  - apply seg_eqb_neq in E. symmetry. apply seg_eqb_neq. congruence.
Qed.

Lemma tuple_eqb_eq (x y : list seg) : tuple_eqb x y = true <-> x = y.
Proof.
  revert y. induction x as [|a x IH]; intros [|b y]; simpl;
    try (split; [discriminate|discriminate]); try tauto.
  rewrite andb_true_iff, seg_eqb_eq, IH. split.
  - intros [-> ->]. reflexivity.
  - intros H. inversion H. auto.
Qed.

Lemma tuple_eqb_refl (x : list seg) : tuple_eqb x x = true.
Proof. now apply tuple_eqb_eq. Qed.

Lemma tuple_eqb_sym (x y : list seg) : tuple_eqb x y = tuple_eqb y x.
Proof.
  destruct (tuple_eqb x y) eqn:E.
  - apply tuple_eqb_eq in E. subst. now rewrite tuple_eqb_refl.
  - destruct (tuple_eqb y x) eqn:E'; [|reflexivity].
    apply tuple_eqb_eq in E'. subst. rewrite tuple_eqb_refl in E.
    discriminate.
Qed.

(** Strings: [String.ltb] is the code-point order of Python 3. *)

Lemma ascii_compare_trans (a b c : ascii) :
  Ascii.compare a b = Lt -> Ascii.compare b c = Lt -> Ascii.compare a c = Lt.
Proof.
  unfold Ascii.compare. rewrite !N.compare_lt_iff. lia.
Qed.

Lemma ascii_compare_refl (a : ascii) : Ascii.compare a a = Eq.
Proof. unfold Ascii.compare. apply N.compare_refl. Qed.

Lemma string_compare_refl (s : string) : String.compare s s = Eq.
Proof.
  induction s as [|a s IH]; simpl; [reflexivity|].
  now rewrite ascii_compare_refl.
Qed.

Lemma string_compare_trans (s t u : string) :
  String.compare s t = Lt -> String.compare t u = Lt ->
  String.compare s u = Lt.
Proof.
  revert t u. induction s as [|a s IH]; intros [|b t] [|c u]; simpl;
    try discriminate; try reflexivity.
  destruct (Ascii.compare a b) eqn:Eab; try discriminate.
  - apply Ascii.compare_eq_iff in Eab. subst b.
    destruct (Ascii.compare a c) eqn:Eac; try discriminate; auto.
    intros H1 H2. eapply IH; eauto.
  - intros _. destruct (Ascii.compare b c) eqn:Ebc; try discriminate.
    + apply Ascii.compare_eq_iff in Ebc. subst c. now rewrite Eab.
    + intros _. now rewrite (ascii_compare_trans _ _ _ Eab Ebc).
Qed.

Lemma string_ltb_irrefl (s : string) : String.ltb s s = false.
Proof. unfold String.ltb. now rewrite string_compare_refl. Qed.

Lemma string_ltb_trans (s t u : string) :
  String.ltb s t = true -> String.ltb t u = true -> String.ltb s u = true.
Proof.
  unfold String.ltb.
  destruct (String.compare s t) eqn:E1; try discriminate.
  destruct (String.compare t u) eqn:E2; try discriminate.
  now rewrite (string_compare_trans _ _ _ E1 E2).
Qed.

Lemma string_ltb_total (s t : string) :
  s <> t -> String.ltb s t = negb (String.ltb t s).
Proof.
  intros Hne. unfold String.ltb.
  rewrite (String.compare_antisym t s).
  destruct (String.compare s t) eqn:E; simpl; try reflexivity.
  apply String.compare_eq_iff in E. contradiction.
Qed.

End SegmentOrder.

Section TupleOrder.

Lemma in_infinity_cases (a : seg) :
  in_infinity a = true ->
  a = SStr "develop" \/ a = SStr "main" \/ a = SStr "master"
  \/ a = SStr "head" \/ a = SStr "trunk".
Proof.
  destruct a as [n|s]; simpl; [discriminate|].
  rewrite !orb_true_iff, !String.eqb_eq. intuition (subst; auto); discriminate.
Qed.

Ltac inf_cases H :=
  apply in_infinity_cases in H;
  destruct H as [H|[H|[H|[H|H]]]]; subst.

Lemma seg_lt_first_irrefl (a : seg) : seg_lt_first a a = false.
Proof.
  unfold seg_lt_first. destruct (in_infinity a).
  - apply Nat.ltb_irrefl.
  - rewrite Bool.eqb_reflx. simpl. destruct a.
    + apply Z.ltb_irrefl.
    + apply string_ltb_irrefl.
Qed.

Lemma seg_lt_first_total (a b : seg) :
  a <> b -> seg_lt_first a b = negb (seg_lt_first b a).
Proof.
  intros Hne. unfold seg_lt_first.
  destruct (in_infinity a) eqn:Ia, (in_infinity b) eqn:Ib; try reflexivity.
  - inf_cases Ia; inf_cases Ib; try reflexivity; congruence.
  - destruct a as [x|x], b as [y|y]; simpl; try reflexivity.
    + assert (x <> y) by congruence.
      destruct (x <? y) eqn:E1, (y <? x) eqn:E2; try reflexivity; lia.
    + apply string_ltb_total. congruence.
Qed.

Lemma seg_lt_first_trans (a b c : seg) :
  seg_lt_first a b = true -> seg_lt_first b c = true ->
  seg_lt_first a c = true.
Proof.
  unfold seg_lt_first.
  destruct (in_infinity a) eqn:Ia, (in_infinity b) eqn:Ib,
    (in_infinity c) eqn:Ic; try discriminate; try reflexivity.
  - rewrite !Nat.ltb_lt. lia.
  - destruct a as [x|x], b as [y|y], c as [z|z]; simpl;
      try discriminate; try reflexivity.
    + rewrite !Z.ltb_lt. lia.
    + apply string_ltb_trans.
Qed.

Lemma seg_lt_first_neq (a b : seg) : seg_lt_first a b = true -> a <> b.
Proof. intros H ->. rewrite seg_lt_first_irrefl in H. discriminate. Qed.

Lemma segs_lt_irrefl (x : list seg) : segs_lt x x = false.
Proof.
  induction x as [|a x IH]; simpl; [reflexivity|].
  now rewrite seg_eqb_refl.
Qed.

Lemma segs_lt_trans (x y z : list seg) :
  segs_lt x y = true -> segs_lt y z = true -> segs_lt x z = true.
Proof.
  revert y z. induction x as [|a x IH]; intros [|b y] [|c z]; simpl;
    try discriminate; try reflexivity.
  destruct (seg_eqb a b) eqn:Eab.
  - apply seg_eqb_eq in Eab. subst b.
    destruct (seg_eqb a c) eqn:Eac; [apply IH | auto].
  - destruct (seg_eqb b c) eqn:Ebc.
    + apply seg_eqb_eq in Ebc. subst c. rewrite Eab. auto.
    + intros H1 H2. pose proof (seg_lt_first_trans _ _ _ H1 H2) as H3.
      apply seg_lt_first_neq in H3. apply seg_eqb_neq in H3.
      rewrite H3. eapply seg_lt_first_trans; eauto.
Qed.

Lemma segs_lt_total (x y : list seg) :
  x <> y -> segs_lt x y = negb (segs_lt y x).
Proof.
  revert y. induction x as [|a x IH]; intros [|b y] Hne; simpl;
    try reflexivity; try congruence.
  rewrite (seg_eqb_sym b a). destruct (seg_eqb a b) eqn:Eab.
  - apply seg_eqb_eq in Eab. subst b. apply IH. congruence.
  - apply seg_lt_first_total. now apply seg_eqb_neq.
Qed.

Lemma segs_lt_asym (x y : list seg) :
  segs_lt x y = true -> segs_lt y x = false.
Proof.
  intros H. destruct (segs_lt y x) eqn:E; [|reflexivity].
  pose proof (segs_lt_trans _ _ _ H E) as C.
  rewrite segs_lt_irrefl in C. discriminate.
Qed.

Lemma segs_lt_neq (x y : list seg) : segs_lt x y = true -> x <> y.
Proof. intros H ->. rewrite segs_lt_irrefl in H. discriminate. Qed.

Lemma segs_trichotomy (x y : list seg) :
  exactly_one (segs_lt x y) (tuple_eqb x y) (segs_lt y x).
Proof.
  unfold exactly_one. destruct (tuple_eqb x y) eqn:E.
  - apply tuple_eqb_eq in E. subst y. rewrite segs_lt_irrefl. auto.
  - assert (x <> y) as Hne.
    { intros ->. rewrite tuple_eqb_refl in E. discriminate. }
    rewrite (segs_lt_total _ _ Hne). destruct (segs_lt y x); simpl; auto.
Qed.

(** [Version.__lt__] is [segs_lt] on the tuples. *)
Lemma lt_loop_segs (x y : list seg) :
  tuple_eqb x y = false ->
  Version.lt_loop (combine x y) (List.length x <? List.length y)%nat
  = segs_lt x y.
Proof.
  revert y. induction x as [|a x IH]; intros [|b y]; simpl;
    try discriminate; try reflexivity.
  destruct (seg_eqb a b); simpl; [|reflexivity].
  intros H. rewrite <- IH by exact H. reflexivity.
Qed.

Lemma Version_lt_segs (x y : Version) :
  Version.__lt__ x y = segs_lt (version x) (version y).
Proof.
  unfold Version.__lt__, Version.__len__.
  destruct (tuple_eqb (version x) (version y)) eqn:E.
  - apply tuple_eqb_eq in E. rewrite E. now rewrite segs_lt_irrefl.
  - now apply lt_loop_segs.
Qed.

End TupleOrder.

(** Case analysis on the order of two tuples. *)
Ltac tri x y :=
  let H := fresh "T" in
  pose proof (segs_trichotomy x y) as H;
  destruct H as [(?&?&?)|[(?&?&?)|(?&?&?)]].

Section VersionOrder.

Lemma segs_lt_common_prefix (p : list seg) (a b : seg) (t u : list seg) :
  a <> b -> segs_lt (p ++ a :: t) (p ++ b :: u) = seg_lt_first a b.
Proof.
  intros Hne. induction p as [|c p IH]; simpl.
  - apply seg_eqb_neq in Hne. now rewrite Hne.
  - now rewrite seg_eqb_refl.
Qed.

Lemma segs_lt_extension (x q : list seg) :
  q <> [] -> segs_lt x (x ++ q) = true.
Proof.
  intros Hq. induction x as [|a x IH]; simpl.
  - destruct q; [contradiction|reflexivity].
  - now rewrite seg_eqb_refl.
Qed.

(** C1.  [Version.__lt__] is a strict total order on versions, with
    [Version.__eq__] as its equality: it is transitive, and exactly one of
    [x < y], [x == y], [y < x] holds.  At the first differing segment an
    infinity token is above every other segment and an integer is above an
    alphabetic segment that is no infinity token; a version is below each
    of its proper extensions. *)
Theorem C1_version_strict_total_order :
  (forall x y z : Version,
      Version.__lt__ x y = true -> Version.__lt__ y z = true ->
      Version.__lt__ x z = true)
  /\ (forall x y : Version,
         exactly_one (Version.__lt__ x y) (Version.__eq__ x y)
                     (Version.__lt__ y x))
  /\ (forall (x y : Version) (p t u : list seg) (a b : seg),
         version x = p ++ a :: t -> version y = p ++ b :: u ->
         in_infinity a = false -> in_infinity b = true ->
         Version.__lt__ x y = true)
  /\ (forall (x y : Version) (p t u : list seg) (s : string) (n : Z),
         version x = p ++ SStr s :: t -> version y = p ++ SInt n :: u ->
         in_infinity (SStr s) = false ->
         Version.__lt__ x y = true)
  /\ (forall (x y : Version) (q : list seg),
         version y = version x ++ q -> q <> [] ->
         Version.__lt__ x y = true).
Proof.
  repeat split.
  - intros x y z. rewrite !Version_lt_segs. apply segs_lt_trans.
  - intros x y. rewrite !Version_lt_segs. apply segs_trichotomy.
  - intros x y p t u a b Hx Hy Ia Ib. rewrite Version_lt_segs, Hx, Hy.
    rewrite segs_lt_common_prefix by congruence.
    unfold seg_lt_first. now rewrite Ia, Ib.
  - intros x y p t u s n Hx Hy Is. rewrite Version_lt_segs, Hx, Hy.
    rewrite segs_lt_common_prefix by congruence.
    unfold seg_lt_first. now rewrite Is.
  - intros x y q Hy Hq. rewrite Version_lt_segs, Hy.
    now apply segs_lt_extension.
Qed.

Lemma C1_version_strict_total_order_witness :
  Version.__lt__ (parsed "1.2") (parsed "develop") = true.
Proof.
  apply (proj1 C1_version_strict_total_order
           (parsed "1.2") (parsed "1.2.1") (parsed "develop"));
    reflexivity.
Defined.

End VersionOrder.

Section Endpoints.

(** C5.  Two endpoints of one side with the same value and different
    inclusive flags: on either side [__lt__] puts the endpoint that includes
    its value below the other one.  On the left side this is the order the
    specification describes; on the right side it is the reverse of it. *)
Theorem C5_equal_value_endpoint_order (v : Version) (loc : side) :
  VersionEndpoint.__lt__ (mkEndpoint (Some v) loc true)
                         (mkEndpoint (Some v) loc false) = Ok true
  /\ VersionEndpoint.__lt__ (mkEndpoint (Some v) loc false)
                            (mkEndpoint (Some v) loc true) = Ok false.
Proof.
  unfold VersionEndpoint.__lt__, VersionEndpoint._endpoint_only,
    VersionEndpoint.lt_body. simpl.
  unfold Version.__eq__. rewrite tuple_eqb_refl.
  destruct loc; simpl; auto.
Qed.

(** The failing input of C5: the closed right endpoint at [1.0] is below
    the open right endpoint at [1.0]. *)
Example C5_right_side_closed_below_open :
  VersionEndpoint.__lt__ (mkEndpoint (Some (parsed "1.0")) Right true)
                         (mkEndpoint (Some (parsed "1.0")) Right false)
  = Ok true.
Proof. reflexivity. Qed.

(** The decorator's assertion holds whenever the two endpoints are of one
    side, which is how [VersionRange.__lt__] calls [__lt__]. *)
Lemma endpoint_lt_same_side (s o : VersionEndpoint) :
  location s = location o ->
  VersionEndpoint.__lt__ s o = Ok (VersionEndpoint.lt_body s o).
Proof.
  intros H. unfold VersionEndpoint.__lt__, VersionEndpoint._endpoint_only.
  rewrite H. destruct (location o); reflexivity.
Qed.

(** The endpoints of a range that [VersionRange.__init__] returned pass
    the assertion of [_VersionEndpoint.__init__]. *)
Lemma range_endpoints_init (s e : option Version) (il ir : bool)
    (r : VersionRange) :
  VersionRange.__init__ s e il ir = Ok r ->
  VersionEndpoint.__init__ (VersionRange.lowest r) Left
                           (includes_left_endpoint r)
  = Ok (VersionRange._low_endpoint r)
  /\ VersionEndpoint.__init__ (VersionRange.highest r) Right
                              (includes_right_endpoint r)
     = Ok (VersionRange._high_endpoint r).
Proof.
  unfold VersionRange.__init__.
  destruct (match s, e with
            | Some s0, Some e0 =>
                Version.truthy s0 && Version.truthy e0
                && Version.__lt__ e0 s0
            | _, _ => false
            end); [discriminate|].
  unfold VersionEndpoint.__init__, VersionRange._low_endpoint,
    VersionRange._high_endpoint, VersionRange.lowest, VersionRange.highest.
  destruct s, e, il, ir; simpl; intros H; inversion H; subst; simpl;
    split; reflexivity.
Qed.

Lemma range_lt_endpoints (s o : VersionRange) :
  (l <- VersionEndpoint.__lt__ (VersionRange._low_endpoint s)
                               (VersionRange._low_endpoint o) ;;
   if l then Ok true
   else VersionEndpoint.__lt__ (VersionRange._high_endpoint s)
                               (VersionRange._high_endpoint o))
  = Ok (VersionRange.__lt__ s o).
Proof.
  rewrite !endpoint_lt_same_side by reflexivity. simpl.
  unfold VersionRange.__lt__.
  destruct (VersionEndpoint.lt_body _ _); reflexivity.
Qed.

End Endpoints.

Section Constructor.

(** C7.  [Version.__init__] tests the first character only: ["1+2"] holds
    ['+'], which is outside [VALID_VERSION], and is accepted. *)
Theorem C7_init_accepts_invalid_later_character :
  Version.__init__ "1+2"
  = Ok (mkVersion "1+2" [SInt 1; SInt 2] ["+"; ""]).
Proof. reflexivity. Qed.

(** What [__init__] does accept and reject. *)
Lemma init_accepts_iff_first_valid (s : string) :
  (exists v, Version.__init__ s = Ok v) <-> re_match_VALID_VERSION s = true.
Proof.
  unfold Version.__init__. destruct (re_match_VALID_VERSION s); simpl.
  - split; eauto.
  - split; [intros [v H]; discriminate | discriminate].
Qed.

Lemma init_accepts_valid_strings (s : string) :
  s <> EmptyString -> all_valid s = true ->
  exists v, Version.__init__ s = Ok v.
Proof.
  intros Hne Hv. apply init_accepts_iff_first_valid.
  destruct s as [|c s]; [contradiction|]. simpl in *.
  now apply andb_true_iff in Hv.
Qed.

Lemma init_rejects_invalid_first (c : ascii) (s : string) :
  valid_char c = false -> Version.__init__ (String c s) = Raise ValueError.
Proof. intros H. unfold Version.__init__. simpl. now rewrite H. Qed.

End Constructor.

Section StarComponents.

(** C6.  [ver] does not pass a parsed range to
    [check_for_star_components]: ["1.2.*:1.5"] is returned as the range from
    [1.2.*] to [1.5], and no error is raised.  A lone starred version is
    expanded to the half-open range printed ["1.2:!1.3"]. *)
Theorem C6_star_in_range_is_not_rejected :
  ver "1.2.*:1.5"
  = Ok (ORange (mkRange (Some (mkVersion "1.2.*" [SInt 1; SInt 2] ["."; ".*"]))
                        (Some (mkVersion "1.5" [SInt 1; SInt 5] ["."; ""]))
                        true true))
  /\ (o <- ver "1.2.*" ;; obj_str o) = Ok "1.2:!1.3".
Proof. split; reflexivity. Qed.

(** [check_for_star_components] itself raises [ValueError] on these two
    endpoints. *)
Example check_for_star_components_rejects :
  VersionRange.check_for_star_components
    (Some (parsed "1.2.*")) (Some (parsed "1.5")) true true
  = Raise ValueError.
Proof. reflexivity. Qed.

End StarComponents.

Section EmptyList.

(** C10.  On the empty list [lowest] and [highest] return [None]; the empty
    list overlaps, satisfies and contains no list, itself included, and with
    an argument of another type (or [None]) each of the three methods
    returns [False] or raises while the argument is coerced. *)
Theorem C10_empty_list :
  VersionList.lowest [] = None
  /\ VersionList.highest [] = None
  /\ (forall other : list elem,
         VersionList.overlaps [] other = false
         /\ VersionList.overlaps other [] = false
         /\ (forall strict, VersionList.satisfies [] other strict = Ok false)
         /\ (forall strict, VersionList.satisfies other [] strict = Ok false)
         /\ VersionList.__contains__ [] other = Ok false)
  /\ (forall (other : option version_obj) (strict : bool),
         (VersionList.overlaps_any [] other = Ok false
          \/ raises (VersionList.overlaps_any [] other))
         /\ (VersionList.satisfies_any [] other strict = Ok false
             \/ raises (VersionList.satisfies_any [] other strict))
         /\ (VersionList.contains_any [] other = Ok false
             \/ raises (VersionList.contains_any [] other))).
Proof.
  split; [reflexivity|]. split; [reflexivity|]. split.
  - intros other. unfold VersionList.overlaps, VersionList.satisfies.
    repeat split; try (destruct other; reflexivity).
  - intros other strict.
    destruct other as [b|]; simpl; [|repeat split; now left].
    unfold VersionList.overlaps, VersionList.satisfies.
    destruct (VersionList.coerce b) as [l|e]; simpl.
    + repeat split; left; try reflexivity; destruct l; reflexivity.
    + repeat split; right; exact I.
Qed.

End EmptyList.

Section PrefixTests.

Lemma firstn_is_prefix (p x : list seg) :
  tuple_eqb (firstn (List.length p) x) p = is_prefix p x.
Proof.
  revert x. induction p as [|a p IH]; intros [|b x]; simpl; try reflexivity.
  rewrite IH, (seg_eqb_sym b a). reflexivity.
Qed.

Lemma is_prefix_length (p x : list seg) :
  is_prefix p x = true -> (List.length p <= List.length x)%nat.
Proof.
  revert x. induction p as [|a p IH]; intros [|b x]; simpl;
    try discriminate; try lia.
  rewrite andb_true_iff. intros [_ H]. apply IH in H. lia.
Qed.

Lemma is_prefix_app (p x : list seg) :
  is_prefix p x = true <-> exists q, x = p ++ q.
Proof.
  revert x. induction p as [|a p IH]; intros x; simpl.
  - split; eauto.
  - destruct x as [|b x].
    + split; [discriminate | intros [q H]; discriminate].
    + rewrite andb_true_iff, seg_eqb_eq, IH. split.
      * intros [-> [q ->]]. eauto.
      * intros [q H]. inversion H. eauto.
Qed.

Lemma is_prefix_refl (x : list seg) : is_prefix x x = true.
Proof. apply is_prefix_app. exists []. now rewrite app_nil_r. Qed.

Lemma Version_contains_prefix (self other : Version) :
  Version.__contains__ self other
  = is_prefix (version self) (version other).
Proof. apply firstn_is_prefix. Qed.

Lemma v_in_prefix (x y : Version) :
  v_in x y = is_prefix (version y) (version x).
Proof. apply Version_contains_prefix. Qed.

Lemma Version_satisfies_prefix (self other : Version) :
  Version.satisfies self other
  = is_prefix (version other) (version self).
Proof.
  unfold Version.satisfies, Version.__len__. rewrite firstn_is_prefix.
  destruct (is_prefix (version other) (version self)) eqn:E.
  - apply is_prefix_length in E. apply Nat.leb_le in E. now rewrite E.
  - apply andb_false_r.
Qed.

Lemma truthy_nonempty (v : Version) :
  version v <> [] -> Version.truthy v = true.
Proof.
  unfold Version.truthy, Version.__len__. destruct (version v); simpl.
  - contradiction.
  - reflexivity.
Qed.

End PrefixTests.

Section RangeSatisfies.

(** For ranges whose finite endpoints have at least one segment,
    [r.satisfies(s)] is true exactly when [r] overlaps [s] or [r.start] and
    [s.end] are both finite and the segments of [s.end] are a prefix of the
    segments of [r.start].  The range parsed from ["4.5:4.7"] satisfies the
    range parsed from ["4.7.3:4.8"]. *)
Lemma range_satisfies_nonempty :
  (forall r s : VersionRange,
      nonempty_endpoint (start r) -> nonempty_endpoint (end_ s) ->
      (VersionRange.satisfies r s = true <->
       (VersionRange.overlaps r s = true
        \/ exists a b : Version,
            start r = Some a /\ end_ s = Some b
            /\ is_prefix (version b) (version a) = true)))
  /\ ver "4.5:4.7" = Ok (ORange (range_of "4.5" "4.7"))
  /\ ver "4.7.3:4.8" = Ok (ORange (range_of "4.7.3" "4.8"))
  /\ VersionRange.satisfies (range_of "4.5" "4.7") (range_of "4.7.3" "4.8")
     = true.
Proof.
  split; [|repeat split; reflexivity].
  intros r s Hr Hs. unfold VersionRange.satisfies.
  rewrite orb_true_iff. split.
  - intros [H|H]; [now left|right].
    destruct (start r) as [a|]; [|discriminate].
    destruct (end_ s) as [b|]; [|discriminate].
    exists a, b. repeat split.
    rewrite Version_satisfies_prefix in H.
    now apply andb_true_iff in H.
  - intros [H|[a [b [Ha [Hb H]]]]]; [now left|right].
    rewrite Ha, Hb in *. simpl in Hr, Hs.
    rewrite !truthy_nonempty by assumption.
    now rewrite Version_satisfies_prefix.
Qed.

Example range_satisfies_nonempty_example :
  VersionRange.satisfies (range_of "4.5" "4.7") (range_of "4.7.3" "4.8")
  = true.
Proof.
  apply (proj1 range_satisfies_nonempty).
  - simpl. discriminate.
  - simpl. discriminate.
  - left. reflexivity.
Qed.

End RangeSatisfies.

Section ListContainment.

Lemma contains_loop_sound (A B rest : list elem) :
  VersionList.contains_loop A B rest = Ok true ->
  forall x, In x rest -> exists y, In y A /\ VersionList.e_in x y = true.
Proof.
  induction rest as [|version rest IH]; simpl; [intros _ x []|].
  destruct (VersionList.bisect_left_list A B) as [i|e]; simpl;
    [|discriminate].
  destruct (i =? 0)%nat.
  - destruct A as [|self0 A']; [discriminate|].
    destruct (VersionList.e_in version self0) eqn:E; simpl; [|discriminate].
    intros H x [<-|Hx]; [|now apply IH].
    exists self0. split; [now left|exact E].
  - destruct (forallb _ (skipn (i - 1) A)) eqn:E; [discriminate|].
    intros H x [<-|Hx]; [|now apply IH].
    assert (existsb (fun v => VersionList.e_in version v)
                    (skipn (i - 1) A) = true) as Hex.
    { clear -E. induction (skipn (i - 1) A) as [|v l IHl]; simpl in *;
        [discriminate|].
      destruct (VersionList.e_in version v); simpl in *; auto. }
    apply existsb_exists in Hex. destruct Hex as [y [Hy Hin]].
    exists y. split; [|exact Hin].
    rewrite <- (firstn_skipn (i - 1) A). apply in_or_app. now right.
Qed.

(** C9 as stated, counterexample: the empty list does not contain the
    empty list, though every element of the empty list is contained in
    some element of it. *)
Lemma C9_counterexample_empty_lists : ~ contains_iff_elementwise [] [].
Proof.
  unfold contains_iff_elementwise. intros [_ H].
  assert (every_element_contained [] []) as Hall by (intros x []).
  apply H in Hall. discriminate.
Qed.

(** C9, amended.  An empty [A] contains no list; when [B in A] holds, [A]
    is not empty and every element of [B] is contained in some element of
    [A]; a non-empty [A] contains the empty list. *)
Theorem C9_list_containment :
  (forall B : list elem, VersionList.__contains__ [] B = Ok false)
  /\ (forall A B : list elem,
         VersionList.__contains__ A B = Ok true ->
         A <> [] /\ every_element_contained A B)
  /\ (forall A : list elem,
         A <> [] -> VersionList.__contains__ A [] = Ok true).
Proof.
  repeat split.
  - intros ->. discriminate.
  - destruct A as [|a A]; [discriminate|].
    unfold VersionList.__contains__ in H. simpl in H.
    intros x Hx. eapply contains_loop_sound; eauto.
  - intros A HA. destruct A; [contradiction|reflexivity].
Qed.

Lemma C9_list_containment_witness :
  [EV (parsed "1.2")] <> []
  /\ every_element_contained [EV (parsed "1.2")] [EV (parsed "1.2.3")].
Proof.
  apply (proj1 (proj2 C9_list_containment)). reflexivity.
Defined.

(** The index [i] is the bisection of the whole list [other], not of
    [version]: with [A = "5:6,7:9"] and [B = "5,7.*"] it is [0], only
    [A[0]] is tried, and [B in A] is false though [5] is in [5:6] and
    [7:!8] is in [7:9]. *)
Example contains_bisects_other :
  let A := [ER (range_of "5" "6"); ER (range_of "7" "9")] in
  let B := [EV (parsed "5");
            ER (mkRange (Some (parsed "7")) (Some (parsed "8")) true false)] in
  ver "5:6,7:9" = Ok (OList A)
  /\ ver "5,7.*" = Ok (OList B)
  /\ VersionList.bisect_left_list A B = Ok 0%nat
  /\ VersionList.__contains__ A B = Ok false
  /\ forallb (fun x => existsb (VersionList.e_in x) A) B = true.
Proof. repeat split; reflexivity. Qed.

End ListContainment.

(** ** The order and the prefix relation together

    [segs_lt y x = false] reads [x <= y]. *)

Section OrderAndPrefix.

Implicit Types x y z p a b c : list seg.

Lemma segs_le_refl x : segs_lt x x = false.
Proof. apply segs_lt_irrefl. Qed.

Lemma segs_le_trans x y z :
  segs_lt y x = false -> segs_lt z y = false -> segs_lt z x = false.
Proof.
  intros H1 H2. destruct (segs_lt z x) eqn:E; [|reflexivity].
  destruct (tuple_eqb x y) eqn:Exy.
  - apply tuple_eqb_eq in Exy. subst y. congruence.
  - assert (x <> y) as Hne
        by (intros ->; rewrite tuple_eqb_refl in Exy; discriminate).
    rewrite (segs_lt_total _ _ (not_eq_sym Hne)) in H1.
    apply negb_false_iff in H1.
    pose proof (segs_lt_trans _ _ _ E H1) as C. congruence.
Qed.

Lemma segs_lt_le_trans x y z :
  segs_lt x y = true -> segs_lt z y = false -> segs_lt x z = true.
Proof.
  intros H1 H2. destruct (tuple_eqb y z) eqn:E.
  - apply tuple_eqb_eq in E. now subst z.
  - assert (z <> y) as Hne
        by (intros ->; rewrite tuple_eqb_refl in E; discriminate).
    rewrite (segs_lt_total _ _ Hne) in H2. apply negb_false_iff in H2.
    eapply segs_lt_trans; eauto.
Qed.

Lemma segs_le_lt_trans x y z :
  segs_lt y x = false -> segs_lt y z = true -> segs_lt x z = true.
Proof.
  intros H1 H2. destruct (tuple_eqb x y) eqn:E.
  - apply tuple_eqb_eq in E. now subst y.
  - assert (y <> x) as Hne
        by (intros ->; rewrite tuple_eqb_refl in E; discriminate).
    rewrite (segs_lt_total _ _ Hne) in H1. apply negb_false_iff in H1.
    eapply segs_lt_trans; eauto.
Qed.

Lemma segs_lt_le x y : segs_lt x y = true -> segs_lt y x = false.
Proof. apply segs_lt_asym. Qed.

Lemma segs_le_cases x y :
  segs_lt y x = false -> x = y \/ segs_lt x y = true.
Proof.
  intros H. destruct (tuple_eqb x y) eqn:E.
  - left. now apply tuple_eqb_eq.
  - right. assert (x <> y) as Hne
        by (intros ->; rewrite tuple_eqb_refl in E; discriminate).
    rewrite (segs_lt_total _ _ Hne), H. reflexivity.
Qed.

(** A tuple is at or below each of its extensions. *)
Lemma is_prefix_le p x : is_prefix p x = true -> segs_lt x p = false.
Proof.
  intros H. apply is_prefix_app in H. destruct H as [q ->].
  destruct q as [|c q].
  - rewrite app_nil_r. apply segs_lt_irrefl.
  - apply segs_lt_asym. apply segs_lt_extension. discriminate.
Qed.

(** The extensions of a tuple are an interval of the order. *)
Lemma is_prefix_convex a b c :
  segs_lt a b = true -> segs_lt b c = true -> is_prefix a c = true ->
  is_prefix a b = true.
Proof.
  revert b c. induction a as [|x a IH]; intros b c; [reflexivity|].
  destruct b as [|y b]; [discriminate|].
  destruct c as [|z c]; [discriminate|]. simpl.
  rewrite andb_true_iff, seg_eqb_eq.
  destruct (seg_eqb x y) eqn:Exy.
  - apply seg_eqb_eq in Exy. subst y. intros H1 H2 [-> H3].
    rewrite seg_eqb_refl in *. simpl. eapply IH; eauto.
  - intros H1 H2 [-> H3]. rewrite seg_eqb_sym, Exy in H2.
    pose proof (seg_lt_first_trans _ _ _ H1 H2) as C.
    rewrite seg_lt_first_irrefl in C. discriminate.
Qed.

Lemma segs_before_lt a b : segs_before a b = true -> segs_lt a b = true.
Proof. unfold segs_before. now intros H%andb_true_iff. Qed.

Lemma segs_before_not_prefix a b :
  segs_before a b = true -> is_prefix a b = false.
Proof.
  unfold segs_before. intros [_ H]%andb_true_iff.
  now apply negb_true_iff.
Qed.

Lemma segs_before_intro a b :
  segs_lt a b = true -> is_prefix a b = false -> segs_before a b = true.
Proof. unfold segs_before. intros -> ->. reflexivity. Qed.

(** [a] before [b] and [b <= c]: [a] before [c]. *)
Lemma segs_before_le_trans a b c :
  segs_before a b = true -> segs_lt c b = false -> segs_before a c = true.
Proof.
  intros Hab Hbc. pose proof (segs_before_lt _ _ Hab) as Hlt.
  pose proof (segs_before_not_prefix _ _ Hab) as Hnp.
  apply segs_before_intro.
  - eapply segs_lt_le_trans; eauto.
  - destruct (is_prefix a c) eqn:E; [|reflexivity].
    destruct (segs_le_cases _ _ Hbc) as [->|Hlt2]; [congruence|].
    rewrite (is_prefix_convex _ _ _ Hlt Hlt2 E) in Hnp. discriminate.
Qed.

(** [p] before [c]: every extension of [p] is before [c]. *)
Lemma segs_before_extension p x c :
  segs_before p c = true -> is_prefix p x = true -> segs_before x c = true.
Proof.
  unfold segs_before. revert x c.
  induction p as [|a p IH]; intros x c; [simpl; now rewrite andb_false_r|].
  destruct x as [|b x]; [discriminate|].
  destruct c as [|z c]; [discriminate|]. simpl.
  intros H [Hab Hpx]%andb_true_iff. apply seg_eqb_eq in Hab. subst b.
  destruct (seg_eqb a z); simpl in *; [now apply IH|exact H].
Qed.

(** [a <= b], not related by prefix in the direction [a] to [c], keeps
    [b] before [c] a fact about [a]. *)
Lemma segs_le_before_trans a b c :
  segs_lt b a = false -> segs_before b c = true ->
  is_prefix a b = false -> segs_before a c = true.
Proof.
  intros Hab Hbc Hnp. pose proof (segs_before_lt _ _ Hbc) as Hlt.
  apply segs_before_intro.
  - eapply segs_le_lt_trans; eauto.
  - destruct (is_prefix a c) eqn:E; [|reflexivity].
    destruct (segs_le_cases _ _ Hab) as [->|Hlt1].
    + now rewrite (segs_before_not_prefix _ _ Hbc) in E.
    + rewrite (is_prefix_convex _ _ _ Hlt1 Hlt E) in Hnp. discriminate.
Qed.

End OrderAndPrefix.

(** ** Overlap as an order relation *)

Section OverlapAndBefore.

Lemma le_or_related_before (ss oe : Version) :
  Version.__le__ ss oe || v_in oe ss || v_in ss oe
  = negb (segs_before (version oe) (version ss)).
Proof.
  unfold Version.__le__, Version.__eq__. rewrite Version_lt_segs, !v_in_prefix.
  unfold segs_before. tri (version ss) (version oe).
  - rewrite H, H1. simpl. now rewrite orb_true_r.
  - rewrite H0, H1. reflexivity.
  - rewrite H, H0, H1. simpl.
    destruct (is_prefix (version ss) (version oe)) eqn:E.
    + apply is_prefix_le in E. congruence.
    + simpl. now rewrite negb_involutive.
Qed.

Lemma le_or_related_before_swapped (os se : Version) :
  Version.__le__ os se || v_in os se || v_in se os
  = negb (segs_before (version se) (version os)).
Proof.
  rewrite <- le_or_related_before, <- !orb_assoc. f_equal. apply orb_comm.
Qed.

Lemma range_overlaps_before (self other : VersionRange) :
  VersionRange.overlaps self other
  = negb (obefore (end_ other) (start self))
    && negb (obefore (end_ self) (start other)).
Proof.
  unfold VersionRange.overlaps, obefore.
  destruct (start self) as [ss|], (end_ other) as [oe|],
    (start other) as [os|], (end_ self) as [se|];
    rewrite ?le_or_related_before, ?le_or_related_before_swapped;
    reflexivity.
Qed.

Lemma version_overlaps_before (x y : Version) :
  Version.overlaps x y
  = negb (segs_before (version y) (version x))
    && negb (segs_before (version x) (version y)).
Proof.
  unfold Version.overlaps. rewrite !Version_contains_prefix.
  unfold segs_before. tri (version x) (version y).
  - rewrite H, H1. simpl.
    destruct (is_prefix (version y) (version x)) eqn:E.
    + apply is_prefix_le in E. congruence.
    + simpl. now rewrite negb_involutive.
  - apply tuple_eqb_eq in H0. rewrite H0, is_prefix_refl, segs_lt_irrefl.
    reflexivity.
  - rewrite H, H1. simpl.
    destruct (is_prefix (version x) (version y)) eqn:E.
    + apply is_prefix_le in E. congruence.
    + simpl. now rewrite negb_involutive, orb_false_r, andb_true_r.
Qed.

Lemma elem_overlaps_before (a b : elem) :
  Elem.overlaps a b = negb (ebefore b a) && negb (ebefore a b).
Proof.
  destruct a as [x|r], b as [y|s]; unfold Elem.overlaps, coerced, ebefore;
    simpl; try apply range_overlaps_before.
  apply version_overlaps_before.
Qed.


Lemma range_overlaps_sym (r s : VersionRange) :
  VersionRange.overlaps r s = VersionRange.overlaps s r.
Proof. rewrite !range_overlaps_before. apply andb_comm. Qed.

(** Comparisons of elements are comparisons of the coerced ranges. *)
Lemma elem_lt_as_range (a b : elem) :
  Elem.__lt__ a b = VersionRange.__lt__ (as_range a) (as_range b).
Proof.
  destruct a as [x|r], b as [y|s]; try reflexivity.
  unfold Elem.__lt__, coerced, VersionRange.__lt__,
    VersionEndpoint.lt_body. simpl.
  unfold Version.__eq__. rewrite Version_lt_segs.
  destruct (tuple_eqb (version x) (version y)) eqn:E; simpl.
  - apply tuple_eqb_eq in E. rewrite E. apply segs_lt_irrefl.
  - now destruct (segs_lt (version x) (version y)).
Qed.

End OverlapAndBefore.

(** ** Union of overlapping ranges *)

Section UnionOverlapping.

Lemma as_range_valid (e : elem) : wf_elem e -> range_valid (as_range e).
Proof.
  destruct e as [v|r]; simpl.
  - intros _. unfold range_valid. simpl. rewrite Version_lt_segs.
    apply segs_lt_irrefl.
  - now intros [H _].
Qed.

Lemma as_range_start (e : elem) : start (as_range e) = Elem.lowest e.
Proof. now destruct e. Qed.

Lemma as_range_end (e : elem) : end_ (as_range e) = Elem.highest e.
Proof. now destruct e. Qed.

Lemma covers_hi_refl (h : option Version) : covers_hi h h.
Proof. now intros c. Qed.

Lemma covers_lo_refl (l : option Version) : covers_lo l l.
Proof. now intros c. Qed.

Lemma covers_refl (e : elem) : covers e e.
Proof. split; [apply covers_hi_refl | apply covers_lo_refl]. Qed.

Lemma covers_trans (u v e : elem) : covers u v -> covers v e -> covers u e.
Proof.
  intros [H1 H2] [H3 H4]. split; intros c Hc; auto.
Qed.

(** The low end [union] chooses is at or below both low ends. *)
Lemma union_start_covers (ss os : Version) :
  let s' := if v_in ss os || Version.__lt__ os ss then os else ss in
  covers_lo (Some s') (Some ss) /\ covers_lo (Some s') (Some os)
  /\ segs_lt (version ss) (version s') = false
  /\ segs_lt (version os) (version s') = false.
Proof.
  rewrite v_in_prefix, Version_lt_segs. cbv zeta.
  assert (forall s' x : Version,
             segs_lt (version x) (version s') = false ->
             covers_lo (Some s') (Some x)) as Hcov.
  { intros s' x H [h|]; simpl; [|discriminate].
    intros Hb. eapply segs_before_le_trans; eauto. }
  destruct (is_prefix (version os) (version ss)) eqn:Ep; simpl.
  - apply is_prefix_le in Ep.
    repeat split; auto using segs_le_refl.
  - destruct (segs_lt (version os) (version ss)) eqn:El.
    + pose proof (segs_lt_asym _ _ El).
      repeat split; auto using segs_le_refl.
    + repeat split; auto using segs_le_refl.
Qed.

(** The high end [union] chooses reaches as far as both high ends. *)
Lemma union_end_covers (se oe : Version) :
  let e' := if negb (v_in oe se)
            then if v_in se oe || Version.__gt__ oe se then oe else se
            else se in
  covers_hi (Some e') (Some se) /\ covers_hi (Some e') (Some oe)
  /\ (e' = se \/ e' = oe).
Proof.
  rewrite !v_in_prefix. unfold Version.__gt__, Version.__eq__.
  rewrite Version_lt_segs. cbv zeta.
  destruct (is_prefix (version se) (version oe)) eqn:E1; simpl.
  - repeat split; auto using covers_hi_refl.
    intros [l|]; simpl; [|discriminate].
    intros H. eapply segs_before_extension; eauto.
  - destruct (is_prefix (version oe) (version se)) eqn:E2; simpl.
    + repeat split; auto using covers_hi_refl.
      intros [l|]; simpl; [|discriminate].
      intros H. eapply segs_before_extension; eauto.
    + destruct (tuple_eqb (version oe) (version se)) eqn:Eq; simpl.
      { apply tuple_eqb_eq in Eq. rewrite Eq, is_prefix_refl in E2.
        discriminate. }
      destruct (segs_lt (version oe) (version se)) eqn:El; simpl.
      * repeat split; auto using covers_hi_refl.
        intros [l|]; simpl; [|discriminate].
        intros H. eapply segs_le_before_trans; eauto.
        now apply segs_lt_asym.
      * repeat split; auto using covers_hi_refl.
        intros [l|]; simpl; [|discriminate].
        intros H. eapply segs_le_before_trans; eauto.
Qed.

Lemma covers_hi_none (h : option Version) : covers_hi None h.
Proof. intros c H. discriminate. Qed.

Lemma covers_lo_none (l : option Version) : covers_lo None l.
Proof. intros [c|] H; discriminate. Qed.

Lemma make_ok (a b : option Version) :
  match a, b with
  | Some x, Some y => segs_lt (version y) (version x) = false
  | _, _ => True
  end ->
  VersionRange.make a b = Ok (mkRange a b true true).
Proof.
  unfold VersionRange.make, VersionRange.__init__.
  destruct a as [x|], b as [y|]; try reflexivity.
  rewrite Version_lt_segs. intros ->. now rewrite !andb_false_r.
Qed.

Lemma range_union_overlapping (r s : VersionRange) :
  range_valid r -> range_valid s -> VersionRange.overlaps r s = true ->
  exists u,
    VersionRange.union r s = Ok (USingle (ER u))
    /\ range_valid u
    /\ includes_left_endpoint u = true /\ includes_right_endpoint u = true
    /\ (start u = start r \/ start u = start s)
    /\ (end_ u = end_ r \/ end_ u = end_ s)
    /\ covers_hi (end_ u) (end_ r) /\ covers_hi (end_ u) (end_ s)
    /\ covers_lo (start u) (start r) /\ covers_lo (start u) (start s).
Proof.
  intros Vr Vs Hov. unfold VersionRange.union. rewrite Hov. simpl.
  unfold range_valid in *.
  destruct (start r) as [ss|], (start s) as [os|],
    (end_ r) as [se|], (end_ s) as [oe|];
    rewrite ?Version_lt_segs in Vr, Vs;
    try (pose proof (union_start_covers ss os) as (S1 & S2 & S3 & S4);
         cbv zeta in S1, S2, S3, S4;
         destruct (v_in ss os || Version.__lt__ os ss));
    try (pose proof (union_end_covers se oe) as (E1 & E2 & E3);
         cbv zeta in E1, E2, E3;
         destruct (negb (v_in oe se));
         [destruct (v_in se oe || Version.__gt__ oe se)|]);
    (rewrite make_ok; [|simpl; eauto using segs_le_trans]);
    eexists; (split; [reflexivity|]); simpl;
    rewrite ?Version_lt_segs;
    repeat match goal with
      | |- _ /\ _ => split
      end;
    eauto using covers_hi_none, covers_lo_none, covers_hi_refl,
      covers_lo_refl, segs_le_trans.
Qed.

End UnionOverlapping.

(** ** Elements: union, order and the relation [ebefore] *)

Section ElementOrder.

Lemma elem_union_overlapping (a b : elem) :
  wf_elem a -> wf_elem b -> Elem.overlaps a b = true ->
  exists u,
    Elem.union a b = Ok (USingle u)
    /\ wf_elem u
    /\ (Elem.lowest u = Elem.lowest a \/ Elem.lowest u = Elem.lowest b)
    /\ (Elem.highest u = Elem.highest a \/ Elem.highest u = Elem.highest b)
    /\ covers u a /\ covers u b.
Proof.
  intros Wa Wb Hov.
  assert (forall x y : Version,
             is_prefix (version x) (version y) = true ->
             covers (EV x) (EV y)) as Hcov.
  { intros x y Hp. split.
    - intros [c|]; simpl; [|discriminate].
      intros H. eapply segs_before_extension; eauto.
    - intros [c|]; simpl; [|discriminate].
      intros H. eapply segs_before_le_trans; eauto.
      now apply is_prefix_le. }
  destruct a as [x|r], b as [y|s];
    try (unfold Elem.overlaps, Elem.union, coerced in *;
         destruct (range_union_overlapping _ _
                     (as_range_valid _ Wa) (as_range_valid _ Wb) Hov)
           as (u & Hu & Vu & Il & Ir & Hs & He & C1 & C2 & C3 & C4);
         exists (ER u); simpl in *;
         repeat split; auto;
         unfold flags_agree; rewrite Il, Ir; now destruct (start u)).
  unfold Elem.overlaps, Elem.union, coerced, Elem.version_union in *.
  unfold Version.overlaps in Hov. rewrite !Version_contains_prefix in Hov.
  rewrite !v_in_prefix. unfold Version.__eq__.
  destruct (tuple_eqb (version x) (version y)
            || is_prefix (version x) (version y)) eqn:E.
  - exists (EV x). simpl.
    split; [reflexivity|]. split; [exact I|].
    split; [now left|]. split; [now left|].
    split; [apply covers_refl|].
    apply Hcov. apply orb_true_iff in E. destruct E as [E|E]; [|exact E].
    apply tuple_eqb_eq in E. rewrite E. apply is_prefix_refl.
  - apply orb_false_iff in E. destruct E as [_ E]. rewrite E in Hov.
    rewrite orb_false_r in Hov. rewrite Hov.
    exists (EV y). simpl.
    split; [reflexivity|]. split; [exact I|].
    split; [now right|]. split; [now right|].
    split; [now apply Hcov | apply covers_refl].
Qed.

Lemma range_before_lt (r s : VersionRange) :
  range_valid r -> range_valid s ->
  obefore (end_ r) (start s) = true ->
  VersionRange.__lt__ r s = true /\ VersionRange.__lt__ s r = false.
Proof.
  unfold range_valid, obefore, VersionRange.__lt__, VersionEndpoint.lt_body.
  simpl. unfold VersionRange.lowest, VersionRange.highest.
  destruct (end_ r) as [h|]; [|discriminate].
  destruct (start s) as [l|]; [|discriminate].
  intros Vr Vs Hb. apply segs_before_lt in Hb.
  assert (forall a b : Version,
             segs_lt (version a) (version b) = true ->
             Version.__eq__ a b = false /\ Version.__eq__ b a = false
             /\ Version.__lt__ a b = true /\ Version.__lt__ b a = false)
    as Hlt.
  { intros a b H. unfold Version.__eq__. rewrite !Version_lt_segs.
    pose proof (segs_lt_neq _ _ H) as Hne.
    repeat split; auto using segs_lt_asym.
    - destruct (tuple_eqb (version a) (version b)) eqn:E; auto.
      apply tuple_eqb_eq in E. contradiction.
    - destruct (tuple_eqb (version b) (version a)) eqn:E; auto.
      apply tuple_eqb_eq in E. congruence. }
  split.
  - destruct (start r) as [a|]; simpl; [|reflexivity].
    rewrite Version_lt_segs in Vr.
    destruct (Hlt a l (segs_le_lt_trans _ _ _ Vr Hb)) as (-> & _ & -> & _).
    reflexivity.
  - assert ((if opt_eq (end_ s) (Some h)
             then
               if negb (eqb (includes_right_endpoint s)
                            (includes_right_endpoint r))
               then includes_right_endpoint s
               else false
             else match end_ s with
                  | Some sv => Version.__lt__ sv h
                  | None => false
                  end) = false) as Hhigh.
    { destruct (end_ s) as [y|]; simpl; [|reflexivity].
      rewrite Version_lt_segs in Vs.
      destruct (Hlt h y (segs_lt_le_trans _ _ _ Hb Vs))
        as (_ & -> & _ & ->). reflexivity. }
    destruct (start r) as [a|]; simpl.
    + rewrite Version_lt_segs in Vr.
      destruct (Hlt a l (segs_le_lt_trans _ _ _ Vr Hb))
        as (_ & -> & _ & ->). exact Hhigh.
    + exact Hhigh.
Qed.

(** [union] on two overlapping elements never returns a list. *)
Lemma elem_union_never_pair (a b : elem) :
  Elem.overlaps a b = true ->
  forall x y, Elem.union a b <> Ok (UPair x y).
Proof.
  intros Hov x y.
  destruct a as [v|r], b as [w|s];
    unfold Elem.overlaps, Elem.union, coerced in *;
    try (unfold VersionRange.union; rewrite Hov; simpl;
         match goal with
         | |- bind ?m _ <> _ => destruct m; simpl; discriminate
         end).
  unfold Elem.version_union, Version.overlaps, v_in in *.
  destruct (Version.__eq__ v w || Version.__contains__ v w) eqn:E;
    [discriminate|].
  apply orb_false_iff in E. destruct E as [_ E]. rewrite E in Hov.
  rewrite orb_false_r in Hov. rewrite Hov. discriminate.
Qed.

Lemma ebefore_lt (a b : elem) :
  wf_elem a -> wf_elem b -> ebefore a b = true ->
  Elem.__lt__ a b = true /\ Elem.__lt__ b a = false.
Proof.
  intros Wa Wb H. rewrite !elem_lt_as_range.
  apply range_before_lt; auto using as_range_valid.
  now rewrite as_range_start, as_range_end.
Qed.

Lemma ebefore_trans (a b c : elem) :
  wf_elem b -> ebefore a b = true -> ebefore b c = true ->
  ebefore a c = true.
Proof.
  intros Wb. apply as_range_valid in Wb. unfold range_valid in Wb.
  rewrite as_range_start, as_range_end in Wb. unfold ebefore, obefore.
  destruct (Elem.highest a) as [ah|]; [|discriminate].
  destruct (Elem.lowest b) as [bl|]; [|discriminate].
  destruct (Elem.highest b) as [bh|]; [|discriminate].
  destruct (Elem.lowest c) as [cl|]; [|discriminate].
  rewrite Version_lt_segs in Wb.
  intros H1 H2. eapply segs_before_le_trans; eauto.
  apply segs_lt_asym. eapply segs_le_lt_trans; eauto.
  now apply segs_before_lt.
Qed.

Lemma ebefore_irrefl (a : elem) : wf_elem a -> ebefore a a = false.
Proof.
  intros Wa. apply as_range_valid in Wa. unfold range_valid in Wa.
  rewrite as_range_start, as_range_end in Wa. unfold ebefore, obefore.
  destruct (Elem.highest a) as [h|]; [|reflexivity].
  destruct (Elem.lowest a) as [l|]; [|reflexivity].
  rewrite Version_lt_segs in Wa. unfold segs_before. now rewrite Wa.
Qed.

Lemma ebefore_asym (a b : elem) :
  wf_elem a -> wf_elem b -> ebefore a b = true -> ebefore b a = true ->
  False.
Proof.
  intros Wa Wb H1 H2. pose proof (ebefore_trans _ _ _ Wb H1 H2) as C.
  rewrite ebefore_irrefl in C by assumption. discriminate.
Qed.


End ElementOrder.

(** ** [bisect_left] and the loops of [add] *)

Section AddLoops.

(** What the binary search guarantees for any comparison, monotone or
    not: the element left of the returned index is below [x], the element
    at it is not. *)
Lemma bisect_loop_step (lt_x : elem -> bool) (a : list elem)
    (fuel lo hi : nat) :
  VersionList.bisect_loop (S fuel) lt_x a lo hi
  = if (lo <? hi)%nat then
      match nth_error a ((lo + hi) / 2) with
      | Some am =>
          if lt_x am
          then VersionList.bisect_loop fuel lt_x a ((lo + hi) / 2 + 1) hi
          else VersionList.bisect_loop fuel lt_x a lo ((lo + hi) / 2)
      | None => lo
      end
    else lo.
Proof. reflexivity. Qed.

Lemma bisect_loop_spec (lt_x : elem -> bool) (a : list elem) :
  forall (fuel lo hi : nat),
    (lo <= hi)%nat -> (hi <= List.length a)%nat -> (hi - lo <= fuel)%nat ->
    (lo = 0%nat
     \/ exists x, nth_error a (lo - 1) = Some x /\ lt_x x = true) ->
    (hi = List.length a
     \/ exists y, nth_error a hi = Some y /\ lt_x y = false) ->
    bisect_post lt_x a (VersionList.bisect_loop fuel lt_x a lo hi).
Proof.
  induction fuel as [|fuel IH]; intros lo hi Hle Hhi Hfuel Hlo Hup.
  - simpl. assert (lo = hi) by lia. subst hi. repeat split; auto; lia.
  - rewrite bisect_loop_step. destruct (Nat.ltb_spec lo hi) as [Hlt|Hge].
    + assert (lo <= (lo + hi) / 2 /\ (lo + hi) / 2 < hi)%nat as [M1 M2].
      { split.
        - apply Nat.div_le_lower_bound; lia.
        - apply Nat.Div0.div_lt_upper_bound; lia. }
      destruct (nth_error a ((lo + hi) / 2)) as [am|] eqn:En.
      * destruct (lt_x am) eqn:El.
        -- apply IH; try lia; [|exact Hup]. right. exists am.
           replace ((lo + hi) / 2 + 1 - 1)%nat with ((lo + hi) / 2)%nat
             by lia.
           auto.
        -- apply IH; try lia; [exact Hlo|]. right. exists am. auto.
      * apply nth_error_None in En. lia.
    + assert (lo = hi) by lia. subst hi. repeat split; auto; lia.
Qed.

Lemma bisect_left_spec (a : list elem) (x : elem) :
  bisect_post (fun y => Elem.__lt__ y x) a (VersionList.bisect_left a x).
Proof.
  unfold VersionList.bisect_left.
  apply bisect_loop_spec; auto; lia.
Qed.

Lemma normalize_wf (v : elem) :
  wf_elem v -> exists v0, VersionList.normalize v = Ok v0 /\ wf_elem v0.
Proof.
  unfold VersionList.normalize. destruct v as [x|r]; simpl.
  - intros _. exists (EV x).
    destruct (Version.truthy x); split; solve [reflexivity | exact I].
  - intros W. pose proof W as [Vr Fr]. unfold flags_agree in Fr.
    unfold VersionRange.concrete.
    assert (Ok (ER r) = Ok (ER r) /\ wf_elem (ER r)) as Hsame
        by (split; [reflexivity | exact W]).
    destruct (opt_eq (start r) (end_ r)) eqn:E; simpl;
      [|exists (ER r); exact Hsame].
    destruct (start r) as [s|] eqn:Es; simpl;
      [|exists (ER r); exact Hsame].
    rewrite (Fr eq_refl).
    destruct (includes_right_endpoint r); simpl;
      [|exists (ER r); exact Hsame].
    destruct (Version.truthy s); [exists (EV s) | exists (ER r)].
    + split; [reflexivity | exact I].
    + exact Hsame.
Qed.

(** The loop merges a run [merged] of overlapping elements and stops at
    the first element the merged version does not overlap. *)
Lemma merge_loop_spec (xs : list elem) :
  forall v : elem,
    wf_elem v -> Forall wf_elem xs ->
    exists v' merged rest,
      VersionList.merge_loop v xs = Ok (v', rest)
      /\ xs = merged ++ rest
      /\ wf_elem v'
      /\ (exists e, In e (v :: merged)
                    /\ Elem.lowest v' = Elem.lowest e)
      /\ (exists e, In e (v :: merged)
                    /\ Elem.highest v' = Elem.highest e)
      /\ covers v' v
      /\ (forall e, In e merged -> covers v' e)
      /\ (merged = [] -> v' = v)
      /\ match rest with
         | [] => True
         | x :: _ => Elem.overlaps v' x = false
         end.
Proof.
  induction xs as [|x xs IH]; intros v Wv Wxs; simpl.
  - exists v, [], [].
    split; [reflexivity|]. split; [reflexivity|]. split; [exact Wv|].
    split; [exists v; simpl; auto|]. split; [exists v; simpl; auto|].
    split; [apply covers_refl|]. split; [intros e0 []|].
    split; [reflexivity | exact I].
  - inversion Wxs as [|? ? Wx Wxs']; subst.
    destruct (Elem.overlaps v x) eqn:Hov.
    + destruct (elem_union_overlapping _ _ Wv Wx Hov)
        as (u & Hu & Wu & Hlo & Hhi & Cv & Cx).
      rewrite Hu. simpl.
      destruct (IH u Wu Wxs')
        as (v' & merged & rest & Hm & Hxs & Wv' & (e1 & I1 & L1)
            & (e2 & I2 & L2) & Cu & Cm & _ & Hrest).
      exists v', (x :: merged), rest. rewrite Hm.
      split; [reflexivity|]. split; [simpl; now rewrite Hxs|].
      split; [exact Wv'|].
      split.
      { destruct I1 as [<-|I1].
        - destruct Hlo as [Hlo|Hlo]; rewrite L1, Hlo.
          + exists v. simpl. auto.
          + exists x. simpl. auto.
        - exists e1. simpl. auto. }
      split.
      { destruct I2 as [<-|I2].
        - destruct Hhi as [Hhi|Hhi]; rewrite L2, Hhi.
          + exists v. simpl. auto.
          + exists x. simpl. auto.
        - exists e2. simpl. auto. }
      split; [eapply covers_trans; eauto|].
      split.
      { intros e [<-|He]; [eapply covers_trans; eauto | auto]. }
      split; [discriminate | exact Hrest].
    + exists v, [], (x :: xs).
      split; [reflexivity|]. split; [reflexivity|]. split; [exact Wv|].
      split; [exists v; simpl; auto|]. split; [exists v; simpl; auto|].
      split; [apply covers_refl|]. split; [intros e0 []|].
      split; [reflexivity | exact Hov].
Qed.

End AddLoops.

(** ** [add] keeps a list canonical *)

Section AddCanonical.

Lemma pairwise_app (R : elem -> elem -> Prop) (l1 l2 : list elem) :
  pairwise R (l1 ++ l2)
  <-> pairwise R l1 /\ pairwise R l2
      /\ (forall a b, In a l1 -> In b l2 -> R a b).
Proof.
  induction l1 as [|x l1 IH]; simpl.
  - split; [intros H; repeat split; auto; intros a b [] | tauto].
  - rewrite Forall_app, IH. split.
    + intros ((F1 & F2) & P1 & P2 & X). repeat split; auto.
      intros a b [<-|Ha] Hb; [|now apply X].
      rewrite Forall_forall in F2. now apply F2.
    + intros ((F1 & P1) & P2 & X). repeat split; auto.
      apply Forall_forall. intros b Hb. apply X; auto.
Qed.


Lemma rev_firstn_last (l : list elem) (i : nat) (x : elem) (r : list elem) :
  (i <= List.length l)%nat ->
  rev (firstn i l) = x :: r -> nth_error l (i - 1) = Some x /\ i <> 0%nat.
Proof.
  intros Hil H. assert (firstn i l = rev r ++ [x]) as Hf.
  { rewrite <- (rev_involutive (firstn i l)), H. reflexivity. }
  assert (i <> 0%nat) as Hi by (intros ->; destruct (rev r); discriminate).
  split; [|exact Hi].
  assert (List.length (firstn i l) = S (List.length r)) as Hlen.
  { rewrite Hf, length_app, length_rev. simpl. lia. }
  pose proof (firstn_le_length i l) as Hle.
  assert (List.length (firstn i l) = i) as Hlen'.
  { rewrite length_firstn in *. lia. }
  rewrite <- (firstn_skipn i l), nth_error_app1 by lia.
  rewrite Hf, nth_error_app2; rewrite length_rev; [|lia].
  replace (i - 1 - List.length r)%nat with 0%nat by lia. reflexivity.
Qed.

Lemma skipn_head (l : list elem) (i : nat) (y : elem) (r : list elem) :
  skipn i l = y :: r ->
  nth_error l i = Some y /\ i <> List.length l.
Proof.
  intros H. split.
  - rewrite <- (firstn_skipn i l) at 1. rewrite H.
    assert (List.length (firstn i l) = i) as Hlen.
    { rewrite length_firstn. apply Nat.min_l.
      destruct (Nat.le_gt_cases i (List.length l)) as [Hle|Hgt]; auto.
      rewrite skipn_all2 in H by lia. discriminate. }
    rewrite nth_error_app2 by lia. rewrite Hlen, Nat.sub_diag. reflexivity.
  - intros ->. rewrite skipn_all in H. discriminate.
Qed.

Lemma add_elem_canonical (L : list elem) (v : elem) :
  canonical L -> wf_elem v ->
  exists L', VersionList.add_elem L v = Ok L' /\ canonical L'.
Proof.
  intros [WL PL] Wv. unfold VersionList.add_elem.
  destruct (normalize_wf v Wv) as (v0 & Hn & Wv0). rewrite Hn. simpl.
  destruct (bisect_left_spec L v0) as (Hi & Hleft & Hright).
  set (i := VersionList.bisect_left L v0) in *.
  assert (Forall wf_elem (firstn i L) /\ Forall wf_elem (skipn i L))
    as [WA WB].
  { rewrite <- Forall_app, firstn_skipn. exact WL. }
  destruct (merge_loop_spec (rev (firstn i L)) v0 Wv0)
    as (v1 & m1 & r1 & H1 & Hrev & Wv1 & (e1 & I1 & L1) & _
        & _ & Cm1 & Hm1 & Hr1).
  { now apply Forall_rev. }
  rewrite H1. simpl.
  destruct (merge_loop_spec (skipn i L) v1 Wv1 WB)
    as (v2 & m2 & r2 & H2 & HB & Wv2 & (e2 & I2 & L2) & _
        & _ & Cm2 & Hm2 & Hr2).
  rewrite H2. simpl.
  exists (rev r1 ++ v2 :: r2). split; [reflexivity|].
  assert (firstn i L = rev r1 ++ rev m1) as HA.
  { rewrite <- (rev_involutive (firstn i L)), Hrev, rev_app_distr.
    reflexivity. }
  assert (L = (rev r1 ++ rev m1) ++ (m2 ++ r2)) as HL.
  { rewrite <- HA, <- HB. symmetry. apply firstn_skipn. }
  assert (Forall wf_elem (rev r1) /\ Forall wf_elem (rev m1)) as [Wr1 Wm1].
  { rewrite <- Forall_app, <- HA. exact WA. }
  assert (Forall wf_elem m2 /\ Forall wf_elem r2) as [Wm2 Wr2].
  { rewrite <- Forall_app, <- HB. exact WB. }
  rewrite HL in PL.
  apply pairwise_app in PL. destruct PL as (PA & PB & X2).
  apply pairwise_app in PA. destruct PA as (Pr1 & _ & X1).
  apply pairwise_app in PB. destruct PB as (_ & Pr2 & X3).
  rewrite Forall_forall in Wr1, Wm1, Wm2, Wr2.
  assert (forall x, In x r1 -> wf_elem x) as Wr1'.
  { intros x Hx. apply Wr1. now rewrite <- in_rev. }
  assert (forall x, In x m1 -> wf_elem x) as Wm1'.
  { intros x Hx. apply Wm1. now rewrite <- in_rev. }
  assert (forall a b, In a r1 -> In b m1 -> ebefore a b = true) as X1'.
  { intros a b Ha Hb. apply X1; now rewrite <- in_rev. }
  assert (forall a b, In a r1 \/ In a m1 -> In b m2 \/ In b r2 ->
                      ebefore a b = true) as X2'.
  { intros a b Ha Hb. apply X2; apply in_or_app; rewrite <- ?in_rev; auto. }
  clear Wr1 Wm1 X1 X2.
  (* the elements left before the index are before [v1] *)
  assert (forall x, In x r1 -> ebefore x v1 = true) as B1.
  { destruct r1 as [|x1 r1']; [intros x []|].
    assert (wf_elem x1) as Wx1 by (apply Wr1'; simpl; auto).
    assert (ebefore x1 v1 = true) as Hx1.
    { rewrite elem_overlaps_before in Hr1.
      destruct (ebefore x1 v1) eqn:E; [reflexivity|]. exfalso.
      simpl in Hr1. apply negb_false_iff in Hr1.
      destruct m1 as [|e m1'].
      - rewrite (Hm1 eq_refl) in Hr1. simpl in Hrev.
        destruct (rev_firstn_last _ _ _ _ Hi Hrev) as [Hnth Hi0].
        destruct Hleft as [Hz|(y & Hy & Hlt)]; [contradiction|].
        rewrite Hnth in Hy. inversion Hy; subst y.
        destruct (ebefore_lt _ _ Wv0 Wx1 Hr1). congruence.
      - assert (ebefore e x1 = true) as He.
        { destruct (Cm1 e (or_introl eq_refl)) as [Ch _].
          apply Ch. exact Hr1. }
        apply (ebefore_asym x1 e); auto.
        + apply Wm1'. simpl. auto.
        + apply X1'; simpl; auto. }
    intros x [<-|Hx]; [exact Hx1|].
    simpl in Pr1. apply pairwise_app in Pr1. destruct Pr1 as (_ & _ & X).
    apply (ebefore_trans x x1 v1); auto.
    apply X; [now rewrite <- in_rev | simpl; auto]. }
  (* the elements left after the index are after [v2] *)
  assert (forall y, In y r2 -> ebefore v2 y = true) as F1.
  { destruct r2 as [|y1 r2']; [intros y []|].
    assert (wf_elem y1) as Wy1 by (apply Wr2; simpl; auto).
    assert (ebefore v2 y1 = true) as Hy1.
    { rewrite elem_overlaps_before in Hr2.
      destruct (ebefore v2 y1) eqn:E; [reflexivity|]. exfalso.
      rewrite andb_true_r in Hr2. apply negb_false_iff in Hr2.
      destruct m2 as [|e m2'].
      - rewrite (Hm2 eq_refl) in Hr2. simpl in HB.
        destruct (skipn_head _ _ _ _ HB) as [Hnth Hin].
        destruct Hright as [Hz|(y & Hy & Hlt)]; [contradiction|].
        rewrite Hnth in Hy. inversion Hy; subst y.
        unfold ebefore in Hr2. rewrite L1 in Hr2.
        destruct I1 as [<-|I1].
        + destruct (ebefore_lt _ _ Wy1 Wv0 Hr2). congruence.
        + apply (ebefore_asym e1 y1); auto.
          apply X2'; simpl; auto.
      - assert (ebefore y1 e = true) as He.
        { destruct (Cm2 e (or_introl eq_refl)) as [_ Cl].
          apply Cl. exact Hr2. }
        apply (ebefore_asym e y1); auto.
        + apply Wm2. simpl. auto.
        + apply X3; simpl; auto. }
    intros y [<-|Hy]; [exact Hy1|].
    simpl in Pr2. destruct Pr2 as [F _]. rewrite Forall_forall in F.
    apply (ebefore_trans v2 y1 y); auto. }
  (* the elements left before the index are before [v2] *)
  assert (forall x, In x r1 -> ebefore x v2 = true) as F2.
  { intros x Hx. unfold ebefore. rewrite L2.
    destruct I2 as [<-|I2]; [now apply B1 | apply X2'; auto]. }
  split.
  - apply Forall_app. split.
    + apply Forall_forall. intros x Hx. apply Wr1'. now rewrite in_rev.
    + constructor; [exact Wv2 | now apply Forall_forall].
  - apply pairwise_app. split; [exact Pr1|]. split.
    + simpl. split; [now apply Forall_forall | exact Pr2].
    + intros a b Ha [<-|Hb].
      * apply F2. now rewrite in_rev.
      * apply X2'; auto. left. now rewrite in_rev.
Qed.

End AddCanonical.

Section CanonicalLists.








End CanonicalLists.

(** ** [VersionRange.union] *)

Section RangeUnion.



Lemma make_inv (a b : option Version) (u : VersionRange) :
  VersionRange.make a b = Ok u -> u = mkRange a b true true.
Proof.
  unfold VersionRange.make, VersionRange.__init__.
  destruct (match a, b with
            | Some s, Some e =>
                Version.truthy s && Version.truthy e && Version.__lt__ e s
            | _, _ => false
            end); [discriminate|].
  destruct a, b; simpl; intros H; inversion H; reflexivity.
Qed.



(** [normalize] keeps the bounds of an element, up to [==]. *)
Lemma normalize_bounds (v v0 : elem) :
  VersionList.normalize v = Ok v0 ->
  Elem.lowest v0 = Elem.lowest v
  /\ (forall c, obefore (Elem.highest v0) c = obefore (Elem.highest v) c).
Proof.
  unfold VersionList.normalize. destruct v as [x|r]; simpl.
  - destruct (Version.truthy x); intros H; inversion H; auto.
  - unfold VersionRange.concrete.
    destruct (opt_eq (start r) (end_ r)) eqn:E; simpl;
      [|intros H; inversion H; auto].
    destruct (start r) as [s|] eqn:Es; simpl;
      [|intros H; inversion H; auto].
    destruct (includes_left_endpoint r || includes_right_endpoint r);
      simpl; [|intros H; inversion H; auto].
    destruct (assert _); simpl; [|discriminate].
    destruct (Version.truthy s); intros H; inversion H; subst; simpl;
      auto.
    unfold VersionRange.lowest, VersionRange.highest. rewrite Es.
    split; [reflexivity|].
    destruct (end_ r) as [e|]; [|discriminate]. simpl in E.
    apply tuple_eqb_eq in E. intros [c|]; simpl; [|reflexivity].
    now rewrite E.
Qed.


End RangeUnion.

Section RangeUnionClaim.













(** [is_predecessor] compares the last items only, so [union] also merges
    ["1.0:1.5"] and ["2.6:3.0"], and on ["1.6:2.6"] and ["0.7:1.5"], where
    the end of the second is the immediate predecessor of the start of the
    first, its first test builds a range from [1.6] to [1.5] and the
    constructor raises. *)
Example union_compares_last_items_only :
  range_union (range_of "1.0" "1.5") (range_of "2.6" "3.0")
  = Ok (ORange (range_of "1.0" "3.0"))
  /\ range_union (range_of "1.6" "2.6") (range_of "0.7" "1.5")
     = Raise AttributeError.
Proof. split; reflexivity. Qed.




End RangeUnionClaim.

(** ** Strings of valid characters *)

Section PlainStrings.

Lemma valid_char_not_special (c : ascii) :
  valid_char c = true ->
  is_space c = false
  /\ Ascii.eqb c " " = false /\ Ascii.eqb c "," = false
  /\ Ascii.eqb c ":" = false /\ Ascii.eqb c "{" = false
  /\ Ascii.eqb c "}" = false.
Proof.
  destruct c as [[] [] [] [] [] [] [] []]; vm_compute; intros H;
    try discriminate; repeat split.
Qed.

Lemma all_valid_mem (s : string) (c : ascii) :
  all_valid s = true -> valid_char c = false -> string_mem c s = false.
Proof.
  intros Hs Hc. induction s as [|d s IH]; simpl in *; [reflexivity|].
  apply andb_true_iff in Hs. destruct Hs as [Hd Hs].
  rewrite (IH Hs), orb_false_r.
  destruct (Ascii.eqb_spec d c); [congruence|reflexivity].
Qed.

Lemma all_valid_remove_spaces (s : string) :
  all_valid s = true -> remove_spaces s = s.
Proof.
  unfold remove_spaces. induction s as [|d s IH]; simpl; [reflexivity|].
  intros [Hd Hs]%andb_true_iff.
  destruct (valid_char_not_special d Hd) as (_ & -> & _). simpl.
  now rewrite IH.
Qed.

Lemma string_app_assoc (a b c : string) : (a +++ b) +++ c = a +++ b +++ c.
Proof. induction a as [|x a IH]; simpl; [reflexivity|now rewrite IH]. Qed.

Lemma string_app_nil_r (a : string) : a +++ EmptyString = a.
Proof. induction a as [|x a IH]; simpl; [reflexivity|now rewrite IH]. Qed.

Lemma string_rev_append_app (s acc : string) :
  string_rev_append s acc = string_rev_append s EmptyString +++ acc.
Proof.
  revert acc. induction s as [|c s IH]; intros acc; simpl; [reflexivity|].
  rewrite IH, (IH (String c EmptyString)).
  now rewrite string_app_assoc.
Qed.

Lemma string_rev_involutive (s : string) : string_rev (string_rev s) = s.
Proof.
  unfold string_rev.
  assert (forall t acc,
             string_rev_append (string_rev_append t acc) EmptyString
             = string_rev_append acc EmptyString +++ t) as H.
  { induction t as [|c t IH]; intros acc; simpl.
    - now rewrite string_app_nil_r.
    - rewrite IH. simpl. rewrite (string_rev_append_app acc).
      now rewrite string_app_assoc. }
  apply H.
Qed.

Lemma all_valid_rev_append (s acc : string) :
  all_valid s = true -> all_valid acc = true ->
  all_valid (string_rev_append s acc) = true.
Proof.
  revert acc. induction s as [|c s IH]; intros acc; simpl; [auto|].
  intros [Hc Hs]%andb_true_iff Hacc. apply IH; [exact Hs|].
  simpl. now rewrite Hc.
Qed.

Lemma all_valid_lstrip (s : string) : all_valid s = true -> lstrip s = s.
Proof.
  destruct s as [|c s]; simpl; [reflexivity|].
  intros [Hc _]%andb_true_iff.
  now destruct (valid_char_not_special c Hc) as (-> & _).
Qed.

Lemma all_valid_strip (s : string) : all_valid s = true -> strip s = s.
Proof.
  intros H. unfold strip. rewrite (all_valid_lstrip _ H).
  rewrite all_valid_lstrip.
  - apply string_rev_involutive.
  - unfold string_rev. now apply all_valid_rev_append.
Qed.

(** The string of a constructed version is not empty. *)
Lemma lstrip_keeps_nonspace (s : string) :
  string_filter (fun c => negb (is_space c)) s <> EmptyString ->
  string_filter (fun c => negb (is_space c)) (lstrip s) <> EmptyString.
Proof.
  induction s as [|c s IH]; simpl; [auto|].
  destruct (is_space c) eqn:E; simpl; [exact IH|].
  rewrite E. simpl. discriminate.
Qed.

Lemma rev_append_keeps_nonspace (s acc : string) :
  string_filter (fun c => negb (is_space c)) s <> EmptyString
  \/ string_filter (fun c => negb (is_space c)) acc <> EmptyString ->
  string_filter (fun c => negb (is_space c)) (string_rev_append s acc)
  <> EmptyString.
Proof.
  revert acc. induction s as [|c s IH]; intros acc; simpl.
  - intros [H|H]; [contradiction|exact H].
  - intros H. apply IH. simpl.
    destruct (is_space c); simpl in *; [exact H|right; discriminate].
Qed.

Lemma strip_nonempty (c : ascii) (s : string) :
  is_space c = false -> strip (String c s) <> EmptyString.
Proof.
  intros Hc. unfold strip, string_rev.
  assert (forall t, string_filter (fun c => negb (is_space c)) t
                    <> EmptyString -> t <> EmptyString) as Hne.
  { intros t H ->. now apply H. }
  apply Hne, rev_append_keeps_nonspace. left.
  apply lstrip_keeps_nonspace, rev_append_keeps_nonspace. left.
  apply lstrip_keeps_nonspace. simpl. rewrite Hc. discriminate.
Qed.

(** The constructor returns a plain version when given its string. *)
Lemma init_own_string (v : Version) :
  plain_version v -> Version.__init__ (string_ v) = Ok v.
Proof.
  intros [[s0 H0] Hv]. unfold Version.__init__ in H0.
  destruct (re_match_VALID_VERSION s0) eqn:Em; simpl in H0; [|discriminate].
  inversion H0 as [Hv0]. clear H0. rewrite <- Hv0 in Hv. simpl in Hv.
  simpl.
  assert (strip s0 <> EmptyString) as Hne.
  { destruct s0 as [|c s0]; [discriminate|]. simpl in Em.
    apply strip_nonempty.
    now destruct (valid_char_not_special c Em) as (-> & _). }
  unfold Version.__init__.
  assert (re_match_VALID_VERSION (strip s0) = true) as ->.
  { destruct (strip s0) as [|c s]; [contradiction|]. simpl in *.
    now apply andb_true_iff in Hv. }
  simpl. now rewrite (all_valid_strip _ Hv).
Qed.

End PlainStrings.

(** ** Parsing what [__str__] prints *)

Section ParsePrinted.

Lemma string_mem_app (c : ascii) (a b : string) :
  string_mem c (a +++ b) = string_mem c a || string_mem c b.
Proof.
  induction a as [|x a IH]; simpl; [reflexivity|].
  now rewrite IH, orb_assoc.
Qed.

Lemma remove_spaces_app (a b : string) :
  remove_spaces (a +++ b) = remove_spaces a +++ remove_spaces b.
Proof.
  unfold remove_spaces. induction a as [|x a IH]; simpl; [reflexivity|].
  destruct (negb (Ascii.eqb x " ")); simpl; now rewrite IH.
Qed.

Lemma split_on_nomem (sep : ascii) (s : string) :
  string_mem sep s = false -> split_on sep s = [s].
Proof.
  induction s as [|c s IH]; simpl; [reflexivity|].
  intros [Hc Hs]%orb_false_iff. rewrite Hc, (IH Hs). reflexivity.
Qed.

Lemma split_on_app (sep : ascii) (a b : string) :
  string_mem sep a = false ->
  split_on sep (a +++ String sep b) = a :: split_on sep b.
Proof.
  induction a as [|c a IH]; simpl.
  - intros _. now rewrite Ascii.eqb_refl.
  - intros [Hc Ha]%orb_false_iff. rewrite Hc, (IH Ha). reflexivity.
Qed.

Lemma plain_facts (v : Version) :
  plain_version v ->
  string_ v <> EmptyString
  /\ string_mem ":" (string_ v) = false
  /\ string_mem "," (string_ v) = false
  /\ remove_spaces (string_ v) = string_ v
  /\ Version.__format__ v = Ok (string_ v)
  /\ version_if (string_ v) = Ok (Some v).
Proof.
  intros P. pose proof (init_own_string v P) as Hi.
  destruct P as [_ Hv].
  assert (string_ v <> EmptyString) as Hne.
  { intros E. rewrite E in Hi. discriminate. }
  split; [exact Hne|].
  split; [now apply all_valid_mem|].
  split; [now apply all_valid_mem|].
  split; [now apply all_valid_remove_spaces|].
  split.
  - unfold Version.__format__, format_plain.
    rewrite !all_valid_mem by auto. reflexivity.
  - unfold version_if. destruct (string_ v); [contradiction|].
    now rewrite Hi.
Qed.

Lemma opt_eq_refl (o : option Version) : opt_eq o o = true.
Proof. destruct o; simpl; [apply tuple_eqb_refl|reflexivity]. Qed.

Lemma range_eq_refl (r : VersionRange) : VersionRange.__eq__ r r = true.
Proof.
  unfold VersionRange.__eq__. now rewrite !opt_eq_refl, !Bool.eqb_reflx.
Qed.

(** The string of a printable element is parsed back to [reparsed e]. *)
Lemma parse_elem_str (e : elem) :
  printable_elem e ->
  exists s,
    Elem.__str__ e = Ok s
    /\ piece_ok s
    /\ string_to_version_single s = Ok (obj_of_elem (reparsed e))
    /\ VersionList.ver_typed (obj_of_elem (reparsed e))
       = Ok (obj_of_elem (reparsed e)).
Proof.
  assert (forall v, plain_version v -> no_star v ->
                    piece_ok (string_ v)
                    /\ string_to_version_single (string_ v) = Ok (OVersion v)
                    /\ VersionList.ver_typed (OVersion v) = Ok (OVersion v))
    as Hversion.
  { intros v P S.
    destruct (plain_facts v P) as (Hne & Hc & Hm & Hr & _ & _).
    split; [split; assumption|]. split.
    - unfold string_to_version_single. rewrite Hc.
      now rewrite (init_own_string v P).
    - unfold VersionList.ver_typed. unfold no_star in S. now rewrite S. }
  destruct e as [v|r].
  - intros [P S]. exists (string_ v). split; [reflexivity|].
    now apply Hversion.
  - intros (Hmk & Ps & Pe & Hstar).
    pose proof (make_inv _ _ _ Hmk) as Hr.
    destruct r as [st en il ir]. simpl in Hmk, Ps, Pe, Hstar, Hr.
    inversion Hr; subst il ir. clear Hr.
    unfold Elem.__str__, VersionRange.__str__, reparsed, piece_ok.
    cbn [start end_ includes_left_endpoint includes_right_endpoint
         obj_of_elem].
    destruct (opt_eq st en) eqn:E.
    + destruct st as [s|].
      * exists (string_ s). split; [reflexivity|].
        apply Hversion; auto.
      * destruct en; [discriminate|]. exists ":". repeat split.
    + destruct st as [s|], en as [e|]; simpl; try discriminate.
      * destruct (plain_facts s Ps) as (_ & Hc1 & Hm1 & Hr1 & -> & Hv1).
        destruct (plain_facts e Pe) as (_ & Hc2 & Hm2 & Hr2 & -> & Hv2).
        simpl. exists (string_ s +++ ":" +++ string_ e).
        split; [reflexivity|]. split; [split|].
        -- rewrite !string_mem_app, Hm1, Hm2. reflexivity.
        -- rewrite !remove_spaces_app, Hr1, Hr2. reflexivity.
        -- split; [|reflexivity]. unfold string_to_version_single.
           rewrite string_mem_app. simpl. rewrite orb_true_r.
           rewrite split_on_app by exact Hc1.
           rewrite split_on_nomem by exact Hc2.
           rewrite Hv1, Hv2. simpl. now rewrite Hmk.
      * destruct (plain_facts s Ps) as (_ & Hc1 & Hm1 & Hr1 & -> & Hv1).
        simpl. exists (string_ s +++ ":").
        split; [reflexivity|]. split; [split|].
        -- rewrite !string_mem_app, Hm1. reflexivity.
        -- rewrite !remove_spaces_app, Hr1. reflexivity.
        -- split; [|reflexivity]. unfold string_to_version_single.
           rewrite string_mem_app. simpl. rewrite orb_true_r.
           rewrite split_on_app by exact Hc1.
           cbn [split_on version_if bind]. rewrite Hv1.
           cbn [bind]. now rewrite Hmk.
      * destruct (plain_facts e Pe) as (_ & Hc2 & Hm2 & Hr2 & -> & Hv2).
        simpl. exists (":" +++ string_ e).
        split; [reflexivity|]. split; [split|].
        -- simpl. exact Hm2.
        -- rewrite remove_spaces_app, Hr2. reflexivity.
        -- split; [|reflexivity]. unfold string_to_version_single.
           cbn [String.append string_mem orb Ascii.eqb Bool.eqb split_on].
           rewrite split_on_nomem by exact Hc2.
           cbn [version_if bind]. rewrite Hv2.
           cbn [bind]. now rewrite Hmk.
Qed.

End ParsePrinted.

(** ** Adding the elements of a canonical list again *)

Section ReAdd.

Lemma reparsed_bounds (e : elem) :
  Elem.lowest (reparsed e) = Elem.lowest e
  /\ (forall c, obefore (Elem.highest (reparsed e)) c
                = obefore (Elem.highest e) c).
Proof.
  destruct e as [v|r]; simpl; [auto|].
  destruct (opt_eq (start r) (end_ r)) eqn:E; [|auto].
  destruct (start r) as [s|] eqn:Es; [|auto]. simpl.
  unfold VersionRange.lowest, VersionRange.highest. rewrite Es.
  split; [reflexivity|].
  destruct (end_ r) as [e|]; [|discriminate]. simpl in E.
  apply tuple_eqb_eq in E. intros [c|]; simpl; [|reflexivity].
  now rewrite E.
Qed.

Lemma reparsed_ebefore (a b : elem) :
  ebefore (reparsed a) (reparsed b) = ebefore a b.
Proof.
  unfold ebefore. destruct (reparsed_bounds a) as [_ Ha].
  destruct (reparsed_bounds b) as [Lb _]. now rewrite Lb, Ha.
Qed.

Lemma reparsed_ebefore_right (a b : elem) :
  ebefore a (reparsed b) = ebefore a b.
Proof.
  unfold ebefore. destruct (reparsed_bounds b) as [Lb _]. now rewrite Lb.
Qed.

Lemma reparsed_wf (e : elem) : wf_elem e -> wf_elem (reparsed e).
Proof.
  destruct e as [v|r]; simpl; [auto|].
  destruct (opt_eq (start r) (end_ r)); [|auto].
  destruct (start r); simpl; auto.
Qed.

Lemma reparsed_normalize (e : elem) :
  VersionList.normalize (reparsed e) = Ok (reparsed e).
Proof.
  destruct e as [v|[st en il ir]];
    unfold reparsed, VersionList.normalize, Elem.concrete,
      VersionRange.concrete; simpl.
  - now destruct (Version.truthy v).
  - destruct st as [s|], en as [e|]; simpl; try reflexivity.
    destruct (Version.__eq__ s e) eqn:E; simpl.
    + now destruct (Version.truthy s).
    + now rewrite E.
Qed.

Lemma reparsed_eq (e : elem) :
  printable_elem e -> Elem.__eq__ (reparsed e) e = true.
Proof.
  destruct e as [v|[st en il ir]]; simpl.
  - intros _. apply tuple_eqb_refl.
  - intros (Hmk & _). apply make_inv in Hmk. inversion Hmk; subst il ir.
    destruct st as [s|], en as [e|]; simpl;
      try apply range_eq_refl.
    destruct (Version.__eq__ s e) eqn:E; [|apply range_eq_refl].
    unfold Elem.__eq__, coerced, VersionRange.__eq__. simpl.
    rewrite E. unfold Version.__eq__. now rewrite tuple_eqb_refl.
Qed.

Lemma merge_loop_no_overlap (v : elem) (xs : list elem) :
  match xs with
  | [] => True
  | x :: _ => Elem.overlaps v x = false
  end ->
  VersionList.merge_loop v xs = Ok (v, xs).
Proof. destruct xs as [|x xs]; simpl; [reflexivity|]. now intros ->. Qed.

(** An element that lies after every element of a canonical list is
    appended to it. *)
Lemma add_elem_append (L : list elem) (v : elem) :
  canonical L -> wf_elem v -> VersionList.normalize v = Ok v ->
  (forall x, In x L -> ebefore x v = true) ->
  VersionList.add_elem L v = Ok (L ++ [v]).
Proof.
  intros [WL _] Wv Hn Hb. unfold VersionList.add_elem. rewrite Hn. simpl.
  rewrite Forall_forall in WL.
  assert (VersionList.bisect_left L v = List.length L) as ->.
  { destruct (bisect_left_spec L v) as (_ & _ & [H|(y & Hy & Hlt)]);
      [exact H|].
    apply nth_error_In in Hy.
    destruct (ebefore_lt y v (WL y Hy) Wv (Hb y Hy)). congruence. }
  rewrite firstn_all, skipn_all.
  rewrite merge_loop_no_overlap.
  - simpl. now rewrite rev_involutive.
  - destruct (rev L) as [|x xs] eqn:E; [exact I|].
    rewrite elem_overlaps_before. rewrite Hb; [reflexivity|].
    apply in_rev. rewrite E. simpl. auto.
Qed.

Lemma canonical_app_one (L : list elem) (v : elem) :
  canonical L -> wf_elem v -> (forall x, In x L -> ebefore x v = true) ->
  canonical (L ++ [v]).
Proof.
  intros [WL PL] Wv Hb. split.
  - apply Forall_app. auto.
  - apply pairwise_app. repeat split; simpl; auto.
    intros a b Ha [<-|[]]. now apply Hb.
Qed.

(** [VersionList(string.split(','))] on the strings of a canonical list
    of printable elements appends [reparsed e] for each element [e]. *)
Lemma init_strings_readds (l : list elem) :
  forall acc,
    Forall printable_elem l -> Forall wf_elem l ->
    pairwise (fun a b => ebefore a b = true) l ->
    canonical acc ->
    (forall a b, In a acc -> In b l -> ebefore a b = true) ->
    exists ss,
      VersionList.strs l = Ok ss
      /\ Forall piece_ok ss
      /\ List.length ss = List.length l
      /\ init_strings acc ss = Ok (acc ++ map reparsed l).
Proof.
  induction l as [|e l IH]; intros acc Pl Wl Sl Cacc Hx; simpl.
  - exists []. rewrite app_nil_r. repeat split; auto.
  - inversion Pl as [|? ? Pe Pl']; subst.
    inversion Wl as [|? ? We Wl']; subst.
    destruct Sl as [Fe Sl'].
    destruct (parse_elem_str e Pe) as (s & Hs & Hok & Hp & Hv).
    rewrite Hs. simpl.
    assert (VersionList.add acc (obj_of_elem (reparsed e))
            = Ok (acc ++ [reparsed e])) as Hadd.
    { assert (VersionList.add acc (obj_of_elem (reparsed e))
              = VersionList.add_elem acc (reparsed e)) as ->
          by (now destruct (reparsed e)).
      apply add_elem_append; auto using reparsed_wf, reparsed_normalize.
      intros x Hin. rewrite reparsed_ebefore_right. apply Hx; simpl; auto. }
    destruct (IH (acc ++ [reparsed e]) Pl' Wl' Sl') as (ss & H1 & H2 & H3 & H4).
    + apply canonical_app_one; auto using reparsed_wf.
      intros x Hin. rewrite reparsed_ebefore_right. apply Hx; simpl; auto.
    + intros a b Ha Hb. apply in_app_or in Ha. destruct Ha as [Ha|[<-|[]]].
      * apply Hx; simpl; auto.
      * destruct (reparsed_bounds e) as [_ Hh]. unfold ebefore.
        rewrite Hh. rewrite Forall_forall in Fe. now apply Fe.
    + exists (s :: ss). rewrite H1. simpl.
      split; [reflexivity|]. split; [constructor; auto|].
      split; [now rewrite H3|].
      unfold ver_piece. destruct Hok as [_ Hrs]. rewrite Hrs, Hp. simpl.
      rewrite Hv. simpl. rewrite Hadd. simpl.
      rewrite H4, <- app_assoc. reflexivity.
Qed.

Lemma join_pieces (ss : list string) :
  Forall piece_ok ss -> ss <> [] ->
  split_on "," (join "," ss) = ss
  /\ remove_spaces (join "," ss) = join "," ss
  /\ string_mem "," (join "," ss)
     = match ss with
       | [_] => false
       | _ => true
       end.
Proof.
  induction ss as [|p ss IH]; intros F Hne; [contradiction|].
  inversion F as [|? ? [Hc Hr] F']; subst.
  destruct ss as [|q ss].
  - simpl. auto using split_on_nomem.
  - destruct IH as (I1 & I2 & I3); [exact F'|discriminate|].
    change (join "," (p :: q :: ss))
      with (p +++ String "," (join "," (q :: ss))).
    rewrite split_on_app by exact Hc. rewrite I1.
    rewrite remove_spaces_app, Hr.
    change (remove_spaces (String "," (join "," (q :: ss))))
      with (String "," (remove_spaces (join "," (q :: ss)))).
    rewrite I2, string_mem_app. simpl. rewrite orb_true_r. auto.
Qed.

Lemma list_eq_reparsed (l : list elem) :
  Forall printable_elem l -> VersionList.__eq__ (map reparsed l) l = true.
Proof.
  induction 1 as [|e l Pe _ IH]; simpl; [reflexivity|].
  now rewrite (reparsed_eq e Pe), IH.
Qed.

End ReAdd.

Section RoundTrip.

Lemma obj_eq_elems (a b : elem) :
  obj_eq (obj_of_elem a) (obj_of_elem b) = Ok (Elem.__eq__ a b).
Proof. destruct a, b; reflexivity. Qed.

Lemma ver_of_piece (s : string) (o : version_obj) :
  piece_ok s -> string_to_version_single s = Ok o ->
  VersionList.ver_typed o = Ok o -> ver s = Ok o.
Proof.
  intros [Hc Hr] Hp Hv. unfold ver, _string_to_version.
  rewrite Hr, Hc, Hp. simpl. exact Hv.
Qed.

Lemma canonical_nil : canonical [].
Proof. split; [constructor | exact I]. Qed.

Lemma round_trip_elem (e : elem) :
  printable_elem e -> round_trips (obj_of_elem e).
Proof.
  intros P. destruct (parse_elem_str e P) as (s & Hs & Hok & Hp & Hv).
  exists s, (obj_of_elem (reparsed e)). split.
  - destruct e; exact Hs.
  - split; [now apply ver_of_piece|].
    rewrite obj_eq_elems. now rewrite reparsed_eq.
Qed.

Lemma round_trip_list (l : list elem) :
  l <> [] -> canonical l -> Forall printable_elem l ->
  round_trips (OList l).
Proof.
  intros Hne [WL PL] P.
  destruct (init_strings_readds l [] P WL PL canonical_nil)
    as (ss & Hss & Fok & Hlen & Hinit); [intros a b []|].
  simpl in Hinit.
  assert (ss <> []) as Hss_ne.
  { intros ->. destruct l; [contradiction|discriminate]. }
  destruct (join_pieces ss Fok Hss_ne) as (J1 & J2 & J3).
  exists (join "," ss).
  destruct l as [|e [|e2 l']]; [contradiction| |].
  - (* one element: its string holds no comma *)
    destruct ss as [|s [|s2 ss']]; try discriminate.
    inversion P as [|? ? Pe _]; subst.
    destruct (parse_elem_str e Pe) as (s' & Hs & Hok & Hp & Hv).
    simpl in Hss. rewrite Hs in Hss. simpl in Hss. inversion Hss; subst s'.
    exists (obj_of_elem (reparsed e)). simpl.
    split; [unfold VersionList.__str__; simpl; now rewrite Hs|].
    split; [now apply ver_of_piece|].
    assert (VersionList.coerce (obj_of_elem (reparsed e))
            = Ok [reparsed e]) as Hco.
    { assert (VersionList.coerce (obj_of_elem (reparsed e))
              = VersionList.__init__ [obj_of_elem (reparsed e)]) as ->
          by (now destruct (reparsed e)).
      unfold VersionList.__init__. simpl. rewrite Hv. simpl.
      assert (VersionList.add [] (obj_of_elem (reparsed e))
              = VersionList.add_elem [] (reparsed e)) as ->
          by (now destruct (reparsed e)).
      rewrite add_elem_append;
        [reflexivity | apply canonical_nil | | apply reparsed_normalize
        | intros x []].
      inversion WL; subst. now apply reparsed_wf. }
    assert (obj_eq (obj_of_elem (reparsed e)) (OList [e])
            = (x <- VersionList.coerce (obj_of_elem (reparsed e)) ;;
               Ok (VersionList.__eq__ x [e]))) as ->
        by (now destruct (reparsed e)).
    rewrite Hco. simpl. now rewrite (reparsed_eq e Pe).
  - (* several elements: the string is split at the commas *)
    destruct ss as [|s [|s2 ss']]; try discriminate.
    exists (OList (map reparsed (e :: e2 :: l'))).
    split; [unfold obj_str, VersionList.__str__; now rewrite Hss|].
    split.
    + unfold ver, _string_to_version. rewrite J2, J3, J1, Hinit.
      reflexivity.
    + unfold obj_eq. cbn [VersionList.coerce bind].
      now rewrite (list_eq_reparsed _ P).
Qed.

(** C8 as stated, counterexample: the range that [ver("1.2.*")] returns
    prints as ["1.2:!1.3"], which [ver] rejects (['!'] is no valid
    character of a version). *)
Lemma C8_counterexample_excluded_endpoint :
  let r := mkRange (Some (parsed "1.2")) (Some (parsed "1.3")) true false in
  ver "1.2.*" = Ok (ORange r)
  /\ obj_str (ORange r) = Ok "1.2:!1.3"
  /\ ver "1.2:!1.3" = Raise ValueError
  /\ ~ round_trips (ORange r).
Proof.
  repeat split; try reflexivity.
  intros (s & o & Hs & Hv & _).
  vm_compute in Hs. inversion Hs; subst s.
  vm_compute in Hv. discriminate.
Qed.

(** C8, amended.  Parsing the string of a value returns a value equal to
    it, for: a constructed version whose string holds valid characters only
    and no star component; a range with both ends included built from such
    versions (without a star component when it prints as one version); a
    non-empty, sorted and pairwise non-overlapping list of such versions
    and ranges with [start <= end]. *)
Theorem C8_round_trip (v : version_obj) :
  printable_obj v -> round_trips v.
Proof.
  destruct v as [x|r|l]; simpl.
  - apply (round_trip_elem (EV x)).
  - apply (round_trip_elem (ER r)).
  - intros (Hne & C & P). now apply round_trip_list.
Qed.

Lemma parsed_plain (s : string) :
  re_match_VALID_VERSION s = true -> all_valid (strip s) = true ->
  plain_version (parsed s).
Proof.
  intros Hm Hv. unfold parsed, plain_version, Version.__init__.
  rewrite Hm. simpl. split; [|exact Hv].
  exists s. unfold Version.__init__. now rewrite Hm.
Qed.

Lemma C8_round_trip_witness :
  round_trips (OList [ER (range_of "1.0" "2.0"); EV (parsed "3.0");
                      ER (mkRange (Some (parsed "4.1")) None true true)]).
Proof.
  apply C8_round_trip. simpl. split; [discriminate|]. split.
  - split.
    + repeat constructor; simpl; intros; reflexivity.
    + simpl. repeat constructor.
  - repeat constructor; simpl;
      try (apply parsed_plain; reflexivity);
      try reflexivity;
      intros s _ H; vm_compute in H; discriminate.
Defined.

End RoundTrip.

Section SatisfiesAndOverlaps.

(** On ranges with [start <= end] the prefix test of [satisfies] adds
    nothing to [overlaps], which tests the same prefix; [satisfies] is then
    symmetric, as [overlaps] is. *)
Lemma range_satisfies_overlaps (r s : VersionRange) :
  range_valid r -> range_valid s ->
  VersionRange.satisfies r s = VersionRange.overlaps r s.
Proof.
  intros Vr Vs. unfold VersionRange.satisfies.
  destruct (VersionRange.overlaps r s) eqn:Hov; [reflexivity|]. simpl.
  destruct (start r) as [ss|] eqn:Es; [|reflexivity].
  destruct (end_ s) as [oe|] eqn:Ee; [|reflexivity].
  rewrite Version_satisfies_prefix.
  destruct (is_prefix (version oe) (version ss)) eqn:Ep;
    [|now rewrite andb_false_r].
  exfalso. rewrite range_overlaps_before, Es, Ee in Hov.
  unfold range_valid in Vr, Vs. rewrite Es in Vr. rewrite Ee in Vs.
  simpl in Hov. unfold segs_before in Hov at 1. rewrite Ep in Hov.
  rewrite andb_false_r in Hov. simpl in Hov.
  apply negb_false_iff in Hov.
  destruct (end_ r) as [se|]; [|discriminate].
  destruct (start s) as [os|]; [|discriminate]. simpl in Hov.
  rewrite Version_lt_segs in Vr, Vs.
  pose proof (is_prefix_le _ _ Ep) as Hle.
  assert (segs_lt (version se) (version os) = false) as Hc.
  { eapply segs_le_trans; [exact Vs|].
    eapply segs_le_trans; [exact Hle|exact Vr]. }
  apply segs_before_lt in Hov. congruence.
Qed.

Lemma range_satisfies_sym (r s : VersionRange) :
  range_valid r -> range_valid s ->
  VersionRange.satisfies r s = VersionRange.satisfies s r.
Proof.
  intros Vr Vs. rewrite !range_satisfies_overlaps by assumption.
  apply range_overlaps_sym.
Qed.

(** What [VersionRange.__init__] checks of the ranges it returns. *)
Lemma constructed_ends (r : VersionRange) :
  constructed r ->
  forall s e, start r = Some s -> end_ r = Some e ->
              version s <> [] -> version e <> [] ->
              segs_lt (version e) (version s) = false.
Proof.
  intros (s0 & e0 & il & ir & H) s e Hs He Ns Ne.
  unfold VersionRange.__init__ in H.
  destruct s0 as [s1|], e0 as [e1|], il, ir; simpl in H;
    try discriminate;
    try (inversion H; subst r; simpl in *; discriminate).
  all: destruct (Version.truthy s1 && Version.truthy e1
                 && Version.__lt__ e1 s1) eqn:E; [discriminate|];
    inversion H; subst r; simpl in Hs, He;
    inversion Hs; inversion He; subst;
    rewrite (truthy_nonempty s Ns), (truthy_nonempty e Ne) in E;
    simpl in E; now rewrite <- Version_lt_segs.
Qed.

Lemma segs_before_nonempty (a b : list seg) :
  segs_before a b = true -> a <> [] /\ b <> [].
Proof.
  unfold segs_before. intros [L P]%andb_true_iff.
  apply negb_true_iff in P. split; intros ->.
  - discriminate.
  - destruct a; discriminate.
Qed.

(** On the ranges the constructor returns, the prefix test of [satisfies]
    adds nothing to [overlaps]. *)
Lemma constructed_satisfies_overlaps (r s : VersionRange) :
  constructed r -> constructed s ->
  VersionRange.satisfies r s = VersionRange.overlaps r s.
Proof.
  intros Cr Cs. unfold VersionRange.satisfies.
  destruct (VersionRange.overlaps r s) eqn:Hov; [reflexivity|]. simpl.
  destruct (start r) as [ss|] eqn:Es; [|reflexivity].
  destruct (end_ s) as [oe|] eqn:Ee; [|reflexivity].
  destruct (Version.truthy ss) eqn:Tss; [|reflexivity].
  destruct (Version.truthy oe) eqn:Toe; [|reflexivity]. simpl.
  rewrite Version_satisfies_prefix.
  destruct (is_prefix (version oe) (version ss)) eqn:Ep; [|reflexivity].
  exfalso. rewrite range_overlaps_before, Es, Ee in Hov.
  simpl in Hov. unfold segs_before in Hov at 1. rewrite Ep in Hov.
  rewrite andb_false_r in Hov. simpl in Hov.
  apply negb_false_iff in Hov.
  destruct (end_ r) as [se|] eqn:Er; [|discriminate].
  destruct (start s) as [os|] eqn:Eo; [|discriminate]. simpl in Hov.
  destruct (segs_before_nonempty _ _ Hov) as [Nse Nos].
  assert (version ss <> []) as Nss.
  { intros E. unfold Version.truthy, Version.__len__ in Tss.
    rewrite E in Tss. discriminate. }
  assert (version oe <> []) as Noe.
  { intros E. unfold Version.truthy, Version.__len__ in Toe.
    rewrite E in Toe. discriminate. }
  pose proof (constructed_ends r Cr ss se Es Er Nss Nse) as Vr.
  pose proof (constructed_ends s Cs os oe Eo Ee Nos Noe) as Vs.
  pose proof (is_prefix_le _ _ Ep) as Hle.
  assert (segs_lt (version se) (version os) = false) as Hc.
  { eapply segs_le_trans; [exact Vs|].
    eapply segs_le_trans; [exact Hle|exact Vr]. }
  apply segs_before_lt in Hov. congruence.
Qed.

(** C3.  The docstring of [satisfies] says that it is looser than
    [overlaps] and, unlike [overlaps], not symmetric.  On the ranges the
    constructor returns it is neither: [satisfies] returns what [overlaps]
    returns, in both directions, so ["4.7.3:4.8"] satisfies ["4.5:4.7"] as
    ["4.5:4.7"] satisfies ["4.7.3:4.8"].  And the prefix test is guarded by
    the truth value of the two versions, not by [is not None]: for
    ["1.0:1.5"] and ["2.0:."], where [s.end] is finite with no segment and
    so a prefix of [r.start], what C3 states holds and [satisfies] is
    false. *)
Theorem C3_range_satisfies_symmetric :
  ver "1.0:1.5" = Ok (ORange (range_of "1.0" "1.5"))
  /\ ver "2.0:." = Ok (ORange (range_of "2.0" "."))
  /\ satisfies_as_claimed (range_of "1.0" "1.5") (range_of "2.0" ".")
  /\ VersionRange.satisfies (range_of "1.0" "1.5") (range_of "2.0" ".")
     = false
  /\ VersionRange.satisfies (range_of "4.5" "4.7") (range_of "4.7.3" "4.8")
     = true
  /\ VersionRange.satisfies (range_of "4.7.3" "4.8") (range_of "4.5" "4.7")
     = true
  /\ (forall r s : VersionRange,
         constructed r -> constructed s ->
         VersionRange.satisfies r s = VersionRange.overlaps r s
         /\ VersionRange.satisfies r s = VersionRange.satisfies s r).
Proof.
  split; [reflexivity|]. split; [reflexivity|].
  split.
  { right. exists (parsed "1.0"), (parsed "."). repeat split. }
  split; [reflexivity|]. split; [reflexivity|]. split; [reflexivity|].
  intros r s Cr Cs. split.
  - exact (constructed_satisfies_overlaps r s Cr Cs).
  - rewrite (constructed_satisfies_overlaps r s Cr Cs),
            (constructed_satisfies_overlaps s r Cs Cr).
    apply range_overlaps_sym.
Qed.

End SatisfiesAndOverlaps.

(** * Further properties

    Properties of the methods that the sections above do not state. *)

Section OverlapSymmetry.

(** X1.  [overlaps] is symmetric on versions, on ranges and between a
    version and a range. *)
Theorem overlaps_symmetric :
  (forall x y : Version, Version.overlaps x y = Version.overlaps y x)
  /\ (forall r s : VersionRange,
        VersionRange.overlaps r s = VersionRange.overlaps s r)
  /\ (forall a b : elem, Elem.overlaps a b = Elem.overlaps b a).
Proof.
  split; [|split].
  - intros x y. rewrite !version_overlaps_before. apply andb_comm.
  - intros r s. rewrite !range_overlaps_before. apply andb_comm.
  - intros a b. rewrite !elem_overlaps_before. apply andb_comm.
Qed.

(** X2.  On two ranges with [start <= end], [satisfies] returns what
    [overlaps] returns, so it is symmetric. *)
Theorem range_satisfies_is_overlaps (r s : VersionRange) :
  range_valid r -> range_valid s ->
  VersionRange.satisfies r s = VersionRange.overlaps r s
  /\ VersionRange.satisfies r s = VersionRange.satisfies s r.
Proof.
  intros Hr Hs. split.
  - now apply range_satisfies_overlaps.
  - now apply range_satisfies_sym.
Qed.

Lemma range_satisfies_is_overlaps_witness :
  VersionRange.satisfies (range_of "1.2" "1.4") (range_of "1.5" "2")
  = VersionRange.overlaps (range_of "1.2" "1.4") (range_of "1.5" "2")
  /\ VersionRange.satisfies (range_of "1.2" "1.4") (range_of "1.5" "2")
     = VersionRange.satisfies (range_of "1.5" "2") (range_of "1.2" "1.4").
Proof. apply range_satisfies_is_overlaps; reflexivity. Defined.

End OverlapSymmetry.

Section RangeContains.

(** X3.  [VersionRange.__contains__] returns [True] for every operand that
    includes both of its endpoints, whatever the endpoints are: in
    [A and not B or C] the flag of [other] is the whole right operand of
    [or].  A [Version] is coerced to such a range, so [v in r] is [True]
    for every version [v] and every range [r]. *)
Theorem range_contains_inclusive_operand (self : VersionRange) (other : elem) :
  includes_left_endpoint (as_range other) = true ->
  includes_right_endpoint (as_range other) = true ->
  Elem.__contains__ (ER self) other = true.
Proof.
  intros Hl Hr.
  assert (VersionRange.__contains__ self (as_range other) = true) as H.
  { unfold VersionRange.__contains__. rewrite Hl, Hr.
    rewrite !orb_true_r. reflexivity. }
  destruct other; exact H.
Qed.

Lemma range_contains_inclusive_operand_witness :
  Elem.__contains__ (ER (range_of "5" "6")) (EV (parsed "1")) = true.
Proof. apply range_contains_inclusive_operand; reflexivity. Defined.

End RangeContains.

Section Predecessor.

Lemma last_item_ok (l : list seg) (x : seg) :
  Version.last_item l = Ok x <-> exists p, l = p ++ [x].
Proof.
  unfold Version.last_item. split.
  - destruct (rev l) as [|a r] eqn:E; [discriminate|].
    intros H. inversion H; subst a. exists (rev r).
    rewrite <- (rev_involutive l), E. reflexivity.
  - intros [p ->]. rewrite rev_app_distr. reflexivity.
Qed.

Lemma last_item_raises (l : list seg) (e : exn) :
  Version.last_item l = Raise e <-> l = [] /\ e = IndexError.
Proof.
  unfold Version.last_item. split.
  - destruct (rev l) as [|a r] eqn:E; [|discriminate].
    intros H. inversion H. split; [|reflexivity].
    rewrite <- (rev_involutive l), E. reflexivity.
  - intros [-> ->]. reflexivity.
Qed.

(** X4.  [is_predecessor] looks at the lengths and at the last items only:
    it is [True] exactly when the tuples have one length and end in the
    integers [n] and [n + 1]; it raises [IndexError] exactly when both
    tuples are empty; and it is never [True] in both directions. *)
Theorem is_predecessor_last_items (a b : Version) :
  (Version.is_predecessor a b = Ok true <->
   exists p q n, version a = p ++ [SInt n]
                 /\ version b = q ++ [SInt (n + 1)]
                 /\ List.length p = List.length q)
  /\ (raises (Version.is_predecessor a b) <->
      version a = [] /\ version b = [])
  /\ (Version.is_predecessor a b = Ok true ->
      Version.is_successor a b = Ok false).
Proof.
  assert (forall a b, Version.is_predecessor a b = Ok true ->
            exists p q n, version a = p ++ [SInt n]
                          /\ version b = q ++ [SInt (n + 1)]
                          /\ List.length p = List.length q) as Hfwd.
  { clear. intros a b. unfold Version.is_predecessor, Version.__len__.
    destruct (List.length (version a) =? List.length (version b))%nat eqn:El;
      simpl; [|discriminate].
    apply Nat.eqb_eq in El.
    destruct (Version.last_item (version a)) as [sl|e] eqn:Ea;
      simpl; [|discriminate].
    destruct (Version.last_item (version b)) as [ol|e] eqn:Eb;
      simpl; [|discriminate].
    apply last_item_ok in Ea, Eb. destruct Ea as [p Ea], Eb as [q Eb].
    destruct sl as [s|s], ol as [o|o]; try discriminate.
    intros H. inversion H as [H1]. apply Z.eqb_eq in H1.
    exists p, q, s. replace (s + 1) with o by lia.
    repeat split; auto.
    rewrite Ea, Eb, !length_app in El. simpl in El. lia. }
  assert (forall a b p q n, version a = p ++ [SInt n] ->
            version b = q ++ [SInt (n + 1)] ->
            List.length p = List.length q ->
            Version.is_predecessor a b = Ok true) as Hbwd.
  { clear. intros a b p q n Ea Eb El.
    unfold Version.is_predecessor, Version.__len__.
    rewrite Ea, Eb, !length_app, El, Nat.eqb_refl. simpl.
    rewrite (proj2 (last_item_ok (p ++ [SInt n]) (SInt n)))
      by (now exists p).
    rewrite (proj2 (last_item_ok (q ++ [SInt (n + 1)]) (SInt (n + 1))))
      by (now exists q).
    simpl. replace (n + 1 - n) with 1 by lia. reflexivity. }
  split; [|split].
  - split; [apply Hfwd|].
    intros (p & q & n & Ea & Eb & El). eapply Hbwd; eauto.
  - unfold Version.is_predecessor, Version.__len__.
    destruct (List.length (version a) =? List.length (version b))%nat eqn:El;
      simpl.
    + apply Nat.eqb_eq in El.
      destruct (Version.last_item (version a)) as [sl|e] eqn:Ea; simpl.
      * apply last_item_ok in Ea. destruct Ea as [p Ea].
        destruct (Version.last_item (version b)) as [ol|e] eqn:Eb; simpl.
        -- destruct sl, ol; simpl; split; try contradiction;
             intros [H _]; rewrite H in Ea; now destruct p.
        -- apply last_item_raises in Eb. destruct Eb as [Eb _].
           rewrite Ea, Eb, length_app in El. simpl in El. lia.
      * apply last_item_raises in Ea. destruct Ea as [Ea _].
        split; [intros _|intros _; exact I].
        split; [exact Ea|].
        rewrite Ea in El. simpl in El.
        destruct (version b); [reflexivity|discriminate].
    + split; [contradiction|]. intros [Ha Hb].
      rewrite Ha, Hb in El. discriminate.
  - intros H. destruct (Hfwd a b H) as (p & q & n & Ea & Eb & El).
    unfold Version.is_successor, Version.is_predecessor, Version.__len__.
    rewrite Ea, Eb, !length_app, El, Nat.eqb_refl. simpl.
    rewrite (proj2 (last_item_ok (p ++ [SInt n]) (SInt n)))
      by (now exists p).
    rewrite (proj2 (last_item_ok (q ++ [SInt (n + 1)]) (SInt (n + 1))))
      by (now exists q).
    simpl. replace (n - (n + 1) =? 1) with false; [reflexivity|].
    symmetry. apply Z.eqb_neq. lia.
Qed.

End Predecessor.

Section UnionAndIntersection.

(** What [covers] means for [overlaps]: an element that overlaps [e]
    overlaps every [u] that reaches as far as [e] on both sides. *)
Lemma covers_overlaps (u e c : elem) :
  covers u e -> Elem.overlaps e c = true -> Elem.overlaps u c = true.
Proof.
  intros [Hhi Hlo]. rewrite !elem_overlaps_before, !andb_true_iff.
  rewrite !negb_true_iff. intros [H1 H2]. split.
  - destruct (ebefore c u) eqn:E; [|reflexivity].
    unfold ebefore in *. apply Hlo in E. congruence.
  - destruct (ebefore u c) eqn:E; [|reflexivity].
    unfold ebefore in *. apply Hhi in E. congruence.
Qed.

(** The union of two overlapping elements overlaps nothing that neither
    of them overlaps. *)
Lemma union_overlaps_exact (a b u c : elem) :
  wf_elem c -> Elem.overlaps a b = true ->
  (Elem.lowest u = Elem.lowest a \/ Elem.lowest u = Elem.lowest b) ->
  (Elem.highest u = Elem.highest a \/ Elem.highest u = Elem.highest b) ->
  Elem.overlaps u c = true ->
  Elem.overlaps a c = true \/ Elem.overlaps b c = true.
Proof.
  intros Wc Hab Hl Hh Hu.
  destruct (Elem.overlaps a c) eqn:Ha; [auto|].
  destruct (Elem.overlaps b c) eqn:Hb; [auto|]. exfalso.
  rewrite elem_overlaps_before in Hab, Hu, Ha, Hb.
  apply andb_true_iff in Hab, Hu.
  destruct Hab as [Hab1 Hab2], Hu as [Hu1 Hu2].
  apply negb_true_iff in Hab1, Hab2, Hu1, Hu2.
  apply andb_false_iff in Ha, Hb.
  destruct Ha as [Ha|Ha], Hb as [Hb|Hb];
    apply negb_false_iff in Ha, Hb.
  - (* [c] is before both *)
    unfold ebefore in *. destruct Hl as [Hl|Hl]; rewrite Hl in Hu1;
      congruence.
  - (* [b] is before [c], which is before [a] *)
    rewrite (ebefore_trans b c a Wc Hb Ha) in Hab1. discriminate.
  - (* [a] is before [c], which is before [b] *)
    rewrite (ebefore_trans a c b Wc Ha Hb) in Hab2. discriminate.
  - (* both are before [c] *)
    unfold ebefore in *. destruct Hh as [Hh|Hh]; rewrite Hh in Hu2;
      congruence.
Qed.

(** X5.  The union of two overlapping elements is a single version or
    range, never a list; its ends are ends of the operands; and it
    overlaps exactly what one of the operands overlaps. *)
Theorem union_of_overlapping (a b : elem) :
  wf_elem a -> wf_elem b -> Elem.overlaps a b = true ->
  exists u,
    Elem.union a b = Ok (USingle u)
    /\ wf_elem u
    /\ (Elem.lowest u = Elem.lowest a \/ Elem.lowest u = Elem.lowest b)
    /\ (Elem.highest u = Elem.highest a \/ Elem.highest u = Elem.highest b)
    /\ (forall c, wf_elem c ->
                  (Elem.overlaps u c = true <->
                   Elem.overlaps a c = true \/ Elem.overlaps b c = true)).
Proof.
  intros Wa Wb Hov.
  destruct (elem_union_overlapping a b Wa Wb Hov)
    as (u & Hu & Wu & Hl & Hh & Ca & Cb).
  exists u. split; [exact Hu|]. split; [exact Wu|].
  split; [exact Hl|]. split; [exact Hh|].
  intros c Wc. split.
  - exact (union_overlaps_exact a b u c Wc Hov Hl Hh).
  - intros [H|H];
      [exact (covers_overlaps u a c Ca H) | exact (covers_overlaps u b c Cb H)].
Qed.

Lemma union_of_overlapping_witness :
  exists u,
    Elem.union (ER (range_of "1.2" "1.6")) (EV (parsed "1.6.3"))
    = Ok (USingle u)
    /\ wf_elem u
    /\ (Elem.lowest u = Elem.lowest (ER (range_of "1.2" "1.6"))
        \/ Elem.lowest u = Elem.lowest (EV (parsed "1.6.3")))
    /\ (Elem.highest u = Elem.highest (ER (range_of "1.2" "1.6"))
        \/ Elem.highest u = Elem.highest (EV (parsed "1.6.3")))
    /\ (forall c, wf_elem c ->
                  (Elem.overlaps u c = true <->
                   Elem.overlaps (ER (range_of "1.2" "1.6")) c = true
                   \/ Elem.overlaps (EV (parsed "1.6.3")) c = true)).
Proof.
  apply union_of_overlapping.
  - split; [reflexivity | intros _; reflexivity].
  - exact I.
  - reflexivity.
Defined.

(** X6.  Two versions of which one extends the other overlap, and their
    union is the shorter one, but their intersection is the empty list:
    [Version.intersection] tests [==] only. *)
Theorem version_intersection_of_extension (x y : Version) :
  version x <> version y -> is_prefix (version x) (version y) = true ->
  Elem.overlaps (EV x) (EV y) = true
  /\ Elem.union (EV x) (EV y) = Ok (USingle (EV x))
  /\ Elem.intersection (EV x) (EV y) = Ok IEmpty.
Proof.
  intros Hne Hp.
  assert (Version.__contains__ x y = true) as Hc
    by now rewrite Version_contains_prefix.
  assert (Version.__eq__ x y = false) as He.
  { unfold Version.__eq__. destruct (tuple_eqb _ _) eqn:E; [|reflexivity].
    apply tuple_eqb_eq in E. contradiction. }
  split; [|split].
  - unfold Elem.overlaps, coerced, Version.overlaps. rewrite Hc.
    apply orb_true_r.
  - unfold Elem.union, coerced, Elem.version_union, v_in.
    rewrite Hc, orb_true_r. reflexivity.
  - unfold Elem.intersection, coerced, Elem.version_intersection.
    now rewrite He.
Qed.

Lemma version_intersection_of_extension_witness :
  Elem.overlaps (EV (parsed "4.7")) (EV (parsed "4.7.3")) = true
  /\ Elem.union (EV (parsed "4.7")) (EV (parsed "4.7.3"))
     = Ok (USingle (EV (parsed "4.7")))
  /\ Elem.intersection (EV (parsed "4.7")) (EV (parsed "4.7.3")) = Ok IEmpty.
Proof.
  apply version_intersection_of_extension.
  - simpl. discriminate.
  - reflexivity.
Defined.

Lemma intersection_start_covers (ss os : Version) :
  let s' := if Version.__gt__ os ss || v_in os ss then Some os else Some ss in
  covers_lo (Some ss) s' /\ covers_lo (Some os) s'.
Proof.
  unfold covers_lo, obefore. rewrite v_in_prefix.
  unfold Version.__gt__, Version.__eq__. rewrite Version_lt_segs.
  destruct (negb (tuple_eqb (version os) (version ss))
            && negb (segs_lt (version os) (version ss))
            || is_prefix (version ss) (version os)) eqn:E.
  - split; [|intros c H; exact H].
    intros [c|] H; [|discriminate].
    apply (segs_before_le_trans _ _ _ H).
    apply orb_true_iff in E. destruct E as [E|E].
    + apply andb_true_iff in E. destruct E as [_ E2].
      now apply negb_true_iff in E2.
    + now apply is_prefix_le.
  - split; [intros c H; exact H|].
    intros [c|] H; [|discriminate].
    apply (segs_before_le_trans _ _ _ H).
    apply orb_false_iff in E. destruct E as [E _].
    apply andb_false_iff in E.
    destruct E as [E|E]; apply negb_false_iff in E.
    + apply tuple_eqb_eq in E. rewrite E. apply segs_lt_irrefl.
    + now apply segs_lt_le.
Qed.

Lemma intersection_end_covers (se oe : Version) :
  let e' :=
    if negb (v_in se oe) then
      if Version.__lt__ oe se || v_in oe se then Some oe else Some se
    else Some se in
  covers_hi (Some se) e' /\ covers_hi (Some oe) e'.
Proof.
  unfold covers_hi, obefore. rewrite !v_in_prefix, Version_lt_segs.
  destruct (is_prefix (version oe) (version se)) eqn:P1; simpl.
  - split; [intros c H; exact H|].
    intros [c|] H; [|discriminate].
    exact (segs_before_extension _ _ _ H P1).
  - destruct (segs_lt (version oe) (version se)) eqn:L; simpl.
    + split; [|intros c H; exact H].
      intros [c|] H; [|discriminate].
      apply (segs_le_before_trans _ _ _ (segs_lt_le _ _ L) H P1).
    + destruct (is_prefix (version se) (version oe)) eqn:P2.
      * split; [|intros c H; exact H].
        intros [c|] H; [|discriminate].
        exact (segs_before_extension _ _ _ H P2).
      * split; [intros c H; exact H|].
        intros [c|] H; [|discriminate].
        apply (segs_le_before_trans _ _ _ L H P2).
Qed.

(** [covers] read the other way: what overlaps [u] overlaps every [e]
    that reaches as far as [u]. *)
Lemma range_within_overlaps (r u c : VersionRange) :
  covers_hi (end_ r) (end_ u) -> covers_lo (start r) (start u) ->
  VersionRange.overlaps u c = true -> VersionRange.overlaps r c = true.
Proof.
  intros Hhi Hlo H.
  exact (covers_overlaps (ER r) (ER u) (ER c) (conj Hhi Hlo) H).
Qed.

(** What [VersionRange.intersection] returns. *)
Lemma range_intersection_spec (r s : VersionRange)
    (x : intersection_result) :
  VersionRange.intersection r s = Ok x ->
  (VersionRange.overlaps r s = false /\ x = IEmpty)
  \/ (VersionRange.overlaps r s = true
      /\ exists u,
           x = ISingle (ER u)
           /\ VersionRange.make (start u) (end_ u) = Ok u
           /\ includes_left_endpoint u = true
           /\ includes_right_endpoint u = true
           /\ (start u = start r \/ start u = start s)
           /\ (end_ u = end_ r \/ end_ u = end_ s)
           /\ forall c, VersionRange.overlaps u c = true ->
                        VersionRange.overlaps r c = true
                        /\ VersionRange.overlaps s c = true).
Proof.
  unfold VersionRange.intersection.
  destruct (VersionRange.overlaps r s) eqn:Hov.
  2:{ intros H. inversion H. left. auto. }
  set (s' := match start r with
             | None => start s
             | Some ss => _ end).
  set (e' := match end_ r with
             | None => end_ s
             | Some se => _ end).
  destruct (VersionRange.make s' e') as [u|e] eqn:Hm; simpl; [|discriminate].
  intros H. inversion H; subst x. clear H. right. split; [reflexivity|].
  pose proof Hm as Hm'.
  apply make_inv in Hm. subst u. exists (mkRange s' e' true true).
  assert (covers_lo (start r) s' /\ covers_lo (start s) s'
          /\ (s' = start r \/ s' = start s)) as (L1 & L2 & L3).
  { subst s'. destruct (start r) as [ss|], (start s) as [os|].
    - destruct (intersection_start_covers ss os) as [A B].
      split; [exact A|]. split; [exact B|].
      destruct (Version.__gt__ os ss || v_in os ss); auto.
    - split; [apply covers_lo_refl|]. split; [|auto].
      intros c Hc. destruct c; discriminate.
    - split; [|split; [apply covers_lo_refl | auto]].
      intros c Hc. destruct c; discriminate.
    - split; [apply covers_lo_refl|]. split; [apply covers_lo_refl|auto]. }
  assert (covers_hi (end_ r) e' /\ covers_hi (end_ s) e'
          /\ (e' = end_ r \/ e' = end_ s)) as (H1 & H2 & H3).
  { subst e'. destruct (end_ r) as [se|], (end_ s) as [oe|].
    - destruct (intersection_end_covers se oe) as [A B].
      split; [exact A|]. split; [exact B|].
      destruct (negb (v_in se oe)); auto.
      destruct (Version.__lt__ oe se || v_in oe se); auto.
    - split; [apply covers_hi_refl|]. split; [|auto].
      intros c Hc. discriminate.
    - split; [|split; [apply covers_hi_refl | auto]].
      intros c Hc. discriminate.
    - split; [apply covers_hi_refl|]. split; [apply covers_hi_refl|auto]. }
  simpl. split; [reflexivity|]. split; [exact Hm'|].
  repeat (split; [solve [auto]|]).
  intros c Hc. split.
  - exact (range_within_overlaps r (mkRange s' e' true true) c H1 L1 Hc).
  - exact (range_within_overlaps s (mkRange s' e' true true) c H2 L2 Hc).
Qed.

(** X7.  What [VersionRange.intersection] returns is the empty list when
    the ranges do not overlap, and otherwise a range with both endpoints
    included whose ends are ends of the operands and which lies within
    both: whatever overlaps it overlaps both operands. *)
Theorem range_intersection_within (r s : VersionRange)
    (x : intersection_result) :
  VersionRange.intersection r s = Ok x ->
  (VersionRange.overlaps r s = false /\ x = IEmpty)
  \/ (VersionRange.overlaps r s = true
      /\ exists u,
           x = ISingle (ER u)
           /\ includes_left_endpoint u = true
           /\ includes_right_endpoint u = true
           /\ (start u = start r \/ start u = start s)
           /\ (end_ u = end_ r \/ end_ u = end_ s)
           /\ forall c, VersionRange.overlaps u c = true ->
                        VersionRange.overlaps r c = true
                        /\ VersionRange.overlaps s c = true).
Proof.
  intros H. destruct (range_intersection_spec r s x H) as [H1|[H1 H2]].
  - left. exact H1.
  - right. split; [exact H1|].
    destruct H2 as (u & Hx & _ & Hrest). exists u. split; assumption.
Qed.

Lemma range_intersection_within_witness :
  (VersionRange.overlaps (range_of "1.2" "1.6") (range_of "1.4" "2") = false
   /\ ISingle (ER (range_of "1.4" "1.6")) = IEmpty)
  \/ (VersionRange.overlaps (range_of "1.2" "1.6") (range_of "1.4" "2") = true
      /\ exists u,
           ISingle (ER (range_of "1.4" "1.6")) = ISingle (ER u)
           /\ includes_left_endpoint u = true
           /\ includes_right_endpoint u = true
           /\ (start u = start (range_of "1.2" "1.6")
               \/ start u = start (range_of "1.4" "2"))
           /\ (end_ u = end_ (range_of "1.2" "1.6")
               \/ end_ u = end_ (range_of "1.4" "2"))
           /\ forall c, VersionRange.overlaps u c = true ->
                        VersionRange.overlaps (range_of "1.2" "1.6") c = true
                        /\ VersionRange.overlaps (range_of "1.4" "2") c
                           = true).
Proof. apply range_intersection_within. reflexivity. Defined.

(** The intersection of two overlapping ranges with [start <= end] can
    raise: the start chosen is the greater one, the end chosen is the end
    of [self] when neither end extends the other, and [4.7 < 4.7.3]. *)
Example range_intersection_raises :
  VersionRange.overlaps (VersionRange.of_version (parsed "4.7"))
                        (range_of "4.7.3" "4.8") = true
  /\ Elem.intersection (EV (parsed "4.7")) (ER (range_of "4.7.3" "4.8"))
     = Raise AttributeError.
Proof. split; reflexivity. Qed.

(** A range with [start <= end] overlaps itself, and [VersionRange]
    accepts its two ends. *)
Lemma range_self_overlaps (r : VersionRange) :
  range_valid r -> VersionRange.overlaps r r = true.
Proof.
  intros Hv. rewrite range_overlaps_before.
  assert (obefore (end_ r) (start r) = false) as Hb.
  { unfold range_valid in Hv. unfold obefore.
    destruct (end_ r) as [e|], (start r) as [s|]; try reflexivity.
    rewrite Version_lt_segs in Hv. unfold segs_before. now rewrite Hv. }
  now rewrite Hb.
Qed.

Lemma range_self_make (r : VersionRange) :
  range_valid r ->
  VersionRange.make (start r) (end_ r)
  = Ok (mkRange (start r) (end_ r) true true).
Proof.
  intros Hv. apply make_ok. unfold range_valid in Hv.
  destruct (start r), (end_ r); auto. now rewrite <- Version_lt_segs.
Qed.

Lemma v_in_refl (v : Version) : v_in v v = true.
Proof. rewrite v_in_prefix. apply is_prefix_refl. Qed.

Lemma range_intersection_self (r : VersionRange) :
  range_valid r ->
  VersionRange.intersection r r
  = Ok (ISingle (ER (mkRange (start r) (end_ r) true true))).
Proof.
  intros Hv. unfold VersionRange.intersection.
  rewrite (range_self_overlaps r Hv).
  replace (match start r with
           | Some ss =>
               match start r with
               | Some os =>
                   if Version.__gt__ os ss || v_in os ss
                   then Some os else Some ss
               | None => Some ss
               end
           | None => start r
           end) with (start r)
    by (destruct (start r) as [v|];
        [rewrite v_in_refl, orb_true_r|]; reflexivity).
  replace (match end_ r with
           | Some se =>
               match end_ r with
               | Some oe =>
                   if negb (v_in se oe)
                   then if Version.__lt__ oe se || v_in oe se
                        then Some oe else Some se
                   else Some se
               | None => Some se
               end
           | None => end_ r
           end) with (end_ r)
    by (destruct (end_ r) as [v|]; [rewrite v_in_refl|]; reflexivity).
  now rewrite (range_self_make r Hv).
Qed.

(** X8.  The union and the intersection of a range with itself are the
    range from its start to its end with both endpoints included: an
    excluded endpoint is not kept. *)
Theorem range_union_intersection_self (r : VersionRange) :
  range_valid r ->
  VersionRange.union r r
  = Ok (USingle (ER (mkRange (start r) (end_ r) true true)))
  /\ VersionRange.intersection r r
     = Ok (ISingle (ER (mkRange (start r) (end_ r) true true))).
Proof.
  intros Hv. split; [|exact (range_intersection_self r Hv)].
  unfold VersionRange.union. rewrite (range_self_overlaps r Hv). simpl.
  replace (match start r with
           | Some ss =>
               match start r with
               | Some os =>
                   if v_in ss os || Version.__lt__ os ss
                   then Some os else Some ss
               | None => None
               end
           | None => None
           end) with (start r)
    by (destruct (start r) as [v|]; [rewrite v_in_refl|]; reflexivity).
  replace (match end_ r with
           | Some se =>
               match end_ r with
               | Some oe =>
                   if negb (v_in oe se)
                   then if v_in se oe || Version.__gt__ oe se
                        then Some oe else Some se
                   else Some se
               | None => None
               end
           | None => None
           end) with (end_ r)
    by (destruct (end_ r) as [v|]; [rewrite v_in_refl|]; reflexivity).
  now rewrite (range_self_make r Hv).
Qed.

Lemma range_union_intersection_self_witness :
  VersionRange.union (mkRange (Some (parsed "1.2")) (Some (parsed "1.4"))
                              true false)
                     (mkRange (Some (parsed "1.2")) (Some (parsed "1.4"))
                              true false)
  = Ok (USingle (ER (range_of "1.2" "1.4")))
  /\ VersionRange.intersection
       (mkRange (Some (parsed "1.2")) (Some (parsed "1.4")) true false)
       (mkRange (Some (parsed "1.2")) (Some (parsed "1.4")) true false)
     = Ok (ISingle (ER (range_of "1.2" "1.4"))).
Proof.
  apply (range_union_intersection_self
           (mkRange (Some (parsed "1.2")) (Some (parsed "1.4")) true false)).
  reflexivity.
Defined.

End UnionAndIntersection.

Section Coercion.

(** X9.  [<], [==] and [overlaps] give the same answer on two versions as
    on the ranges [VersionRange(v, v)] that [coerce_versions] makes of
    them, and a version that satisfies another does so as a range. *)
Theorem coerced_comparisons_agree (x y : Version) :
  Version.__lt__ x y
  = VersionRange.__lt__ (VersionRange.of_version x)
                        (VersionRange.of_version y)
  /\ Version.__eq__ x y
     = VersionRange.__eq__ (VersionRange.of_version x)
                           (VersionRange.of_version y)
  /\ Version.overlaps x y
     = VersionRange.overlaps (VersionRange.of_version x)
                             (VersionRange.of_version y)
  /\ (Version.satisfies x y = true ->
      VersionRange.satisfies (VersionRange.of_version x)
                             (VersionRange.of_version y) = true).
Proof.
  split; [|split; [|split]].
  - exact (elem_lt_as_range (EV x) (EV y)).
  - unfold VersionRange.__eq__, VersionRange.of_version. simpl.
    unfold Version.__eq__. now destruct (tuple_eqb (version x) (version y)).
  - rewrite version_overlaps_before, range_overlaps_before. reflexivity.
  - intros H. unfold VersionRange.satisfies.
    rewrite range_overlaps_before. simpl.
    rewrite Version_satisfies_prefix in H. unfold segs_before.
    rewrite H, (is_prefix_le _ _ H), andb_false_r. reflexivity.
Qed.

End Coercion.

Section DisjointOrder.

(** X10.  Of two elements with [start <= end] that do not overlap,
    exactly one is [<] the other. *)
Theorem disjoint_elements_ordered (a b : elem) :
  wf_elem a -> wf_elem b -> Elem.overlaps a b = false ->
  Elem.__lt__ a b = negb (Elem.__lt__ b a).
Proof.
  intros Wa Wb H. rewrite elem_overlaps_before in H.
  apply andb_false_iff in H.
  destruct H as [H|H]; apply negb_false_iff in H.
  - destruct (ebefore_lt b a Wb Wa H) as [H1 H2]. now rewrite H1, H2.
  - destruct (ebefore_lt a b Wa Wb H) as [H1 H2]. now rewrite H1, H2.
Qed.

Lemma disjoint_elements_ordered_witness :
  Elem.__lt__ (ER (range_of "1.2" "1.4")) (EV (parsed "1.5"))
  = negb (Elem.__lt__ (EV (parsed "1.5")) (ER (range_of "1.2" "1.4"))).
Proof.
  apply disjoint_elements_ordered.
  - split; [reflexivity | intros _; reflexivity].
  - exact I.
  - reflexivity.
Defined.

(** Two overlapping ranges can each be [<] the other. *)
Example overlapping_ranges_both_less :
  VersionRange.__lt__ (range_of "1" "4") (range_of "2" "3") = true
  /\ VersionRange.__lt__ (range_of "2" "3") (range_of "1" "4") = true.
Proof. split; reflexivity. Qed.

End DisjointOrder.

Section ListOverlaps.

Lemma sweep_step (test : elem -> elem -> bool) (s : elem) (ss' : list elem)
    (o : elem) (os' : list elem) :
  VersionList.sweep test (s :: ss') (o :: os')
  = if test s o then true
    else if Elem.__lt__ s o then VersionList.sweep test ss' (o :: os')
    else VersionList.sweep test (s :: ss') os'.
Proof. reflexivity. Qed.

Lemma sweep_nil_r (test : elem -> elem -> bool) (ss : list elem) :
  VersionList.sweep test ss [] = false.
Proof. destruct ss; reflexivity. Qed.

Lemma existsb_all_false (f : elem -> bool) (l : list elem) :
  (forall x, In x l -> f x = false) -> existsb f l = false.
Proof.
  induction l as [|a l IH]; intros H; simpl; [reflexivity|].
  rewrite (H a) by (simpl; auto). apply IH. intros x Hx. apply H. simpl; auto.
Qed.

Lemma existsb_agree (f g : elem -> bool) (l : list elem) :
  (forall x, In x l -> f x = g x) -> existsb f l = existsb g l.
Proof.
  induction l as [|a l IH]; intros H; simpl; [reflexivity|].
  rewrite (H a) by (simpl; auto). f_equal. apply IH.
  intros x Hx. apply H. simpl; auto.
Qed.

Lemma ebefore_no_overlap (a b : elem) :
  ebefore a b = true -> Elem.overlaps a b = false /\ Elem.overlaps b a = false.
Proof.
  intros H. rewrite !elem_overlaps_before, H. simpl.
  now rewrite andb_false_r.
Qed.

(** The sweep over two canonical lists finds an overlapping pair if there
    is one. *)
Lemma sweep_overlaps_spec (ss : list elem) :
  forall os, canonical ss -> canonical os ->
    VersionList.sweep Elem.overlaps ss os
    = existsb (fun s => existsb (Elem.overlaps s) os) ss.
Proof.
  induction ss as [|s ss' IHs]; intros os Cs Co; [reflexivity|].
  destruct Cs as [Ws Ps]. inversion Ws as [|? ? Wsh Wst]; subst.
  destruct Ps as [Bs Ps'].
  assert (canonical ss') as Cs' by (split; assumption).
  induction os as [|o os' IHo].
  - rewrite sweep_nil_r. symmetry. apply existsb_all_false.
    intros x _. reflexivity.
  - destruct Co as [Wo Po]. inversion Wo as [|? ? Woh Wot]; subst.
    destruct Po as [Bo Po'].
    assert (canonical os') as Co' by (split; assumption).
    rewrite sweep_step.
    destruct (Elem.overlaps s o) eqn:Hov; [simpl; now rewrite Hov|].
    assert (ebefore o s = true \/ ebefore s o = true) as Hbef.
    { rewrite elem_overlaps_before in Hov. apply andb_false_iff in Hov.
      destruct Hov as [H|H]; apply negb_false_iff in H; auto. }
    destruct (Elem.__lt__ s o) eqn:Hlt.
    + (* [s] is before [o], and so before the rest of [os] *)
      assert (ebefore s o = true) as Hso.
      { destruct Hbef as [H|H]; [|exact H].
        destruct (ebefore_lt o s Woh Wsh H). congruence. }
      rewrite (IHs (o :: os') Cs' (conj Wo (conj Bo Po'))).
      simpl. rewrite Hov. simpl.
      rewrite (existsb_all_false (Elem.overlaps s) os'); [reflexivity|].
      intros x Hx. rewrite Forall_forall in Bo.
      exact (proj1 (ebefore_no_overlap s x
                      (ebefore_trans s o x Woh Hso (Bo x Hx)))).
    + (* [o] is before [s], and so before the rest of [ss] *)
      assert (ebefore o s = true) as Hos.
      { destruct Hbef as [H|H]; [exact H|].
        destruct (ebefore_lt s o Wsh Woh H). congruence. }
      rewrite (IHo Co'). apply existsb_agree.
      intros x Hx. simpl.
      replace (Elem.overlaps x o) with false; [reflexivity|].
      symmetry. destruct Hx as [<-|Hx]; [exact Hov|].
      rewrite Forall_forall in Bs.
      exact (proj2 (ebefore_no_overlap o x
                      (ebefore_trans o s x Wsh Hos (Bs x Hx)))).
Qed.

Lemma existsb_pair (A B : list elem) :
  existsb (fun a => existsb (Elem.overlaps a) B) A = true
  <-> exists a b, In a A /\ In b B /\ Elem.overlaps a b = true.
Proof.
  rewrite existsb_exists. split.
  - intros (a & Ha & H). apply existsb_exists in H.
    destruct H as (b & Hb & H). eauto.
  - intros (a & b & Ha & Hb & H). exists a. split; [exact Ha|].
    apply existsb_exists. eauto.
Qed.

Lemma list_overlaps_existsb (A B : list elem) :
  canonical A -> canonical B ->
  VersionList.overlaps A B
  = existsb (fun a => existsb (Elem.overlaps a) B) A.
Proof.
  intros CA CB. unfold VersionList.overlaps.
  destruct B as [|b B']; simpl.
  - symmetry. apply existsb_all_false. reflexivity.
  - destruct A as [|a A']; [reflexivity|].
    apply (sweep_overlaps_spec (a :: A') (b :: B') CA CB).
Qed.



End ListOverlaps.

Section AddExact.

Lemma normalize_same_overlaps (v v0 c : elem) :
  VersionList.normalize v = Ok v0 ->
  Elem.overlaps v0 c = Elem.overlaps v c.
Proof.
  intros H. destruct (normalize_bounds _ _ H) as [Lo Hi].
  rewrite !elem_overlaps_before. unfold ebefore. now rewrite Lo, Hi.
Qed.

(** What the merged version of a [while] loop of [add] overlaps, one of
    the elements it merged overlaps. *)
Lemma merge_loop_exact (xs : list elem) :
  forall v v' rest,
    wf_elem v -> Forall wf_elem xs ->
    VersionList.merge_loop v xs = Ok (v', rest) ->
    exists merged,
      xs = merged ++ rest
      /\ forall c, wf_elem c -> Elem.overlaps v' c = true ->
                   Elem.overlaps v c = true
                   \/ exists e, In e merged /\ Elem.overlaps e c = true.
Proof.
  induction xs as [|x xs IH]; intros v v' rest Wv Wxs; simpl.
  - intros H. inversion H; subst. exists []. split; [reflexivity|auto].
  - inversion Wxs as [|? ? Wx Wxs']; subst.
    destruct (Elem.overlaps v x) eqn:Hov.
    + destruct (elem_union_overlapping v x Wv Wx Hov)
        as (u & Hu & Wu & Hl & Hh & _). rewrite Hu. simpl.
      intros H. destruct (IH u v' rest Wu Wxs' H) as (m & Hm & Hex).
      exists (x :: m). split; [simpl; now rewrite Hm|].
      intros c Wc Hc. destruct (Hex c Wc Hc) as [H1|(e & He & H1)].
      * destruct (union_overlaps_exact v x u c Wc Hov Hl Hh H1) as [H2|H2];
          [auto|]. right. exists x. simpl. auto.
      * right. exists e. simpl. auto.
    + intros H. inversion H; subst. exists []. split; [reflexivity|auto].
Qed.

Lemma add_elem_exact (L : list elem) (v : elem) :
  Forall wf_elem L -> wf_elem v ->
  exists L',
    VersionList.add_elem L v = Ok L'
    /\ Forall wf_elem L'
    /\ forall c, wf_elem c ->
                 (overlaps_some L' c <->
                  overlaps_some L c \/ Elem.overlaps v c = true).
Proof.
  intros WL Wv. unfold VersionList.add_elem.
  destruct (normalize_wf v Wv) as (v0 & Hn & Wv0). rewrite Hn. simpl.
  set (i := VersionList.bisect_left L v0).
  assert (Forall wf_elem (firstn i L) /\ Forall wf_elem (skipn i L))
    as [WA WB].
  { rewrite <- Forall_app, firstn_skipn. exact WL. }
  assert (Forall wf_elem (rev (firstn i L))) as WA' by now apply Forall_rev.
  destruct (merge_loop_spec (rev (firstn i L)) v0 Wv0 WA')
    as (v1 & m1 & r1 & H1 & Hrev & Wv1 & _ & _ & C1 & Cm1 & _ & _).
  destruct (merge_loop_exact _ v0 v1 r1 Wv0 WA' H1) as (m1' & Hm1' & E1).
  assert (m1' = m1) as ->.
  { rewrite Hrev in Hm1'. now apply app_inv_tail in Hm1'. }
  rewrite H1. simpl.
  destruct (merge_loop_spec (skipn i L) v1 Wv1 WB)
    as (v2 & m2 & r2 & H2 & HB & Wv2 & _ & _ & C2 & Cm2 & _ & _).
  destruct (merge_loop_exact _ v1 v2 r2 Wv1 WB H2) as (m2' & Hm2' & E2).
  assert (m2' = m2) as ->.
  { rewrite HB in Hm2'. now apply app_inv_tail in Hm2'. }
  rewrite H2. simpl.
  exists (rev r1 ++ v2 :: r2). split; [reflexivity|].
  assert (firstn i L = rev r1 ++ rev m1) as HA.
  { rewrite <- (rev_involutive (firstn i L)), Hrev, rev_app_distr.
    reflexivity. }
  assert (L = (rev r1 ++ rev m1) ++ (m2 ++ r2)) as HL.
  { rewrite <- HA, <- HB. symmetry. apply firstn_skipn. }
  assert (forall e, In e L <->
                    (In e (rev r1) \/ In e m1) \/ (In e m2 \/ In e r2))
    as HinL.
  { intros e. rewrite HL at 1. rewrite !in_app_iff, <- (in_rev m1). tauto. }
  split.
  - rewrite HA in WA. rewrite HB in WB.
    apply Forall_app in WA, WB. destruct WA as [Wr1 _], WB as [_ Wr2].
    apply Forall_app. split; [exact Wr1|]. constructor; assumption.
  - intros c Wc. split.
    + intros (e & He & Hov). apply in_app_or in He.
      destruct He as [He|[<-|He]].
      * left. exists e. split; [|exact Hov]. apply HinL. auto.
      * destruct (E2 c Wc Hov) as [Hv1|(x & Hx & Hxc)].
        -- destruct (E1 c Wc Hv1) as [Hv0|(x & Hx & Hxc)].
           ++ right. now rewrite <- (normalize_same_overlaps v v0 c Hn).
           ++ left. exists x. split; [|exact Hxc]. apply HinL. auto.
        -- left. exists x. split; [|exact Hxc]. apply HinL. auto.
      * left. exists e. split; [|exact Hov]. apply HinL. auto.
    + assert (forall c, Elem.overlaps v2 c = true ->
                        overlaps_some (rev r1 ++ v2 :: r2) c) as Hv2.
      { intros c' H. exists v2. split; [|exact H].
        apply in_or_app. right. simpl. auto. }
      intros [(e & He & Hov)|Hov].
      * apply HinL in He. destruct He as [[He|He]|[He|He]].
        -- exists e. split; [|exact Hov]. apply in_or_app. auto.
        -- apply Hv2.
           exact (covers_overlaps v2 e c
                    (covers_trans v2 v1 e C2 (Cm1 e He)) Hov).
        -- apply Hv2. exact (covers_overlaps v2 e c (Cm2 e He) Hov).
        -- exists e. split; [|exact Hov]. apply in_or_app. simpl. auto.
      * apply Hv2. rewrite <- (normalize_same_overlaps v v0 c Hn) in Hov.
        exact (covers_overlaps v2 v0 c (covers_trans v2 v1 v0 C2 C1) Hov).
Qed.

Lemma add_all_exact (vs : list elem) :
  forall L, Forall wf_elem L -> Forall wf_elem vs ->
    exists L',
      VersionList.add_all L vs = Ok L'
      /\ Forall wf_elem L'
      /\ forall c, wf_elem c ->
                   (overlaps_some L' c <->
                    overlaps_some L c \/ overlaps_some vs c).
Proof.
  induction vs as [|v vs IH]; intros L WL Wvs; simpl.
  - exists L. split; [reflexivity|]. split; [exact WL|].
    intros c _. split; [auto|]. intros [H|(e & [] & _)]. exact H.
  - inversion Wvs as [|? ? Wv Wvs']; subst.
    destruct (add_elem_exact L v WL Wv) as (L1 & H1 & W1 & K1).
    rewrite H1. simpl.
    destruct (IH L1 W1 Wvs') as (L2 & H2 & W2 & K2).
    exists L2. split; [exact H2|]. split; [exact W2|].
    intros c Wc. rewrite (K2 c Wc), (K1 c Wc). unfold overlaps_some.
    split.
    + intros [[H|H]|(e & He & H)]; [auto| |].
      * right. exists v. simpl. auto.
      * right. exists e. simpl. auto.
    + intros [H|(e & [<-|He] & H)]; [auto|auto|].
      right. exists e. auto.
Qed.

(** X12.  [add] neither loses nor invents anything: on a list of elements
    with [start <= end] it returns, and an element with [start <= end]
    overlaps an element of the list afterwards exactly when it overlapped
    an element of the list before or of the value added. *)
Theorem add_overlaps_exact (L : list elem) (o : version_obj) :
  Forall wf_elem L -> wf_obj o ->
  exists L',
    VersionList.add L o = Ok L'
    /\ Forall wf_elem L'
    /\ forall c, wf_elem c ->
                 (overlaps_some L' c <->
                  overlaps_some L c \/ overlaps_some (elems_of o) c).
Proof.
  intros WL Wo. destruct o as [v|r|vs]; simpl.
  - destruct (add_elem_exact L (EV v) WL Wo) as (L' & H & W & K).
    exists L'. split; [exact H|]. split; [exact W|].
    intros c Wc. rewrite (K c Wc). unfold overlaps_some. simpl. split.
    + intros [Hc|Hc]; [auto|]. right. exists (EV v). auto.
    + intros [Hc|(e & [<-|[]] & Hc)]; auto.
  - destruct (add_elem_exact L (ER r) WL Wo) as (L' & H & W & K).
    exists L'. split; [exact H|]. split; [exact W|].
    intros c Wc. rewrite (K c Wc). unfold overlaps_some. simpl. split.
    + intros [Hc|Hc]; [auto|]. right. exists (ER r). auto.
    + intros [Hc|(e & [<-|[]] & Hc)]; auto.
  - exact (add_all_exact vs L WL Wo).
Qed.

Lemma add_overlaps_exact_witness :
  exists L',
    VersionList.add [ER (range_of "1.2" "1.4"); EV (parsed "2.0")]
                    (ORange (range_of "1.3" "2"))
    = Ok L'
    /\ Forall wf_elem L'
    /\ forall c, wf_elem c ->
         (overlaps_some L' c <->
          overlaps_some [ER (range_of "1.2" "1.4"); EV (parsed "2.0")] c
          \/ overlaps_some (elems_of (ORange (range_of "1.3" "2"))) c).
Proof.
  apply add_overlaps_exact.
  - repeat constructor; simpl; intros; reflexivity.
  - split; [reflexivity | intros _; reflexivity].
Defined.

End AddExact.

Section SeparatorForms.

Lemma lstrip_map (f : ascii -> ascii) (s : string) :
  sep_map f -> lstrip (string_map f s) = string_map f (lstrip s).
Proof.
  intros (_ & Hs & _). induction s as [|c s IH]; simpl; [reflexivity|].
  rewrite Hs. now destruct (is_space c).
Qed.

Lemma string_rev_append_map (f : ascii -> ascii) (s acc : string) :
  string_rev_append (string_map f s) (string_map f acc)
  = string_map f (string_rev_append s acc).
Proof.
  revert acc. induction s as [|c s IH]; intros acc; simpl; [reflexivity|].
  exact (IH (String c acc)).
Qed.

Lemma string_rev_map (f : ascii -> ascii) (s : string) :
  string_rev (string_map f s) = string_map f (string_rev s).
Proof. exact (string_rev_append_map f s EmptyString). Qed.

Lemma strip_map (f : ascii -> ascii) (s : string) :
  sep_map f -> strip (string_map f s) = string_map f (strip s).
Proof.
  intros Hf. unfold strip.
  now rewrite (lstrip_map f s Hf), string_rev_map, (lstrip_map f _ Hf),
    string_rev_map.
Qed.

Lemma lstrip_suffix (s : string) : exists p, s = p +++ lstrip s.
Proof.
  induction s as [|c s [p IH]]; simpl.
  - now exists EmptyString.
  - destruct (is_space c).
    + exists (String c p). simpl. now rewrite <- IH.
    + now exists EmptyString.
Qed.

Lemma head_not_space_lstrip (s : string) : head_not_space (lstrip s).
Proof.
  induction s as [|c s IH]; simpl; [exact I|].
  destruct (is_space c) eqn:E; [exact IH|exact E].
Qed.

Lemma lstrip_id (s : string) : head_not_space s -> lstrip s = s.
Proof. destruct s as [|c s]; simpl; [reflexivity|]. now intros ->. Qed.

Lemma string_rev_app (a b : string) :
  string_rev (a +++ b) = string_rev b +++ string_rev a.
Proof.
  unfold string_rev. induction a as [|c a IH]; simpl.
  - now rewrite string_app_nil_r.
  - rewrite (string_rev_append_app (a +++ b)), IH.
    rewrite (string_rev_append_app a (String c EmptyString)).
    now rewrite string_app_assoc.
Qed.

(** What [strip] leaves starts with the first character of [lstrip]. *)
Lemma strip_prefix (s : string) :
  exists q, lstrip s = strip s +++ q.
Proof.
  unfold strip.
  destruct (lstrip_suffix (string_rev (lstrip s))) as [p Hp].
  exists (string_rev p).
  rewrite <- string_rev_app, <- Hp. symmetry. apply string_rev_involutive.
Qed.

Lemma head_not_space_strip (s : string) : head_not_space (strip s).
Proof.
  destruct (strip_prefix s) as [q Hq].
  pose proof (head_not_space_lstrip s) as H. rewrite Hq in H.
  destruct (strip s); [exact I|exact H].
Qed.

Lemma strip_idempotent (s : string) : strip (strip s) = strip s.
Proof.
  unfold strip at 1. rewrite (lstrip_id _ (head_not_space_strip s)).
  unfold strip. rewrite string_rev_involutive.
  now rewrite (lstrip_id _ (head_not_space_lstrip _)).
Qed.

Lemma strip_head (c : ascii) (s : string) :
  is_space c = false -> exists t, strip (String c s) = String c t.
Proof.
  intros Hc. destruct (strip_prefix (String c s)) as [q Hq].
  simpl in Hq. rewrite Hc in Hq.
  pose proof (strip_nonempty c s Hc) as Hne.
  destruct (strip (String c s)) as [|d t]; [contradiction|].
  simpl in Hq. inversion Hq. now exists t.
Qed.

Lemma runs_map (f : ascii -> ascii) (s : string) :
  sep_map f -> runs (string_map f s) = map_runs f (runs s).
Proof.
  intros (Hk & _). induction s as [|c s IH]; simpl; [reflexivity|].
  rewrite IH, Hk. destruct (runs s) as [|[k r] rest]; simpl; [reflexivity|].
  now destruct (cclass_eqb (classify c) k).
Qed.

Lemma cclass_eqb_refl (k : cclass) : cclass_eqb k k = true.
Proof. now destruct k. Qed.

Lemma cclass_eqb_eq (a b : cclass) : cclass_eqb a b = true -> a = b.
Proof. now destruct a, b. Qed.

Lemma runs_all_class (s : string) :
  Forall (fun kr => all_class (fst kr) (snd kr) = true) (runs s).
Proof.
  induction s as [|c s IH]; simpl; [constructor|].
  destruct (runs s) as [|[k r] rest].
  - repeat constructor. simpl. now rewrite cclass_eqb_refl.
  - inversion IH as [|? ? Hh Ht]; subst. simpl in Hh.
    destruct (cclass_eqb (classify c) k) eqn:E.
    + constructor; [|exact Ht]. simpl. now rewrite E, Hh.
    + constructor; [simpl; now rewrite cclass_eqb_refl|].
      constructor; assumption.
Qed.

Lemma string_map_segment (f : ascii -> ascii) (k : cclass) (r : string) :
  sep_map f -> k <> COther -> all_class k r = true -> string_map f r = r.
Proof.
  intros (_ & _ & Hid & _) Hk. induction r as [|c r IH]; simpl;
    [reflexivity|].
  intros [Hc Hr]%andb_true_iff. apply cclass_eqb_eq in Hc.
  rewrite (IH Hr), Hid; [reflexivity|congruence].
Qed.

Lemma findall_map_runs (f : ascii -> ascii) (rs : list (cclass * string)) :
  sep_map f ->
  Forall (fun kr => all_class (fst kr) (snd kr) = true) rs ->
  findall_segments (map_runs f rs) = findall_segments rs.
Proof.
  intros Hf. induction 1 as [|[k r] rs Hh _ IH]; simpl; [reflexivity|].
  simpl in Hh. destruct k; rewrite IH.
  - now rewrite (string_map_segment f CAlpha r Hf) by (auto; discriminate).
  - now rewrite (string_map_segment f CDigit r Hf) by (auto; discriminate).
  - reflexivity.
Qed.

(** The constructor on the string of a version with its separators
    mapped. *)
Lemma init_mapped_string (f : ascii -> ascii) (s0 : string) (v : Version) :
  sep_map f -> Version.__init__ s0 = Ok v ->
  exists d, Version.__init__ (string_map f (string_ v)) = Ok d
            /\ version d = version v.
Proof.
  intros Hf H0. unfold Version.__init__ in H0.
  destruct (re_match_VALID_VERSION s0) eqn:Em; simpl in H0; [|discriminate].
  inversion H0 as [Hv]. clear H0. simpl.
  destruct s0 as [|c s0]; [discriminate|]. simpl in Em.
  destruct (valid_char_not_special c Em) as (Hsp & _).
  destruct (strip_head c s0 Hsp) as [t Ht].
  unfold Version.__init__.
  assert (re_match_VALID_VERSION (string_map f (strip (String c s0))) = true)
    as ->.
  { rewrite Ht. simpl. destruct Hf as (_ & _ & _ & Hval). now apply Hval. }
  simpl. eexists. split; [reflexivity|]. simpl.
  rewrite (strip_map f _ Hf), strip_idempotent, (runs_map f _ Hf).
  apply (findall_map_runs f _ Hf), runs_all_class.
Qed.

Lemma string_map_compose (f g : ascii -> ascii) (s : string) :
  string_map g (string_map f s) = string_map (fun c => g (f c)) s.
Proof. induction s as [|c s IH]; simpl; [reflexivity|now rewrite IH]. Qed.

Ltac sep_map_cases :=
  repeat split; intros c; destruct c as [[] [] [] [] [] [] [] []];
  vm_compute; try reflexivity; try (intros H; discriminate);
  intros H; first [reflexivity | exfalso; apply H; reflexivity].

Lemma sep_map_dotted :
  sep_map (fun c => if Ascii.eqb (if Ascii.eqb c "-" then "." else c) "_"
                    then "." else if Ascii.eqb c "-" then "." else c)%char.
Proof. sep_map_cases. Qed.

Lemma sep_map_underscored :
  sep_map (fun c => if Ascii.eqb (if Ascii.eqb c "." then "_" else c) "-"
                    then "_" else if Ascii.eqb c "." then "_" else c)%char.
Proof. sep_map_cases. Qed.

Lemma sep_map_dashed :
  sep_map (fun c => if Ascii.eqb (if Ascii.eqb c "." then "-" else c) "_"
                    then "-" else if Ascii.eqb c "." then "-" else c)%char.
Proof. sep_map_cases. Qed.

(** X13.  [dotted], [underscored] and [dashed] of a constructed version
    never raise, and the version they return has the segments of the
    original: the three forms compare equal to it. *)
Theorem separator_forms_keep_segments (s0 : string) (v : Version) :
  Version.__init__ s0 = Ok v ->
  (exists d, Version.dotted v = Ok d /\ version d = version v)
  /\ (exists d, Version.underscored v = Ok d /\ version d = version v)
  /\ (exists d, Version.dashed v = Ok d /\ version d = version v).
Proof.
  intros H0. unfold Version.dotted, Version.underscored, Version.dashed,
    replace_char. rewrite !string_map_compose.
  split; [|split].
  - exact (init_mapped_string _ s0 v sep_map_dotted H0).
  - exact (init_mapped_string _ s0 v sep_map_underscored H0).
  - exact (init_mapped_string _ s0 v sep_map_dashed H0).
Qed.

Lemma separator_forms_keep_segments_witness :
  (exists d, Version.dotted (parsed "1_2-3b ") = Ok d
             /\ version d = version (parsed "1_2-3b "))
  /\ (exists d, Version.underscored (parsed "1_2-3b ") = Ok d
                /\ version d = version (parsed "1_2-3b "))
  /\ (exists d, Version.dashed (parsed "1_2-3b ") = Ok d
                /\ version d = version (parsed "1_2-3b ")).
Proof.
  apply (separator_forms_keep_segments "1_2-3b ").
  reflexivity.
Defined.

(** [joined] does not keep the segments. *)
Example joined_merges_segments :
  (d <- Version.joined (parsed "1.2.3b") ;; Ok (version d))
  = Ok [SInt 123; SStr "b"].
Proof. reflexivity. Qed.

End SeparatorForms.

Section Serialization.

Lemma bind_ok_r {A : Type} (m : res A) : (x <- m ;; Ok x) = m.
Proof. now destruct m. Qed.

Lemma ver_of_piece_ok (s : string) : piece_ok s -> ver s = ver_piece s.
Proof.
  intros [Hc Hr]. unfold ver, ver_piece, _string_to_version.
  now rewrite Hr, Hc.
Qed.

Lemma init_of_strings_pieces (ss : list string) :
  forall acc, Forall piece_ok ss ->
              init_of_strings acc ss = init_strings acc ss.
Proof.
  induction ss as [|s ss IH]; intros acc H; simpl; [reflexivity|].
  inversion H as [|? ? Hs Hss]; subst.
  rewrite (ver_of_piece_ok s Hs).
  destruct (ver_piece s) as [o|e]; simpl; [|reflexivity].
  destruct (VersionList.add acc o) as [acc'|e]; simpl; [|reflexivity].
  now apply IH.
Qed.

Lemma printable_concrete (x : elem) :
  printable_elem x -> exists c, Elem.concrete x = Ok c.
Proof.
  destruct x as [v|r]; simpl; [eauto|].
  intros (Hm & _). apply make_inv in Hm. rewrite Hm.
  unfold VersionRange.concrete. simpl.
  destruct (opt_eq (start r) (end_ r)); simpl; [|eauto].
  destruct (start r); simpl; eauto.
Qed.

(** X14.  [from_dict(to_dict(l)) == l] for a sorted list [l] of pairwise
    non-overlapping printable elements, the empty list included: both
    calls return, whether [to_dict] writes the key ['version'] or the key
    ['versions']. *)
Theorem dict_round_trip (l : list elem) :
  canonical l -> Forall printable_elem l ->
  exists d l',
    to_dict l = Ok d /\ from_dict d = Ok l'
    /\ VersionList.__eq__ l' l = true.
Proof.
  intros [WL PL] P.
  destruct (init_strings_readds l [] P WL PL canonical_nil)
    as (ss & Hss & Fok & Hlen & Hinit); [intros a b []|].
  simpl in Hinit.
  assert (exists c, VersionList.concrete l = Ok c) as [c Hc].
  { unfold VersionList.concrete. destruct l as [|x [|y l']]; eauto.
    inversion P; subst. now apply printable_concrete. }
  unfold to_dict. rewrite Hc. simpl.
  destruct (match c with
            | Some v => Version.truthy v
            | None => false
            end) eqn:Ec.
  - (* one concrete element: the key is 'version' *)
    destruct l as [|x [|y l']];
      try (unfold VersionList.concrete in Hc; inversion Hc; subst c;
           discriminate).
    destruct ss as [|s [|s2 ss']]; try discriminate.
    simpl in Hss. destruct (Elem.__str__ x) as [s'|e]; [|discriminate].
    simpl in Hss. inversion Hss; subst s'. simpl.
    exists (singleton_dict "version" (YStr s)), (map reparsed [x]).
    split; [reflexivity|]. split; [|now apply list_eq_reparsed].
    unfold from_dict, singleton_dict. simpl.
    inversion Fok as [|? ? Hs _]; subst.
    rewrite (ver_of_piece_ok s Hs).
    simpl in Hinit. rewrite <- Hinit.
    destruct (ver_piece s) as [o|e]; simpl; [|reflexivity].
    now rewrite bind_ok_r.
  - rewrite Hss. simpl.
    exists (singleton_dict "versions" (YList ss)), (map reparsed l).
    split; [reflexivity|]. split; [|now apply list_eq_reparsed].
    unfold from_dict, singleton_dict. simpl.
    now rewrite (init_of_strings_pieces ss [] Fok).
Qed.

Lemma dict_round_trip_witness :
  exists d l',
    to_dict [ER (range_of "1.0" "2.0"); EV (parsed "3.0")] = Ok d
    /\ from_dict d = Ok l'
    /\ VersionList.__eq__ l' [ER (range_of "1.0" "2.0"); EV (parsed "3.0")]
       = true.
Proof.
  apply dict_round_trip.
  - split.
    + repeat constructor; simpl; intros; reflexivity.
    + simpl. repeat constructor.
  - repeat constructor; simpl;
      try (apply parsed_plain; reflexivity);
      try reflexivity;
      intros s _ H; vm_compute in H; discriminate.
Defined.

End Serialization.

Section CopyAndUnion.

Lemma normalize_idempotent (v v0 : elem) :
  VersionList.normalize v = Ok v0 -> VersionList.normalize v0 = Ok v0.
Proof.
  unfold VersionList.normalize.
  destruct (Elem.concrete v) as [[c|]|e] eqn:Ec; simpl; try discriminate.
  - destruct (Version.truthy c) eqn:Et; intros H; inversion H; subst v0.
    + simpl. now rewrite Et.
    + rewrite Ec. simpl. now rewrite Et.
  - intros H. inversion H; subst v0. now rewrite Ec.
Qed.

Lemma normalize_eq (v v0 : elem) :
  VersionList.normalize v = Ok v0 -> Elem.__eq__ v0 v = true.
Proof.
  unfold VersionList.normalize. destruct v as [x|[st en il ir]]; simpl.
  - destruct (Version.truthy x); intros H; inversion H;
      apply tuple_eqb_refl.
  - unfold VersionRange.concrete. simpl.
    destruct (opt_eq st en) eqn:E; simpl;
      [|intros H; inversion H; apply range_eq_refl].
    destruct st as [s|]; simpl;
      [|intros H; inversion H; apply range_eq_refl].
    destruct il, ir; simpl; try discriminate.
    + destruct (Version.truthy s); intros H; inversion H;
        [|apply range_eq_refl].
      unfold Elem.__eq__, coerced, VersionRange.__eq__. simpl.
      change (Version.__eq__ s s && opt_eq (Some s) en && true && true
              = true).
      rewrite E. unfold Version.__eq__. now rewrite tuple_eqb_refl.
    + intros H; inversion H. apply range_eq_refl.
Qed.

Lemma add_elem_normalized (L : list elem) (v v0 : elem) :
  VersionList.normalize v = Ok v0 ->
  VersionList.add_elem L v = VersionList.add_elem L v0.
Proof.
  intros H. unfold VersionList.add_elem.
  now rewrite H, (normalize_idempotent v v0 H).
Qed.

(** Re-adding the elements of a canonical list in their order appends
    each of them, normalized. *)
Lemma add_all_readds (l : list elem) :
  forall acc,
    Forall wf_elem l -> pairwise (fun a b => ebefore a b = true) l ->
    canonical acc ->
    (forall a b, In a acc -> In b l -> ebefore a b = true) ->
    exists l',
      VersionList.add_all acc l = Ok (acc ++ l')
      /\ canonical (acc ++ l')
      /\ VersionList.__eq__ l' l = true.
Proof.
  induction l as [|v l IH]; intros acc Wl Pl Cacc Hb; simpl.
  - exists []. rewrite app_nil_r. auto.
  - inversion Wl as [|? ? Wv Wl']; subst. destruct Pl as [Bv Pl'].
    destruct (normalize_wf v Wv) as (v0 & Hn & Wv0).
    destruct (normalize_bounds v v0 Hn) as [Lo Hi].
    assert (forall x, In x acc -> ebefore x v0 = true) as Hacc.
    { intros x Hx. unfold ebefore. rewrite Lo. apply Hb; simpl; auto. }
    rewrite (add_elem_normalized acc v v0 Hn).
    rewrite (add_elem_append acc v0 Cacc Wv0
               (normalize_idempotent v v0 Hn) Hacc). simpl.
    destruct (IH (acc ++ [v0]) Wl' Pl'
                (canonical_app_one acc v0 Cacc Wv0 Hacc))
      as (l' & Hl' & Cl' & El').
    { intros a b Ha Hb'. apply in_app_or in Ha.
      destruct Ha as [Ha|[<-|[]]].
      - apply Hb; simpl; auto.
      - unfold ebefore. rewrite Hi. rewrite Forall_forall in Bv.
        exact (Bv b Hb'). }
    exists (v0 :: l'). rewrite <- app_assoc in Hl', Cl'. simpl in Hl', Cl'.
    split; [exact Hl'|]. split; [exact Cl'|]. simpl.
    now rewrite (normalize_eq v v0 Hn), El'.
Qed.

Lemma init_loop_star_free (l : list elem) :
  Forall star_free l ->
  forall acc, VersionList.init_loop acc (map obj_of_elem l)
              = VersionList.add_all acc l.
Proof.
  induction 1 as [|e l He _ IH]; intros acc; simpl; [reflexivity|].
  assert (VersionList.ver_typed (obj_of_elem e) = Ok (obj_of_elem e)) as ->.
  { destruct e as [v|r]; [|reflexivity].
    unfold star_free, no_star in He.
    unfold obj_of_elem, VersionList.ver_typed. now rewrite He. }
  simpl.
  assert (VersionList.add acc (obj_of_elem e) = VersionList.add_elem acc e)
    as -> by now destruct e.
  destruct (VersionList.add_elem acc e); simpl; [apply IH|reflexivity].
Qed.

(** X15.  [copy] of a sorted list of pairwise non-overlapping elements
    returns a list that is [==] to it and is again sorted and
    non-overlapping. *)
Theorem copy_is_equal (A : list elem) :
  canonical A -> Forall star_free A ->
  exists A',
    VersionList.copy A = Ok A'
    /\ canonical A'
    /\ VersionList.__eq__ A' A = true.
Proof.
  intros [WA PA] SA. unfold VersionList.copy, VersionList.__init__.
  rewrite (init_loop_star_free A SA).
  destruct (add_all_readds A [] WA PA canonical_nil) as (A' & H & C & E).
  { intros a b []. }
  exists A'. auto.
Qed.

Lemma copy_is_equal_witness :
  exists A',
    VersionList.copy [ER (range_of "1.2" "1.2"); ER (range_of "1.3" "2")]
    = Ok A'
    /\ canonical A'
    /\ VersionList.__eq__
         A' [ER (range_of "1.2" "1.2"); ER (range_of "1.3" "2")] = true.
Proof.
  apply copy_is_equal.
  - split.
    + repeat constructor; simpl; intros; reflexivity.
    + simpl. repeat constructor.
  - repeat constructor.
Defined.

Lemma overlaps_pair_some (U C : list elem) :
  (exists u c, In u U /\ In c C /\ Elem.overlaps u c = true)
  <-> exists c, In c C /\ overlaps_some U c.
Proof.
  unfold overlaps_some. split.
  - intros (u & c & Hu & Hc & H). eauto.
  - intros (c & Hc & u & Hu & H). eauto.
Qed.



End CopyAndUnion.

Section ListIntersection.

Lemma elem_overlaps_as_range (a b : elem) :
  Elem.overlaps a b = VersionRange.overlaps (as_range a) (as_range b).
Proof.
  destruct a as [x|r], b as [y|s]; try reflexivity.
  unfold Elem.overlaps, coerced.
  rewrite version_overlaps_before, range_overlaps_before. reflexivity.
Qed.

Lemma make_valid_nonempty (a b : option Version) (u : VersionRange) :
  VersionRange.make a b = Ok u ->
  nonempty_endpoint a -> nonempty_endpoint b -> wf_elem (ER u).
Proof.
  intros Hm Na Nb. pose proof (make_inv a b u Hm) as ->.
  unfold VersionRange.make, VersionRange.__init__ in Hm.
  split; [|unfold flags_agree; simpl; destruct a; auto].
  unfold range_valid. simpl. destruct a as [x|], b as [y|]; auto.
  simpl in Na, Nb.
  rewrite (truthy_nonempty x Na), (truthy_nonempty y Nb) in Hm. simpl in Hm.
  destruct (Version.__lt__ y x); [discriminate|reflexivity].
Qed.

Lemma version_eq_overlaps (x y : Version) (c : elem) :
  Version.__eq__ x y = true ->
  Elem.overlaps (EV y) c = Elem.overlaps (EV x) c.
Proof.
  intros H. apply tuple_eqb_eq in H.
  rewrite !elem_overlaps_before. unfold ebefore. simpl.
  destruct (Elem.highest c) as [h|], (Elem.lowest c) as [l|]; simpl;
    now rewrite ?H.
Qed.

(** What [intersection] returns for two elements lies within both. *)
Lemma elem_intersection_within (s o e : elem) :
  nonempty_elem s -> nonempty_elem o ->
  Elem.intersection s o = Ok (ISingle e) ->
  wf_elem e
  /\ forall c, Elem.overlaps e c = true ->
               Elem.overlaps s c = true /\ Elem.overlaps o c = true.
Proof.
  intros Ns No H.
  assert (forall (r t : VersionRange),
             nonempty_endpoint (start r) -> nonempty_endpoint (end_ r) ->
             nonempty_endpoint (start t) -> nonempty_endpoint (end_ t) ->
             VersionRange.intersection r t = Ok (ISingle e) ->
             wf_elem e
             /\ forall c, Elem.overlaps e c = true ->
                          VersionRange.overlaps r (as_range c) = true
                          /\ VersionRange.overlaps t (as_range c) = true)
    as Hrange.
  { clear. intros r t N1 N2 N3 N4 H.
    destruct (range_intersection_spec r t _ H) as [[_ Hx]|[_ Hx]];
      [discriminate|].
    destruct Hx as (u & Hx & Hm & _ & _ & Hs & He & Hc).
    inversion Hx; subst e. split.
    - apply (make_valid_nonempty _ _ u Hm).
      + destruct Hs as [-> | ->]; assumption.
      + destruct He as [-> | ->]; assumption.
    - intros c Hov. rewrite elem_overlaps_as_range in Hov.
      exact (Hc (as_range c) Hov). }
  destruct Ns as [Ns1 Ns2], No as [No1 No2].
  destruct s as [x|r], o as [y|t]; unfold Elem.intersection, coerced in H.
  - unfold Elem.version_intersection in H.
    destruct (Version.__eq__ x y) eqn:E; [|discriminate].
    inversion H; subst e. split; [exact I|].
    intros c Hc. split; [exact Hc|].
    now rewrite (version_eq_overlaps x y c E).
  - destruct (Hrange (as_range (EV x)) (as_range (ER t))
                Ns1 Ns2 No1 No2 H) as [W K]. split; [exact W|].
    intros c Hc. rewrite !elem_overlaps_as_range. exact (K c Hc).
  - destruct (Hrange (as_range (ER r)) (as_range (EV y))
                Ns1 Ns2 No1 No2 H) as [W K]. split; [exact W|].
    intros c Hc. rewrite !elem_overlaps_as_range. exact (K c Hc).
  - destruct (Hrange (as_range (ER r)) (as_range (ER t))
                Ns1 Ns2 No1 No2 H) as [W K]. split; [exact W|].
    intros c Hc. rewrite !elem_overlaps_as_range. exact (K c Hc).
Qed.

Lemma intersection_inner_inv (Q : elem -> Prop) (s : elem)
    (other : list elem) :
  forall result result',
    canonical result ->
    (forall c, wf_elem c -> overlaps_some result c -> Q c) ->
    (forall o e, In o other -> Elem.intersection s o = Ok (ISingle e) ->
                 wf_elem e
                 /\ forall c, Elem.overlaps e c = true -> Q c) ->
    VersionList.intersection_inner result s other = Ok result' ->
    canonical result'
    /\ forall c, wf_elem c -> overlaps_some result' c -> Q c.
Proof.
  induction other as [|o other IH]; intros result result' Cr Hr Ho; simpl.
  - intros H. inversion H; subst. auto.
  - destruct (Elem.intersection s o) as [[e|]|ex] eqn:Ei; simpl;
      [| |discriminate].
    + destruct (Ho o e (or_introl eq_refl) Ei) as [We Hq].
      assert (VersionList.add result (obj_of_elem e)
              = VersionList.add_elem result e) as -> by now destruct e.
      destruct (add_elem_canonical result e Cr We) as (L1 & H1 & C1).
      pose proof Cr as [Wr _].
      destruct (add_elem_exact result e Wr We) as (L1' & H1' & _ & K1).
      rewrite H1 in H1'. inversion H1'; subst L1'. clear H1'.
      rewrite H1. simpl. apply (IH L1 result' C1).
      * intros c Wc Hc. apply (K1 c Wc) in Hc.
        destruct Hc as [Hc|Hc]; [now apply Hr | now apply Hq].
      * intros o' e' Hin. apply Ho. now right.
    + apply (IH result result' Cr Hr).
      intros o' e' Hin. apply Ho. now right.
Qed.

Lemma intersection_outer_inv (Q : elem -> Prop) (other : list elem)
    (self : list elem) :
  forall result result',
    canonical result ->
    (forall c, wf_elem c -> overlaps_some result c -> Q c) ->
    (forall s o e, In s self -> In o other ->
                   Elem.intersection s o = Ok (ISingle e) ->
                   wf_elem e
                   /\ forall c, Elem.overlaps e c = true -> Q c) ->
    VersionList.intersection_outer result self other = Ok result' ->
    canonical result'
    /\ forall c, wf_elem c -> overlaps_some result' c -> Q c.
Proof.
  induction self as [|s self IH]; intros result result' Cr Hr Ho; simpl.
  - intros H. inversion H; subst. auto.
  - destruct (VersionList.intersection_inner result s other)
      as [r1|ex] eqn:E1; simpl; [|discriminate].
    destruct (intersection_inner_inv Q s other result r1 Cr Hr) as [C1 H1].
    { intros o e Hin. apply Ho; simpl; auto. }
    { exact E1. }
    apply (IH r1 result' C1 H1).
    intros s' o e Hs. apply Ho. now right.
Qed.

(** X17.  What [VersionList.intersection] returns for two sorted lists of
    pairwise non-overlapping elements is again such a list, and it lies
    within both: a list that overlaps it overlaps both operands. *)
Theorem list_intersection_within (A B I : list elem) :
  canonical A -> canonical B ->
  Forall nonempty_elem A -> Forall nonempty_elem B ->
  VersionList.intersection A B = Ok I ->
  canonical I
  /\ forall C, canonical C -> VersionList.overlaps I C = true ->
               VersionList.overlaps A C = true
               /\ VersionList.overlaps B C = true.
Proof.
  intros CA CB NA NB H. unfold VersionList.intersection in H.
  destruct (intersection_outer_inv
              (fun c => overlaps_some A c /\ overlaps_some B c)
              B A [] I canonical_nil) as [CI HI].
  - intros c _ (e & [] & _).
  - intros s o e Hs Ho He. rewrite Forall_forall in NA, NB.
    destruct (elem_intersection_within s o e (NA s Hs) (NB o Ho) He)
      as [We K].
    split; [exact We|]. intros c Hc. destruct (K c Hc) as [K1 K2].
    split; [exists s | exists o]; auto.
  - exact H.
  - split; [exact CI|]. intros C CC.
    rewrite (list_overlaps_existsb I C CI CC),
            (list_overlaps_existsb A C CA CC),
            (list_overlaps_existsb B C CB CC), !existsb_pair,
            !overlaps_pair_some.
    destruct CC as [WC _]. rewrite Forall_forall in WC.
    intros (c & Hc & Hov). destruct (HI c (WC c Hc) Hov) as [H1 H2].
    split; exists c; auto.
Qed.

Lemma list_intersection_within_witness :
  canonical [ER (range_of "1.4" "1.6"); EV (parsed "2.0")]
  /\ forall C, canonical C ->
       VersionList.overlaps
         [ER (range_of "1.4" "1.6"); EV (parsed "2.0")] C = true ->
       VersionList.overlaps
         [ER (range_of "1.2" "1.6"); EV (parsed "2.0")] C = true
       /\ VersionList.overlaps
            [ER (range_of "1.4" "1.9"); ER (range_of "2.0" "3")] C = true.
Proof.
  apply list_intersection_within.
  - split.
    + repeat constructor; simpl; intros; reflexivity.
    + simpl. repeat constructor.
  - split.
    + repeat constructor; simpl; intros; reflexivity.
    + simpl. repeat constructor.
  - repeat constructor; simpl; discriminate.
  - repeat constructor; simpl; discriminate.
  - reflexivity.
Defined.

End ListIntersection.

Section Preferred.







End Preferred.

Section ParserErrors.

Lemma split_on_length (sep : ascii) (s : string) :
  List.length (split_on sep s) = S (count_char sep s).
Proof.
  induction s as [|c s IH]; simpl; [reflexivity|].
  destruct (Ascii.eqb c sep); simpl; [now rewrite IH|].
  destruct (split_on sep s) as [|p ps]; simpl in *; [discriminate|exact IH].
Qed.

(** X19.  A string without [','] that holds more than one [':'] is
    rejected with [ValueError]: [s, e = string.split(':')] cannot unpack
    more than two items. *)
Theorem ver_rejects_two_colons (s : string) :
  string_mem "," (remove_spaces s) = false ->
  (2 <= count_char ":" (remove_spaces s))%nat ->
  ver s = Raise ValueError.
Proof.
  intros Hc Hn. unfold ver, _string_to_version. rewrite Hc.
  unfold string_to_version_single.
  pose proof (split_on_length ":" (remove_spaces s)) as Hl.
  destruct (string_mem ":" (remove_spaces s)) eqn:Hm.
  - destruct (split_on ":" (remove_spaces s)) as [|a [|b [|c l]]];
      simpl in Hl; try lia; reflexivity.
  - exfalso. clear Hl Hc. induction (remove_spaces s) as [|c t IH];
      simpl in *; [lia|].
    destruct (Ascii.eqb c ":"); simpl in Hm; [discriminate|]. auto.
Qed.

Lemma ver_rejects_two_colons_witness : ver "1.0 : 2.0 : 3.0" = Raise ValueError.
Proof. apply ver_rejects_two_colons; [reflexivity | simpl; lia]. Defined.

Lemma init_strings_empty_piece (ss : list string) :
  In EmptyString ss -> forall acc, raises (init_strings acc ss).
Proof.
  induction ss as [|s ss IH]; intros Hin acc; [destruct Hin|]. simpl.
  destruct Hin as [->|Hin]; [exact I|].
  destruct (ver_piece s) as [o|e]; simpl; [|exact I].
  destruct (VersionList.add acc o) as [acc'|e]; simpl; [|exact I].
  now apply IH.
Qed.

(** X20.  A comma-separated string with an empty item, such as a trailing
    comma, is rejected: [ver] raises. *)
Theorem ver_rejects_empty_item (s : string) :
  string_mem "," (remove_spaces s) = true ->
  In EmptyString (split_on "," (remove_spaces s)) ->
  raises (ver s).
Proof.
  intros Hc Hin. unfold ver, _string_to_version. rewrite Hc.
  pose proof (init_strings_empty_piece _ Hin []) as H.
  destruct (init_strings [] (split_on "," (remove_spaces s)));
    [contradiction|exact I].
Qed.

Lemma ver_rejects_empty_item_witness : raises (ver "1.0, 2.0,").
Proof.
  apply ver_rejects_empty_item; [reflexivity|].
  simpl. auto.
Defined.

End ParserErrors.

Section DecimalStrings.

Ltac digit_value_compute :=
  repeat match goal with
         | |- context [digit_value ?c] =>
             let v := eval vm_compute in (digit_value c) in
             change (digit_value c) with v
         end.

Lemma digit_string_class (d : Decimal.uint) :
  all_class CDigit (NilEmpty.string_of_uint d) = true.
Proof.
  induction d; cbn [NilEmpty.string_of_uint all_class];
    [reflexivity | rewrite IHd; reflexivity ..].
Qed.

Lemma int_of_digits_pos (d : Decimal.uint) :
  forall p, int_of_digits (Zpos p) (NilEmpty.string_of_uint d)
            = Zpos (Pos.of_uint_acc d p).
Proof.
  induction d; intros p;
    cbn [NilEmpty.string_of_uint int_of_digits Pos.of_uint_acc];
    [reflexivity | rewrite <- IHd; f_equal; digit_value_compute;
                   lia ..].
Qed.

Lemma int_of_digits_uint (d : Decimal.uint) :
  int_of_digits 0 (NilEmpty.string_of_uint d) = Z.of_N (Pos.of_uint d).
Proof.
  induction d;
    cbn [NilEmpty.string_of_uint int_of_digits Pos.of_uint];
    digit_value_compute;
    [reflexivity | exact IHd | apply int_of_digits_pos ..].
Qed.

(** [int(str(n)) == n] for the integers of a version, with [str(n)] a
    non-empty string of digits. *)
Lemma str_of_int_spec (n : Z) :
  0 <= n ->
  str_of_int n <> EmptyString
  /\ all_class CDigit (str_of_int n) = true
  /\ int_of_digits 0 (str_of_int n) = n.
Proof.
  intros Hn. destruct n as [|p|p]; [| |lia].
  - repeat split. discriminate.
  - unfold str_of_int, Z.to_int, NilZero.string_of_int.
    pose proof (DecimalPos.Unsigned.to_uint_nonnil p) as Hnil.
    pose proof (DecimalPos.Unsigned.of_to p) as Hof.
    assert (NilZero.string_of_uint (Pos.to_uint p)
            = NilEmpty.string_of_uint (Pos.to_uint p)) as ->.
    { destruct (Pos.to_uint p); [contradiction|reflexivity ..]. }
    split; [|split].
    + destruct (Pos.to_uint p); [contradiction|discriminate ..].
    + apply digit_string_class.
    + rewrite int_of_digits_uint, Hof. reflexivity.
Qed.

End DecimalStrings.

Section TokensOfRuns.

Lemma cclass_eqb_neq (a b : cclass) : a <> b -> cclass_eqb a b = false.
Proof. destruct a, b; intros H; try reflexivity; now elim H. Qed.

Lemma runs_wf (s : string) : wf_runs (runs s).
Proof.
  induction s as [|c s IH]; simpl; [exact I|].
  destruct (runs s) as [|[k r] rest].
  - simpl. rewrite cclass_eqb_refl. repeat split. discriminate.
  - destruct IH as (Hne & Hall & Hnext & Hrest).
    destruct (cclass_eqb (classify c) k) eqn:E.
    + simpl. rewrite E, Hall. repeat split; auto. discriminate.
    + simpl. rewrite cclass_eqb_refl. repeat split; auto; try discriminate.
      intros ->. rewrite cclass_eqb_refl in E. discriminate.
Qed.

(** The runs of a run followed by a string that starts in another
    class. *)
Lemma runs_app_run (k : cclass) (r u : string) :
  r <> EmptyString -> all_class k r = true ->
  match runs u with
  | (k', _) :: _ => k' <> k
  | [] => True
  end ->
  runs (r +++ u) = (k, r) :: runs u.
Proof.
  intros Hne Hall Hu. induction r as [|c r IH]; [contradiction|].
  simpl in Hall. apply andb_true_iff in Hall. destruct Hall as [Hc Hr].
  apply cclass_eqb_eq in Hc. simpl.
  destruct r as [|c' r'].
  - simpl. destruct (runs u) as [|[k' r0] rest]; [now rewrite Hc|].
    rewrite Hc, (cclass_eqb_neq k k') by congruence. reflexivity.
  - rewrite IH by (auto; discriminate).
    now rewrite Hc, cclass_eqb_refl.
Qed.

Lemma int_of_digits_nonneg (s : string) :
  forall acc, 0 <= acc -> 0 <= int_of_digits acc s.
Proof.
  induction s as [|c s IH]; intros acc H; cbn [int_of_digits]; [exact H|].
  apply IH. unfold digit_value. lia.
Qed.

Lemma split_separators_cons (k : cclass) (r : string)
    (rest : list (cclass * string)) :
  k <> COther ->
  split_separators ((k, r) :: rest)
  = match rest with
    | (COther, t) :: rest' => t :: split_separators rest'
    | _ => EmptyString :: split_separators rest
    end.
Proof.
  intros Hk. destruct k; [| |now elim Hk];
    destruct rest as [|[[] t] rest']; reflexivity.
Qed.

Lemma findall_split_length (rs : list (cclass * string)) :
  List.length (findall_segments rs) = List.length (split_separators rs).
Proof.
  induction rs as [|[k r] rs IH]; [reflexivity|].
  destruct k; [| |exact IH].
  - rewrite split_separators_cons by discriminate.
    destruct rs as [|[[] t] rs']; simpl in *; lia.
  - rewrite split_separators_cons by discriminate.
    destruct rs as [|[[] t] rs']; simpl in *; lia.
Qed.

Lemma findall_cons (k : cclass) (r : string) (rest : list (cclass * string)) :
  k <> COther ->
  findall_segments ((k, r) :: rest) = token_of k r :: findall_segments rest.
Proof. intros Hk. destruct k; [reflexivity|reflexivity|now elim Hk]. Qed.

Lemma findall_other (r : string) (rest : list (cclass * string)) :
  findall_segments ((COther, r) :: rest) = findall_segments rest.
Proof. reflexivity. Qed.

Lemma tok_class_token_of (k : cclass) (r : string) :
  k <> COther -> tok_class (token_of k r) = k.
Proof. intros Hk. destruct k; [reflexivity|reflexivity|now elim Hk]. Qed.

Lemma tok_class_not_other (t : seg) : tok_class t <> COther.
Proof. destruct t; discriminate. Qed.

Lemma wf_token_of (k : cclass) (r : string) :
  k <> COther -> r <> EmptyString -> all_class k r = true ->
  wf_token (token_of k r).
Proof.
  intros Hk Hne Hall. destruct k; simpl; [auto| |now elim Hk].
  now apply int_of_digits_nonneg.
Qed.

(** The zipped tokens and separators of the runs of a string. *)
Lemma pairs_wf (rs : list (cclass * string)) :
  wf_runs rs ->
  wf_pairs (combine (findall_segments rs) (split_separators rs)).
Proof.
  induction rs as [|[k r] rs IH]; intros W; [exact I|].
  destruct W as (Hne & Hall & Hnext & Wrs). specialize (IH Wrs).
  assert (k = COther \/ k <> COther) as [->|Hk]
    by (destruct k; auto; right; discriminate).
  - exact IH.
  - rewrite (findall_cons k r rs Hk), (split_separators_cons k r rs Hk).
    pose proof (wf_token_of k r Hk Hne Hall) as Wt.
    destruct rs as [|[k' t] rs'].
    + simpl. auto.
    + assert (k' = COther \/ k' <> COther) as [->|Hk']
        by (destruct k'; auto; right; discriminate).
      * destruct Wrs as (Hne' & Hall' & _ & _).
        cbn [findall_segments combine wf_pairs].
        split; [exact Wt|]. split; [exact Hall'|].
        split; [intros ->; now elim Hne'|]. exact IH.
      * assert (match k' with
                | COther => t :: split_separators rs'
                | _ => EmptyString :: split_separators ((k', t) :: rs')
                end = EmptyString :: split_separators ((k', t) :: rs')) as ->
          by (destruct k'; [reflexivity|reflexivity|now elim Hk']).
        cbn [combine wf_pairs].
        split; [exact Wt|]. split; [reflexivity|]. split; [|exact IH].
        intros _. rewrite (findall_cons k' t rs' Hk').
        rewrite (split_separators_cons k' t rs' Hk').
        rewrite (tok_class_token_of k r Hk).
        destruct rs' as [|[[] t'] rs'']; cbn [combine];
          now rewrite (tok_class_token_of k' t Hk').
Qed.

Lemma wf_pairs_firstn (n : nat) :
  forall ps, wf_pairs ps -> wf_pairs (firstn n ps).
Proof.
  induction n as [|n IH]; intros [|[t sep] ps]; simpl; auto.
  intros (Wt & Hs & Hn & Wps). split; [exact Wt|]. split; [exact Hs|].
  split; [|now apply IH].
  intros E. specialize (Hn E). destruct n; [exact I|].
  destruct ps as [|[t' sep'] ps']; simpl; auto.
Qed.

End TokensOfRuns.

Section Rebuild.

Lemma seg_str_token (t : seg) :
  wf_token t ->
  seg_str t <> EmptyString
  /\ all_class (tok_class t) (seg_str t) = true
  /\ token_of (tok_class t) (seg_str t) = t.
Proof.
  destruct t as [n|r]; simpl.
  - intros Hn. destruct (str_of_int_spec n Hn) as (H1 & H2 & H3).
    now rewrite H3.
  - intros [H1 H2]. auto.
Qed.

Lemma rebuild_cons (t : seg) (sep : string) (p : seg * string)
    (ps : list (seg * string)) :
  rebuild ((t, sep) :: p :: ps) = seg_str t +++ sep +++ rebuild (p :: ps).
Proof. reflexivity. Qed.

Lemma string_arg_rebuild (ps : list (seg * string)) :
  ps <> [] ->
  exists pieces sepn,
    Version.string_arg_of ps = pieces ++ [sepn]
    /\ concat_strings pieces = rebuild ps.
Proof.
  induction ps as [|[t sep] ps IH]; intros Hne; [contradiction|].
  destruct ps as [|[t' sep'] ps'].
  - exists [seg_str t], sep. split; [reflexivity|]. simpl.
    apply string_app_nil_r.
  - destruct IH as (pieces & sepn & H1 & H2); [discriminate|].
    exists (seg_str t :: sep :: pieces), sepn. split.
    + change (Version.string_arg_of ((t, sep) :: (t', sep') :: ps'))
        with (seg_str t :: sep :: Version.string_arg_of ((t', sep') :: ps')).
      now rewrite H1.
    + rewrite rebuild_cons. cbn [concat_strings]. now rewrite H2.
Qed.

Lemma runs_rebuild (ps : list (seg * string)) :
  forall t sep,
    wf_pairs ((t, sep) :: ps) ->
    exists rest,
      runs (rebuild ((t, sep) :: ps)) = (tok_class t, seg_str t) :: rest
      /\ findall_segments ((tok_class t, seg_str t) :: rest)
         = t :: map fst ps.
Proof.
  induction ps as [|[t' sep'] ps IH]; intros t sep (Wt & Hs & Hn & Wps).
  - destruct (seg_str_token t Wt) as (N & A & T).
    exists []. cbn [rebuild]. split.
    + rewrite <- (string_app_nil_r (seg_str t)) at 1.
      now rewrite (runs_app_run (tok_class t) (seg_str t) EmptyString N A).
    + rewrite (findall_cons _ _ _ (tok_class_not_other t)), T. reflexivity.
  - destruct (seg_str_token t Wt) as (N & A & T).
    destruct (IH t' sep' Wps) as (rest & R1 & R2).
    rewrite rebuild_cons. destruct sep as [|c sep0].
    + exists ((tok_class t', seg_str t') :: rest). split.
      * cbn [String.append].
        rewrite (runs_app_run (tok_class t) (seg_str t) _ N A);
          rewrite R1; [reflexivity|exact (Hn eq_refl)].
      * rewrite (findall_cons _ _ _ (tok_class_not_other t)), T, R2.
        reflexivity.
    + exists ((COther, String c sep0) :: (tok_class t', seg_str t') :: rest).
      assert (runs (String c sep0 +++ rebuild ((t', sep') :: ps))
              = (COther, String c sep0) :: (tok_class t', seg_str t') :: rest)
        as Rs.
      { rewrite (runs_app_run COther (String c sep0) _) by
          (try discriminate; try exact Hs; rewrite R1;
           apply tok_class_not_other).
        now rewrite R1. }
      split.
      * rewrite (runs_app_run (tok_class t) (seg_str t) _ N A);
          rewrite Rs; [reflexivity|].
        intros E. symmetry in E. now apply tok_class_not_other in E.
      * rewrite (findall_cons _ _ _ (tok_class_not_other t)), T.
        now rewrite findall_other, R2.
Qed.

Lemma alnum_char (c : ascii) :
  classify c <> COther -> is_space c = false /\ valid_char c = true.
Proof.
  destruct c as [[] [] [] [] [] [] [] []]; vm_compute; intros H;
    first [split; reflexivity | exfalso; apply H; reflexivity].
Qed.

Lemma all_class_head (k : cclass) (s : string) :
  k <> COther -> s <> EmptyString -> all_class k s = true ->
  forall x, head_not_space (s +++ x)
            /\ re_match_VALID_VERSION (s +++ x) = true.
Proof.
  intros Hk Hne Hall x. destruct s as [|c s]; [contradiction|].
  simpl in Hall. apply andb_true_iff in Hall. destruct Hall as [Hc _].
  apply cclass_eqb_eq in Hc.
  destruct (alnum_char c) as [H1 H2]; [congruence|]. simpl. auto.
Qed.

Lemma all_class_rev_append (k : cclass) (s : string) :
  forall acc, all_class k s = true -> all_class k acc = true ->
              all_class k (string_rev_append s acc) = true.
Proof.
  induction s as [|c s IH]; intros acc; simpl; [auto|].
  intros [Hc Hs]%andb_true_iff Hacc. apply IH; [exact Hs|].
  simpl. now rewrite Hc.
Qed.

Lemma rev_append_nonempty (s : string) :
  forall acc, acc <> EmptyString -> string_rev_append s acc <> EmptyString.
Proof.
  induction s as [|c s IH]; intros acc H; simpl; [exact H|].
  apply IH. discriminate.
Qed.

Lemma strip_fixed (x : string) :
  head_not_space x -> head_not_space (string_rev x) -> strip x = x.
Proof.
  intros H1 H2. unfold strip.
  rewrite (lstrip_id x H1), (lstrip_id _ H2).
  apply string_rev_involutive.
Qed.

Lemma rebuild_head (t : seg) (sep : string) (ps : list (seg * string)) :
  exists x, rebuild ((t, sep) :: ps) = seg_str t +++ x.
Proof.
  destruct ps as [|p ps].
  - exists EmptyString. simpl. now rewrite string_app_nil_r.
  - rewrite rebuild_cons. eauto.
Qed.

Lemma rebuild_last (ps : list (seg * string)) :
  wf_pairs ps -> ps <> [] ->
  exists a t, wf_token t /\ rebuild ps = a +++ seg_str t.
Proof.
  induction ps as [|[t sep] ps IH]; intros W Hne; [contradiction|].
  destruct W as (Wt & _ & _ & Wps). destruct ps as [|p ps].
  - exists EmptyString, t. auto.
  - destruct (IH Wps) as (a & t' & Wt' & H); [discriminate|].
    exists (seg_str t +++ sep +++ a), t'. split; [exact Wt'|].
    rewrite rebuild_cons, H. now rewrite !string_app_assoc.
Qed.

(** The constructor on the string joined for a slice returns the tokens
    of the slice. *)
Lemma init_rebuild (ps : list (seg * string)) :
  wf_pairs ps -> ps <> [] ->
  exists u, Version.__init__ (rebuild ps) = Ok u /\ version u = map fst ps.
Proof.
  intros W Hne. destruct ps as [|[t sep] ps]; [contradiction|].
  pose proof W as (Wt & _).
  destruct (seg_str_token t Wt) as (N & A & _).
  destruct (rebuild_head t sep ps) as [x Hx].
  destruct (all_class_head _ _ (tok_class_not_other t) N A x) as [Hh Hm].
  destruct (rebuild_last _ W Hne) as (a & tl & Wl & Hl).
  destruct (seg_str_token tl Wl) as (Nl & Al & _).
  assert (head_not_space (string_rev (rebuild ((t, sep) :: ps)))) as Hr.
  { rewrite Hl, string_rev_app.
    apply (all_class_head (tok_class tl)).
    - apply tok_class_not_other.
    - unfold string_rev. destruct (seg_str tl) as [|c s]; [contradiction|].
      simpl. apply rev_append_nonempty. discriminate.
    - unfold string_rev. now apply all_class_rev_append. }
  destruct (runs_rebuild ps t sep W) as (rest & R1 & R2).
  assert (re_match_VALID_VERSION (rebuild ((t, sep) :: ps)) = true) as Hm'
    by (rewrite Hx; exact Hm).
  assert (head_not_space (rebuild ((t, sep) :: ps))) as Hh'
    by (rewrite Hx; exact Hh).
  unfold Version.__init__. rewrite Hm'.
  rewrite (strip_fixed _ Hh' Hr).
  eexists. split; [reflexivity|].
  cbn [version negb]. now rewrite R1, R2.
Qed.

Lemma map_fst_combine (a : list seg) (b : list string) :
  List.length a = List.length b -> map fst (combine a b) = a.
Proof.
  revert b. induction a as [|x a IH]; intros [|y b] H; simpl in *;
    try reflexivity; try discriminate.
  f_equal. apply IH. now inversion H.
Qed.

Lemma constructed_pairs (s0 : string) (v : Version) :
  Version.__init__ s0 = Ok v ->
  wf_pairs (combine (version v) (separators v))
  /\ List.length (version v) = List.length (separators v).
Proof.
  unfold Version.__init__.
  destruct (re_match_VALID_VERSION s0); simpl; [|discriminate].
  intros H. inversion H. simpl. split.
  - apply pairs_wf, runs_wf.
  - apply findall_split_length.
Qed.

(** X21.  [up_to(index)], that is [self[:index]], of a constructed
    version returns the version whose segments are the slice
    [version[:index]], and [self] satisfies it; when the slice is empty
    the call raises [IndexError]. *)
Theorem up_to_prefix (s0 : string) (v : Version) (index : Z) :
  Version.__init__ s0 = Ok v ->
  let p := slice None (Some index) (version v) in
  (p = [] -> Version.up_to v index = Raise IndexError)
  /\ (p <> [] ->
      exists u, Version.up_to v index = Ok u
                /\ version u = p
                /\ Version.satisfies v u = true).
Proof.
  intros H0 p. destruct (constructed_pairs s0 v H0) as [W Hlen].
  set (n := slice_bound (List.length (version v)) (List.length (version v))
              (Some index)).
  set (ps := firstn n (combine (version v) (separators v))).
  assert (p = firstn n (version v)) as Hp0 by reflexivity.
  assert (Version.up_to v index
          = match rev (Version.string_arg_of ps) with
            | [] => Raise IndexError
            | _ :: front => Version.__init__ (concat_strings (rev front))
            end) as Hup.
  { unfold Version.up_to, Version.getitem_slice, slice.
    cbn [slice_bound skipn]. rewrite <- Hlen. fold n.
    rewrite <- combine_firstn. reflexivity. }
  clearbody p. subst p. rewrite Hup. clear Hup.
  assert (wf_pairs ps) as Wps by now apply wf_pairs_firstn.
  assert (map fst ps = firstn n (version v)) as Hfst.
  { unfold ps. rewrite <- firstn_map. now rewrite map_fst_combine. }
  split.
  - intros Hp. rewrite <- Hfst in Hp. apply map_eq_nil in Hp.
    now rewrite Hp.
  - intros Hp.
    assert (ps <> []) as Hne.
    { intros E. rewrite E in Hfst. simpl in Hfst. now rewrite <- Hfst in Hp. }
    destruct (string_arg_rebuild ps Hne) as (pieces & sepn & H1 & H2).
    rewrite H1, rev_app_distr. simpl. rewrite rev_involutive, H2.
    destruct (init_rebuild ps Wps Hne) as (u & Hu & Hv).
    exists u. split; [exact Hu|]. rewrite Hv, Hfst. split; [reflexivity|].
    rewrite Version_satisfies_prefix, Hv, Hfst.
    apply is_prefix_app. exists (skipn n (version v)).
    symmetry. apply firstn_skipn.
Qed.

Lemma up_to_prefix_witness :
  let p := slice None (Some (-1)) (version (parsed "1.23-4b")) in
  (p = [] -> Version.up_to (parsed "1.23-4b") (-1) = Raise IndexError)
  /\ (p <> [] ->
      exists u, Version.up_to (parsed "1.23-4b") (-1) = Ok u
                /\ version u = p
                /\ Version.satisfies (parsed "1.23-4b") u = true).
Proof. apply (up_to_prefix "1.23-4b"). reflexivity. Defined.

(** The examples of the docstring of [up_to]. *)
Example up_to_examples :
  (u <- Version.up_to (parsed "1.23-4b") 2 ;; Ok (Version.__str__ u))
  = Ok "1.23"
  /\ (u <- Version.up_to (parsed "1.23-4b") (-1) ;; Ok (Version.__str__ u))
     = Ok "1.23-4"
  /\ Version.up_to (parsed "1.23-4b") 0 = Raise IndexError.
Proof. repeat split. Qed.

End Rebuild.

Section SatisfiesOrder.

Lemma is_prefix_trans (a b c : list seg) :
  is_prefix a b = true -> is_prefix b c = true -> is_prefix a c = true.
Proof.
  intros [q ->]%is_prefix_app [r ->]%is_prefix_app.
  apply is_prefix_app. exists (q ++ r). now rewrite app_assoc.
Qed.

Lemma is_prefix_antisym (a b : list seg) :
  is_prefix a b = true -> is_prefix b a = true -> a = b.
Proof.
  intros [q ->]%is_prefix_app [r H]%is_prefix_app.
  rewrite <- app_assoc in H. rewrite <- (app_nil_r a) in H at 1.
  apply app_inv_head in H. symmetry in H.
  apply app_eq_nil in H. destruct H as [-> _]. now rewrite app_nil_r.
Qed.

(** X22.  On versions, [satisfies] is the converse of [in]; it is
    reflexive and transitive, two versions that satisfy each other are
    [==], and a version is never [<] a version it satisfies. *)
Theorem version_satisfies_order :
  (forall v u, Version.satisfies v u = Version.__contains__ u v)
  /\ (forall v, Version.satisfies v v = true)
  /\ (forall v u w, Version.satisfies v u = true ->
                    Version.satisfies u w = true ->
                    Version.satisfies v w = true)
  /\ (forall v u, Version.satisfies v u = true ->
                  Version.satisfies u v = true ->
                  Version.__eq__ v u = true)
  /\ (forall v u, Version.satisfies v u = true ->
                  Version.__lt__ v u = false).
Proof.
  split; [|split; [|split; [|split]]].
  - intros v u. now rewrite Version_satisfies_prefix, Version_contains_prefix.
  - intros v. rewrite Version_satisfies_prefix. apply is_prefix_refl.
  - intros v u w. rewrite !Version_satisfies_prefix. intros H1 H2.
    exact (is_prefix_trans _ _ _ H2 H1).
  - intros v u. rewrite !Version_satisfies_prefix. intros H1 H2.
    unfold Version.__eq__. apply tuple_eqb_eq.
    exact (is_prefix_antisym _ _ H2 H1).
  - intros v u. rewrite Version_satisfies_prefix, Version_lt_segs.
    apply is_prefix_le.
Qed.

End SatisfiesOrder.

Section IntersectSelf.

Lemma elem_intersection_disjoint (s o : elem) :
  Elem.overlaps s o = false -> Elem.intersection s o = Ok IEmpty.
Proof.
  intros H. rewrite elem_overlaps_as_range in H.
  destruct s as [x|r], o as [y|t]; unfold Elem.intersection, coerced;
    try (unfold VersionRange.intersection; now rewrite H).
  unfold Elem.version_intersection.
  destruct (Version.__eq__ x y) eqn:E; [|reflexivity].
  apply tuple_eqb_eq in E.
  rewrite <- elem_overlaps_as_range, elem_overlaps_before in H.
  unfold ebefore in H. simpl in H. unfold segs_before in H.
  rewrite E, segs_lt_irrefl in H. discriminate.
Qed.

Lemma elem_intersection_self (s : elem) :
  wf_elem s -> closed_elem s -> Elem.intersection s s = Ok (ISingle s).
Proof.
  destruct s as [x|r]; intros W C.
  - unfold Elem.intersection, coerced, Elem.version_intersection,
      Version.__eq__. now rewrite tuple_eqb_refl.
  - destruct W as [Hv _]. destruct C as [Cl Cr].
    pose proof (range_intersection_self r Hv) as H.
    unfold Elem.intersection, coerced. simpl as_range. rewrite H.
    destruct r as [st en il ir]. simpl in *. now subst.
Qed.

Lemma intersection_inner_none (s : elem) (l : list elem) :
  forall acc, (forall o, In o l -> Elem.overlaps s o = false) ->
              VersionList.intersection_inner acc s l = Ok acc.
Proof.
  induction l as [|o l IH]; intros acc H; simpl; [reflexivity|].
  rewrite (elem_intersection_disjoint s o) by (apply H; simpl; auto).
  simpl. apply IH. intros o' Ho'. apply H. simpl; auto.
Qed.

Lemma intersection_inner_self (s : elem) (post : list elem) :
  forall pre acc,
    (forall o, In o pre \/ In o post -> Elem.overlaps s o = false) ->
    Elem.intersection s s = Ok (ISingle s) ->
    VersionList.intersection_inner acc s (pre ++ s :: post)
    = VersionList.add_elem acc s.
Proof.
  induction pre as [|o pre IH]; intros acc H Hs; simpl.
  - rewrite Hs. simpl.
    assert (VersionList.add acc (obj_of_elem s) = VersionList.add_elem acc s)
      as -> by now destruct s.
    destruct (VersionList.add_elem acc s) as [acc'|e]; simpl; [|reflexivity].
    apply intersection_inner_none. intros o Ho. apply H. auto.
  - rewrite (elem_intersection_disjoint s o) by (apply H; simpl; auto).
    simpl. apply IH; [|exact Hs]. intros o' [Ho'|Ho']; apply H; simpl; auto.
Qed.

Lemma canonical_split (A pre post : list elem) (s : elem) :
  canonical A -> A = pre ++ s :: post ->
  forall o, In o pre \/ In o post -> Elem.overlaps s o = false.
Proof.
  intros [_ P] -> o Ho. apply pairwise_app in P.
  destruct P as (_ & [Fs _] & Hx). destruct Ho as [Ho|Ho].
  - exact (proj2 (ebefore_no_overlap o s (Hx o s Ho (or_introl eq_refl)))).
  - rewrite Forall_forall in Fs.
    exact (proj1 (ebefore_no_overlap s o (Fs o Ho))).
Qed.

Lemma intersection_outer_self (A : list elem) :
  canonical A -> Forall closed_elem A ->
  forall suffix acc,
    (forall s, In s suffix -> In s A) ->
    VersionList.intersection_outer acc suffix A
    = VersionList.add_all acc suffix.
Proof.
  intros CA Cl. induction suffix as [|s suffix IH]; intros acc Hin; simpl;
    [reflexivity|].
  assert (In s A) as Hs by (apply Hin; simpl; auto).
  destruct (in_split s A Hs) as (pre & post & HA).
  pose proof CA as [WA _]. rewrite Forall_forall in WA, Cl.
  rewrite HA at 1.
  rewrite (intersection_inner_self s post pre acc
             (canonical_split A pre post s CA HA)
             (elem_intersection_self s (WA s Hs) (Cl s Hs))).
  destruct (VersionList.add_elem acc s) as [acc'|e]; simpl; [|reflexivity].
  apply IH. intros s' Hs'. apply Hin. simpl; auto.
Qed.

(** X23.  Intersecting a sorted list of pairwise non-overlapping elements
    with itself leaves it unchanged when its ranges include both
    endpoints: [intersect] returns [False], and the list it stores is
    again sorted and non-overlapping. *)
Theorem intersect_self_unchanged (A : list elem) :
  canonical A -> Forall closed_elem A ->
  exists A',
    VersionList.intersect A A = Ok (A', false)
    /\ canonical A'
    /\ VersionList.__eq__ A' A = true.
Proof.
  intros CA Cl. pose proof CA as [WA PA].
  unfold VersionList.intersect, VersionList.intersection.
  rewrite (intersection_outer_self A CA Cl A []) by auto.
  destruct (add_all_readds A [] WA PA canonical_nil) as (A' & H & C & E).
  { intros a b []. }
  simpl in H, C. rewrite H. simpl. rewrite E. simpl.
  exists A'. auto.
Qed.

Lemma intersect_self_unchanged_witness :
  exists A',
    VersionList.intersect [ER (range_of "1.2" "1.4"); EV (parsed "2.0")]
                          [ER (range_of "1.2" "1.4"); EV (parsed "2.0")]
    = Ok (A', false)
    /\ canonical A'
    /\ VersionList.__eq__
         A' [ER (range_of "1.2" "1.4"); EV (parsed "2.0")] = true.
Proof.
  apply intersect_self_unchanged.
  - split.
    + repeat constructor; simpl; intros; reflexivity.
    + simpl. repeat constructor.
  - repeat constructor.
Defined.

(** With an excluded endpoint the list does change: the intersection of a
    range with itself includes both endpoints. *)
Example intersect_self_changes_open_range :
  VersionList.intersect
    [ER (mkRange (Some (parsed "1.2")) (Some (parsed "1.4")) true false)]
    [ER (mkRange (Some (parsed "1.2")) (Some (parsed "1.4")) true false)]
  = Ok ([ER (range_of "1.2" "1.4")], true).
Proof. reflexivity. Qed.

End IntersectSelf.

Section Develop.

Lemma isdevelop_segments (w : Version) :
  Version.isdevelop w = existsb in_infinity (version w).
Proof.
  apply Bool.eq_iff_eq_true. unfold Version.isdevelop.
  rewrite !existsb_exists. split.
  - intros (inf & Hinf & H). apply existsb_exists in H.
    destruct H as (a & Ha & E). apply seg_eqb_eq in E. subst a.
    exists (SStr inf). split; [exact Ha|]. unfold in_infinity.
    apply existsb_exists. exists inf. split; [exact Hinf|].
    apply String.eqb_refl.
  - intros (a & Ha & H). destruct a as [n|s]; [discriminate|].
    unfold in_infinity in H. apply existsb_exists in H.
    destruct H as (inf & Hinf & E).
    apply String.eqb_eq in E. subst inf.
    exists s. split; [exact Hinf|]. apply existsb_exists.
    exists (SStr s). split; [exact Ha|]. apply seg_eqb_refl.
Qed.

(** X24.  [isdevelop] is [True] exactly when some segment is one of
    [infinity_versions], and every version for which it is [False] is [<]
    the versions [develop], [main], [master], [head] and [trunk]. *)
Theorem isdevelop_greatest (v w : Version) (inf : string) :
  In inf infinity_versions -> version v = [SStr inf] ->
  Version.isdevelop v = true
  /\ (Version.isdevelop w = existsb in_infinity (version w))
  /\ (Version.isdevelop w = false -> Version.__lt__ w v = true).
Proof.
  intros Hinf Hv.
  assert (in_infinity (SStr inf) = true) as Hi.
  { unfold in_infinity. apply existsb_exists.
    exists inf. split; [exact Hinf|].
    apply String.eqb_refl. }
  split; [|split].
  - rewrite isdevelop_segments, Hv. cbn [existsb]. now rewrite Hi.
  - apply isdevelop_segments.
  - rewrite isdevelop_segments, Version_lt_segs, Hv.
    destruct (version w) as [|a x]; [reflexivity|].
    cbn [existsb segs_lt]. intros H. apply orb_false_iff in H.
    destruct H as [Ha _].
    assert (seg_eqb a (SStr inf) = false) as ->.
    { apply seg_eqb_neq. intros ->. congruence. }
    unfold seg_lt_first. now rewrite Ha, Hi.
Qed.

Lemma isdevelop_greatest_witness :
  Version.isdevelop (parsed "develop") = true
  /\ (Version.isdevelop (parsed "1.2.3")
      = existsb in_infinity (version (parsed "1.2.3")))
  /\ (Version.isdevelop (parsed "1.2.3") = false ->
      Version.__lt__ (parsed "1.2.3") (parsed "develop") = true).
Proof.
  apply (isdevelop_greatest (parsed "develop") (parsed "1.2.3") "develop").
  - simpl. auto.
  - reflexivity.
Defined.

End Develop.
